(** * ostree fsck: a shallow embedding of [ostree_builtin_fsck]

    The development follows the C source of the [fsck] builtin
    (functions [fsck_pack_files], [fsck_reachable_objects_from_commits]
    and [ostree_builtin_fsck]).  The functions of libostree, GLib and GIO
    that the builtin calls are not part of the translated file; they are
    gathered in the class [Collaborators] below and every call is recorded
    in a trace of events, so that statements about "what was checked" and
    "in which order" can be made about the run itself. *)

From stdpp Require Import base decidable countable list gmap strings pretty.
From Stdlib Require Import ZArith Lia Sorted.

#[local] Set Warnings "-clear-no-such-hyp".

Local Open Scope string_scope.
Local Open Scope Z_scope.
Local Open Scope list_scope.
Local Open Scope stdpp_scope.

(** ** Data model *)

(** The object types of the store ([OstreeObjectType]). *)
Inductive OstreeObjectType :=
| OSTREE_OBJECT_TYPE_RAW_FILE
| OSTREE_OBJECT_TYPE_ARCHIVED_FILE_CONTENT
| OSTREE_OBJECT_TYPE_ARCHIVED_FILE_META
| OSTREE_OBJECT_TYPE_DIR_TREE
| OSTREE_OBJECT_TYPE_DIR_META
| OSTREE_OBJECT_TYPE_COMMIT.

#[global] Instance OstreeObjectType_eq_dec : EqDecision OstreeObjectType.
Proof. solve_decision. Defined.

Definition objtype_code (t : OstreeObjectType) : nat :=
  match t with
  | OSTREE_OBJECT_TYPE_RAW_FILE => 1
  | OSTREE_OBJECT_TYPE_ARCHIVED_FILE_CONTENT => 2
  | OSTREE_OBJECT_TYPE_ARCHIVED_FILE_META => 3
  | OSTREE_OBJECT_TYPE_DIR_TREE => 4
  | OSTREE_OBJECT_TYPE_DIR_META => 5
  | OSTREE_OBJECT_TYPE_COMMIT => 6
  end%nat.

Definition objtype_of_code (n : nat) : option OstreeObjectType :=
  match n with
  | 1 => Some OSTREE_OBJECT_TYPE_RAW_FILE
  | 2 => Some OSTREE_OBJECT_TYPE_ARCHIVED_FILE_CONTENT
  | 3 => Some OSTREE_OBJECT_TYPE_ARCHIVED_FILE_META
  | 4 => Some OSTREE_OBJECT_TYPE_DIR_TREE
  | 5 => Some OSTREE_OBJECT_TYPE_DIR_META
  | 6 => Some OSTREE_OBJECT_TYPE_COMMIT
  | _ => None
  end%nat.

#[global] Program Instance OstreeObjectType_countable : Countable OstreeObjectType :=
  inj_countable objtype_code objtype_of_code _.
Next Obligation. by intros []. Qed.

(** A serialized object name: the key of the hash tables [objects],
    [commits] and [reachable_objects].  [ostree_object_name_deserialize]
    reads the two components back. *)
Abbreviation ObjectName := (string * OstreeObjectType)%type.

Definition ostree_object_name_serialize (checksum : string) (t : OstreeObjectType)
  : ObjectName := (checksum, t).

Definition ostree_object_name_deserialize (k : ObjectName)
  : string * OstreeObjectType := (fst k, snd k).

(** [GError]: domain, code and message, as filled in by [g_set_error]. *)
Record GError := mkGError {
  error_domain : string;
  error_code : Z;
  error_message : string
}.

#[global] Instance GError_eq_dec : EqDecision GError.
Proof. solve_decision. Defined.

Definition G_IO_ERROR : string := "g-io-error-quark".
Definition G_IO_ERROR_FAILED : Z := 0.

Definition g_set_error (domain : string) (code : Z) (msg : string) : GError :=
  mkGError domain code msg.

(** Result of a call that reports failure through a [GError **]. *)
Inductive res (A : Type) :=
| Ok (a : A)
| Fail (e : GError).
Arguments Ok {A} a.
Arguments Fail {A} e.

(** How a function of the builtin ends: it returns [TRUE] with a value, it
    returns [FALSE] with the error set, a [g_assert] aborts the process, or
    the program does something C gives no meaning to (a pointer is freed
    twice) and nothing can be said of what follows. *)
Inductive outcome (A : Type) :=
| Done (a : A)
| Error (e : GError)
| Aborted (assertion : string)
| Undefined (what : string).
Arguments Done {A} a.
Arguments Error {A} e.
Arguments Aborted {A} assertion.
Arguments Undefined {A} what.

(** The pack index variant, format [(sa{sv}a(uayt))]: a header, a metadata
    dictionary, and the array of [(objtype, checksum bytes, offset)] entries.
    The numbers are the raw [guint32]/[guint64] values that
    [g_variant_iter_loop] hands out, before any byte-order conversion. *)
Record PackIndexEntry := mkPackIndexEntry {
  pie_objtype : Z;
  pie_csum : list Z;
  pie_offset : Z
}.

Record PackIndexVariant := mkPackIndexVariant {
  pi_header : string;
  pi_metadata : list (string * list Z);
  pi_contents : list PackIndexEntry
}.

(** ** Machine integers and byte order *)

(** [guint] arithmetic. *)
Definition wrap32 (z : Z) : Z := z mod 2 ^ 32.

Inductive ByteOrder := G_LITTLE_ENDIAN | G_BIG_ENDIAN.

(** GLib's [GUINT64_SWAP_LE_BE_CONSTANT]: each byte is masked out and
    shifted to the mirrored position. *)
Definition GUINT64_SWAP_LE_BE (v : Z) : Z :=
  Z.lor (Z.shiftl (Z.land v 0x00000000000000ff) 56)
 (Z.lor (Z.shiftl (Z.land v 0x000000000000ff00) 40)
 (Z.lor (Z.shiftl (Z.land v 0x0000000000ff0000) 24)
 (Z.lor (Z.shiftl (Z.land v 0x00000000ff000000) 8)
 (Z.lor (Z.shiftr (Z.land v 0x000000ff00000000) 8)
 (Z.lor (Z.shiftr (Z.land v 0x0000ff0000000000) 24)
 (Z.lor (Z.shiftr (Z.land v 0x00ff000000000000) 40)
        (Z.shiftr (Z.land v 0xff00000000000000) 56))))))).

(** [GUINT64_FROM_BE]: a swap on a little-endian host, nothing on a
    big-endian one. *)

Definition GUINT64_FROM_BE (host : ByteOrder) (v : Z) : Z :=
  match host with
  | G_LITTLE_ENDIAN => GUINT64_SWAP_LE_BE v
  | G_BIG_ENDIAN => v
  end.

(** A byte of a serialized variant. *)
Definition is_byte (b : Z) : Prop := 0 <= b < 256.

(** Reading eight serialized bytes as a [guint64], in either byte order. *)
Fixpoint le_decode (bs : list Z) : Z :=
  match bs with
  | [] => 0
  | b :: bs' => b + 256 * le_decode bs'
  end.

Definition be_decode (bs : list Z) : Z := le_decode (rev bs).

Definition host_decode (host : ByteOrder) (bs : list Z) : Z :=
  match host with
  | G_LITTLE_ENDIAN => le_decode bs
  | G_BIG_ENDIAN => be_decode bs
  end.

(** ** C strings *)

Definition strcmp (a b : string) : Z :=
  match String.compare a b with
  | Eq => 0
  | Lt => -1
  | Gt => 1
  end.

Definition newline : string := String (Ascii.ascii_of_nat 10) EmptyString.

(** [%s], [%u] and [G_GUINT64_FORMAT] conversions of the format strings. *)
Definition fmt_u (z : Z) : string := pretty (Z.to_N z).

(** Modelled from the spec: the flags of [ostree_repo_list_objects] are
    declared in libostree; the specification distinguishes listing all
    objects from listing the loose ones only. *)
Inductive OstreeRepoListObjectsFlags :=
| OSTREE_REPO_LIST_OBJECTS_LOOSE
| OSTREE_REPO_LIST_OBJECTS_ALL.

(** ** The option table

    The static flags [quiet] and [delete], and the [GOptionEntry] table
    that tells the parser where to write them.  Both entries are
    [G_OPTION_ARG_NONE]; an entry is kept with its long name, its short name
    (none for [0]), the flag it points to and its description. *)
Record Globals := mkGlobals {
  quiet : bool;
  delete : bool
}.

Inductive OptionTarget := arg_data_quiet | arg_data_delete.

Record GOptionEntry := mkGOptionEntry {
  long_name : string;
  short_name : option string;
  arg_data : OptionTarget;
  description : string
}.

Definition options : list GOptionEntry :=
  [ mkGOptionEntry "quiet" (Some "q") arg_data_quiet "Don't display informational messages";
    mkGOptionEntry "delete" None arg_data_delete "Remove corrupted objects" ].

(** ** The collaborators of the builtin

    Everything the builtin calls in libostree, otutil, GLib and GIO.  The
    store is assumed not to change during the run, so the calls are
    functions of their arguments; an instance of the class is one state of
    the file system together with the library code.  The class speaks of
    calls that return: a callee that ends the process itself (GLib's option
    parser prints the usage and exits on the help options) leaves no run of
    the builtin to describe.

    [g_option_context_parse entries argv flags] is the call of line 296 on
    the context built from [entries]: the flags as the parser leaves them
    when it returns [TRUE], its error when it returns [FALSE]. *)
Class Collaborators := {
  OstreeRepo : Type;
  GFile : Type;
  GVariant : Type;
  GFileInfo : Type;
  GInputStream : Type;
  G_BYTE_ORDER : ByteOrder;
  (* GLib, GIO *)
  g_option_context_parse : list GOptionEntry -> list string -> Globals -> res Globals;
  g_file_read : GFile -> res GInputStream;
  g_file_input_stream_query_info : GInputStream -> res GFileInfo;
  g_file_info_get_attribute_uint64 : GFileInfo -> string -> Z;
  g_file_info_get_attribute_uint32 : GFileInfo -> string -> Z;
  g_variant_get_data : GVariant -> list Z;
  g_memory_input_stream_new_from_data : list Z -> GInputStream;
  (* otutil *)
  ot_util_variant_map : GFile -> res PackIndexVariant;
  ot_gio_checksum_stream : GInputStream -> res string;
  (* libostree *)
  ostree_repo_new : GFile -> OstreeRepo;
  ostree_repo_check : OstreeRepo -> res unit;
  ostree_repo_list_objects :
    OstreeRepo -> OstreeRepoListObjectsFlags -> res (gset ObjectName);
  ostree_repo_list_pack_indexes : OstreeRepo -> res (list string);
  ostree_repo_get_pack_index_path : OstreeRepo -> string -> GFile;
  ostree_repo_get_pack_data_path : OstreeRepo -> string -> GFile;
  ostree_validate_structureof_pack_index : PackIndexVariant -> res unit;
  ostree_traverse_commit :
    OstreeRepo -> string -> Z -> gset ObjectName -> res (gset ObjectName);
  ostree_repo_load_variant : OstreeRepo -> OstreeObjectType -> string -> res GVariant;
  ostree_validate_structureof_commit : GVariant -> res unit;
  ostree_validate_structureof_dirtree : GVariant -> res unit;
  ostree_validate_structureof_dirmeta : GVariant -> res unit;
  ostree_wrap_metadata_variant : OstreeObjectType -> GVariant -> GVariant;
  ostree_repo_load_file :
    OstreeRepo -> string -> res (GInputStream * GFileInfo * GVariant);
  ostree_validate_structureof_file_mode : Z -> res unit;
  ostree_checksum_file_from_input :
    option GFileInfo -> option GVariant -> GInputStream -> OstreeObjectType -> res string;
  ostree_object_type_to_string : OstreeObjectType -> string
}.

(** ** Events of a run *)

Inductive Event :=
| g_print (s : string)
| call_repo_check
| call_list_objects
| call_traverse_commit (checksum : string)
| call_load_variant (t : OstreeObjectType) (checksum : string)
| call_validate_structureof (t : OstreeObjectType) (checksum : string)
| call_load_file (checksum : string)
| call_validate_file_mode (checksum : string) (mode : Z)
| call_checksum_file_from_input (checksum_objtype : OstreeObjectType) (checksum : string)
| compare_checksum (name : ObjectName) (computed : string)
| call_list_pack_indexes
| call_variant_map (pack : string)
| call_validate_pack_index (pack : string)
| call_file_read (pack : string)
| call_query_info (pack : string)
| call_checksum_stream (pack : string)
| compare_pack_checksum (pack : string) (computed : string)
| compare_pack_offset (pack : string) (offset size : Z).

#[global] Instance Event_eq_dec : EqDecision Event.
Proof. solve_decision. Defined.

(** ** The monad of the builtin: a trace, the [OtFsckData] and an outcome *)

Section Fsck.
Context `{C : Collaborators}.

Record OtFsckData := mkOtFsckData {
  repo : OstreeRepo;
  n_pack_files : Z
}.

Definition M (A : Type) : Type := OtFsckData -> list Event * OtFsckData * outcome A.

Definition ret {A} (a : A) : M A := fun d => ([], d, Done a).

Definition bind {A B} (m : M A) (f : A -> M B) : M B :=
  fun d =>
    match m d with
    | (t1, d1, Done a) =>
        match f a d1 with
        | (t2, d2, r) => (t1 ++ t2, d2, r)
        end
    | (t1, d1, Error e) => (t1, d1, Error e)
    | (t1, d1, Aborted s) => (t1, d1, Aborted s)
    | (t1, d1, Undefined w) => (t1, d1, Undefined w)
    end.

#[global] Instance M_ret : MRet M := @ret.
#[global] Instance M_bind : MBind M := fun A B f m => bind m f.

Definition emit (e : Event) : M unit := fun d => ([e], d, Done tt).
Definition throw {A} (e : GError) : M A := fun d => ([], d, Error e).
Definition abort {A} (s : string) : M A := fun d => ([], d, Aborted s).
Definition undefined {A} (w : string) : M A := fun d => ([], d, Undefined w).
Definition get_data : M OtFsckData := fun d => ([], d, Done d).
Definition put_data (d' : OtFsckData) : M unit := fun _ => ([], d', Done tt).

(** A call to a collaborator: the call is recorded, a failure is the
    [goto out] with the callee's error. *)
Definition call {A} (e : Event) (r : res A) : M A :=
  emit e ;; match r with Ok a => mret a | Fail err => throw err end.

(** [g_assert (cond)] *)
Definition g_assert (cond : bool) (text : string) : M unit :=
  if cond then mret tt else abort text.

(** Loops over an array, a variant iterator or a hash table: the body runs
    on each element in turn, and a [goto out] in the body leaves the loop. *)
Fixpoint for_each {A} (l : list A) (body : A -> M unit) : M unit :=
  match l with
  | [] => mret tt
  | x :: l' => body x ;; for_each l' body
  end.

(** A loop that updates a local while it runs (the pointer
    [pack_content_checksum] of [fsck_pack_files], the table
    [reachable_objects] that [ostree_traverse_commit] fills in). *)
Fixpoint fold_each {A S} (l : list A) (s : S) (body : S -> A -> M S) : M S :=
  match l with
  | [] => mret s
  | x :: l' => s' ← body s x; fold_each l' s' body
  end.

(** ** [fsck_pack_files] *)

(** The body of the [while (g_variant_iter_loop ...)] loop:
    [offset = GUINT64_FROM_BE (offset); if (offset > pack_size) ...]. *)
Definition fsck_pack_offset (checksum : string) (pack_size : Z) (entry : PackIndexEntry)
  : M unit :=
  let offset := GUINT64_FROM_BE G_BYTE_ORDER (pie_offset entry) in
  emit (compare_pack_offset checksum offset pack_size) ;;
  if offset >? pack_size then
    throw (g_set_error G_IO_ERROR G_IO_ERROR_FAILED
             ("corrupted pack '" +:+ checksum +:+ "', offset " +:+ fmt_u offset
              +:+ " larger than file size " +:+ fmt_u pack_size))
  else mret tt.

(** What happens to [pack_content_checksum] when [ot_gio_checksum_stream]
    fails on a pack that follows a hashed one. *)
Definition double_free : string :=
  "g_checksum_free (pack_content_checksum): the checksum is freed twice".

(** The body of the [for] loop over [pack_indexes], for
    [checksum = pack_indexes->pdata[i]].  The variant format passed to
    [ot_util_variant_map] is the type [PackIndexVariant]; the attribute list
    passed to the query and the cancellable (always [NULL]) are left out.

    [pack_content_checksum] is the local of that name as the iteration
    finds it: [None] for [NULL], [Some] for the [GChecksum] of the data file
    hashed last, holding its digest; the iteration returns what it leaves
    there.  Lines 98-99 free the checksum of the previous pack and do not
    reset the pointer.  [ot_gio_checksum_stream] stores into its
    out-parameter when it succeeds and leaves it alone when it fails (the
    convention of GLib and otutil; the function is not part of the
    translated file), so after a failure on a pack that follows a hashed
    one the pointer still holds the freed checksum, which the cleanup at
    [out:] (lines 134-135) frees a second time.  On every other way out the
    cleanup frees a live checksum, or none. *)
Definition fsck_pack_file (pack_content_checksum : option string) (checksum : string)
  : M (option string) :=
  data ← get_data;
  let pack_index_path := ostree_repo_get_pack_index_path (repo data) checksum in
  (* if (!ot_util_variant_map (...)) goto out; *)
  index_variant ← call (call_variant_map checksum) (ot_util_variant_map pack_index_path);
  (* if (!ostree_validate_structureof_pack_index (...)) goto out; *)
  call (call_validate_pack_index checksum)
       (ostree_validate_structureof_pack_index index_variant) ;;
  let pack_data_path := ostree_repo_get_pack_data_path (repo data) checksum in
  (* input = g_file_read (...); if (!input) goto out; *)
  input ← call (call_file_read checksum) (g_file_read pack_data_path);
  (* pack_info = g_file_input_stream_query_info (...); if (!pack_info) goto out; *)
  pack_info ← call (call_query_info checksum) (g_file_input_stream_query_info input);
  let pack_size := g_file_info_get_attribute_uint64 pack_info "standard::size" in
  (* if (pack_content_checksum) g_checksum_free (pack_content_checksum);
     if (!ot_gio_checksum_stream (...)) goto out; *)
  emit (call_checksum_stream checksum) ;;
  digest ← match ot_gio_checksum_stream input with
           | Ok digest => mret digest
           | Fail err =>
               match pack_content_checksum with
               | None => throw err
               | Some _ => undefined double_free
               end
           end;
  emit (compare_pack_checksum checksum digest) ;;
  (* if (strcmp (g_checksum_get_string (pack_content_checksum), checksum) != 0) *)
  (if negb (strcmp digest checksum =? 0) then
     throw (g_set_error G_IO_ERROR G_IO_ERROR_FAILED
              ("corrupted pack '" +:+ checksum +:+ "', expected checksum " +:+ digest))
   else mret tt) ;;
  (* g_variant_get_child (index_variant, 2, "a(uayt)", ...); while (...) *)
  for_each (pi_contents index_variant) (fsck_pack_offset checksum pack_size) ;;
  (* data->n_pack_files++; *)
  data ← get_data;
  put_data (mkOtFsckData (repo data) (wrap32 (n_pack_files data + 1))) ;;
  mret (Some digest).

Definition fsck_pack_files : M unit :=
  data ← get_data;
  (* if (!ostree_repo_list_pack_indexes (...)) goto out; *)
  pack_indexes ← call call_list_pack_indexes (ostree_repo_list_pack_indexes (repo data));
  (* GChecksum *pack_content_checksum = NULL; for (i = 0; i < pack_indexes->len; i++) *)
  fold_each pack_indexes None fsck_pack_file ;;
  mret tt.

(** ** [fsck_reachable_objects_from_commits] *)

Definition ostree_traverse_new_reachable : gset ObjectName := ∅.

(** Body of the first loop, over the keys of [commits]. *)
Definition fsck_traverse_commit (reachable_objects : gset ObjectName) (key : ObjectName)
  : M (gset ObjectName) :=
  let '(checksum, objtype) := ostree_object_name_deserialize key in
  g_assert (bool_decide (objtype = OSTREE_OBJECT_TYPE_COMMIT))
           "objtype == OSTREE_OBJECT_TYPE_COMMIT" ;;
  data ← get_data;
  call (call_traverse_commit checksum)
       (ostree_traverse_commit (repo data) checksum 0 reachable_objects).

(** The tail of the second loop's body, from [ot_clear_checksum] on. *)
Definition fsck_compare_checksum (key : ObjectName)
    (file_info : option GFileInfo) (xattrs : option GVariant) (input : GInputStream)
    (checksum_objtype : OstreeObjectType) : M unit :=
  let '(checksum, objtype) := ostree_object_name_deserialize key in
  computed_checksum ←
    call (call_checksum_file_from_input checksum_objtype checksum)
         (ostree_checksum_file_from_input file_info xattrs input checksum_objtype);
  emit (compare_checksum key computed_checksum) ;;
  if negb (strcmp checksum computed_checksum =? 0) then
    throw (g_set_error G_IO_ERROR G_IO_ERROR_FAILED
             ("corrupted object " +:+ checksum +:+ "."
              +:+ ostree_object_type_to_string objtype
              +:+ "; actual checksum: " +:+ computed_checksum))
  else mret tt.

(** The validation that follows [ostree_repo_load_variant]. *)
Definition fsck_validate_metadata (objtype : OstreeObjectType) (checksum : string)
    (metadata : GVariant) : M unit :=
  if bool_decide (objtype = OSTREE_OBJECT_TYPE_COMMIT) then
    call (call_validate_structureof objtype checksum)
         (ostree_validate_structureof_commit metadata)
  else if bool_decide (objtype = OSTREE_OBJECT_TYPE_DIR_TREE) then
    call (call_validate_structureof objtype checksum)
         (ostree_validate_structureof_dirtree metadata)
  else if bool_decide (objtype = OSTREE_OBJECT_TYPE_DIR_META) then
    call (call_validate_structureof objtype checksum)
         (ostree_validate_structureof_dirmeta metadata)
  else abort "g_assert_not_reached".

(** The branch for commits, directory trees and directory metadata.  At
    the top of each iteration [input], [file_info] and [xattrs] are
    cleared, so the checksum call gets no file info and no xattrs here. *)
Definition fsck_metadata_object (key : ObjectName) : M unit :=
  let '(checksum, objtype) := ostree_object_name_deserialize key in
  data ← get_data;
  let checksum_objtype := objtype in
  metadata ← call (call_load_variant objtype checksum)
                  (ostree_repo_load_variant (repo data) objtype checksum);
  fsck_validate_metadata objtype checksum metadata ;;
  let metadata_wrapped := ostree_wrap_metadata_variant objtype metadata in
  let input := g_memory_input_stream_new_from_data (g_variant_get_data metadata_wrapped) in
  fsck_compare_checksum key None None input checksum_objtype.

(** The branch for raw files and archived file metadata. *)
Definition fsck_file_object (key : ObjectName) : M unit :=
  let '(checksum, objtype) := ostree_object_name_deserialize key in
  data ← get_data;
  '(input, file_info, xattrs) ←
    call (call_load_file checksum) (ostree_repo_load_file (repo data) checksum);
  let checksum_objtype := OSTREE_OBJECT_TYPE_RAW_FILE (* Override *) in
  let mode := g_file_info_get_attribute_uint32 file_info "unix::mode" in
  call (call_validate_file_mode checksum mode)
       (ostree_validate_structureof_file_mode mode) ;;
  fsck_compare_checksum key (Some file_info) (Some xattrs) input checksum_objtype.

(** Body of the second loop, over the keys of [reachable_objects]. *)
Definition fsck_object (key : ObjectName) : M unit :=
  let '(checksum, objtype) := ostree_object_name_deserialize key in
  if bool_decide (objtype = OSTREE_OBJECT_TYPE_COMMIT)
     || bool_decide (objtype = OSTREE_OBJECT_TYPE_DIR_TREE)
     || bool_decide (objtype = OSTREE_OBJECT_TYPE_DIR_META)
  then fsck_metadata_object key
  else if bool_decide (objtype = OSTREE_OBJECT_TYPE_ARCHIVED_FILE_CONTENT) then
    (* Handled via ARCHIVED_FILE_META: continue *)
    mret tt
  else if bool_decide (objtype = OSTREE_OBJECT_TYPE_RAW_FILE)
          || bool_decide (objtype = OSTREE_OBJECT_TYPE_ARCHIVED_FILE_META)
  then fsck_file_object key
  else abort "g_assert_not_reached".

(** The hash tables [commits] and [reachable_objects] are finite sets of
    serialized names; [g_hash_table_iter_next] runs through [elements], an
    order that is fixed for a given table and otherwise unspecified. *)
Definition fsck_reachable_objects_from_commits (commits : gset ObjectName) : M unit :=
  let reachable_objects := ostree_traverse_new_reachable in
  reachable_objects ← fold_each (elements commits) reachable_objects fsck_traverse_commit;
  for_each (elements reachable_objects) fsck_object.

(** ** [ostree_builtin_fsck] *)

(** The loop that fills [commits] from the keys of [objects]. *)
Definition partition_step (commits : gset ObjectName) (key : ObjectName)
  : gset ObjectName :=
  let '(checksum, objtype) := ostree_object_name_deserialize key in
  if bool_decide (objtype = OSTREE_OBJECT_TYPE_COMMIT) then {[ key ]} ∪ commits
  else commits.

Definition partition_commits (objects : gset ObjectName) : gset ObjectName :=
  foldl partition_step ∅ (elements objects).

(** The run after the options are parsed, in the monad of the builtin.
    It starts from the [OtFsckData] that the [memset] and [data.repo = repo]
    produce; nothing reads [data] before those two statements. *)
Definition fsck_run : M unit :=
  data ← get_data;
  call call_repo_check (ostree_repo_check (repo data)) ;;
  emit (g_print ("Enumerating objects..." +:+ newline)) ;;
  objects ← call call_list_objects
                 (ostree_repo_list_objects (repo data) OSTREE_REPO_LIST_OBJECTS_ALL);
  let commits := partition_commits objects in
  emit (g_print ("Verifying content integrity of "
                 +:+ fmt_u (wrap32 (Z.of_nat (size commits)))
                 +:+ " commit objects..." +:+ newline)) ;;
  fsck_reachable_objects_from_commits commits ;;
  emit (g_print ("Verifying structure of pack files..." +:+ newline)) ;;
  fsck_pack_files.

(** What a run leaves behind: the events in order, the static flags, the
    [OtFsckData] (when the run got as far as filling it in) and the outcome. *)
Record Run := mkRun {
  run_trace : list Event;
  run_globals : Globals;
  run_data : option OtFsckData;
  run_outcome : outcome unit
}.

(** [argv] here is the argument vector without the program name.  When the
    parser fails nothing else has run; the flags it may have written before
    it failed are not recorded, the run ends there. *)
Definition ostree_builtin_fsck (argv : list string) (repo_path : GFile) : Run :=
  match g_option_context_parse options argv (mkGlobals false false) with
  | Fail e => mkRun [] (mkGlobals false false) None (Error e)
  | Ok g =>
      let repo := ostree_repo_new repo_path in
      match fsck_run (mkOtFsckData repo 0) with
      | (t, d, r) => mkRun t g (Some d) r
      end
  end.

(** What the builtin itself wrote on the standard output: the strings it
    passed to [g_print], in order. *)
Definition printed (e : Event) : option string :=
  match e with g_print s => Some s | _ => None end.

Definition stdout (r : Run) : list string := omap printed (run_trace r).

End Fsck.

(** ** Reachability traversal

    [ostree_traverse_commit] is declared in libostree and is not part of
    the translated file; only its call in the first loop of
    [fsck_reachable_objects_from_commits] is.  The module below gives it a
    body after section 4.5 of the specification. *)
Module Traverse.

(** Modelled from the spec: the object kinds of section 3 (the declarations
    of libostree are missing), with the links the traversal follows: a
    commit has an optional parent, a root DirTree and a root DirMeta; a
    DirTree lists (name, file checksum) and (name, subdirectory checksum,
    subdirectory metadata checksum) entries; a DirMeta and a file carry
    their POSIX metadata and their extended attributes, as (name, value)
    pairs. *)
Inductive Object :=
| Commit (parent : option string) (root_tree root_meta : string) (subject : string)
         (timestamp : Z)
| DirTree (files : list (string * string)) (dirs : list (string * string * string))
| DirMeta (mode uid gid : Z) (xattrs : list (string * list Z))
| File (mode uid gid : Z) (xattrs : list (string * list Z)) (content : list Z).

Definition no_such_object (n : ObjectName) : GError :=
  g_set_error G_IO_ERROR 1 ("No such metadata object " +:+ fst n).
Definition malformed_object (n : ObjectName) : GError :=
  g_set_error G_IO_ERROR G_IO_ERROR_FAILED ("Malformed object " +:+ fst n).

Definition file_entry (file_type : OstreeObjectType) (e : string * string) : ObjectName :=
  (snd e, file_type).

Definition dir_entry (e : string * string * string) : list ObjectName :=
  [ (snd (fst e), OSTREE_OBJECT_TYPE_DIR_TREE); (snd e, OSTREE_OBJECT_TYPE_DIR_META) ].

(** Modelled from the spec: the objects one object links to, for the
    missing traversal.  A commit links to its root DirMeta and root DirTree
    (not to its parent), a DirTree to its files and to the DirTree/DirMeta
    pair of each subdirectory; a missing or malformed metadata object is the
    load error that aborts the traversal.  File objects are leaves. *)
Definition children (store : gmap ObjectName Object) (file_type : OstreeObjectType)
    (n : ObjectName) : res (list ObjectName) :=
  match snd n with
  | OSTREE_OBJECT_TYPE_COMMIT =>
      match store !! n with
      | Some (Commit _ root_tree root_meta _ _) =>
          Ok [ (root_meta, OSTREE_OBJECT_TYPE_DIR_META);
               (root_tree, OSTREE_OBJECT_TYPE_DIR_TREE) ]
      | Some _ => Fail (malformed_object n)
      | None => Fail (no_such_object n)
      end
  | OSTREE_OBJECT_TYPE_DIR_TREE =>
      match store !! n with
      | Some (DirTree files dirs) =>
          Ok ((file_entry file_type <$> files) ++ (dirs ≫= dir_entry))
      | Some _ => Fail (malformed_object n)
      | None => Fail (no_such_object n)
      end
  | OSTREE_OBJECT_TYPE_DIR_META =>
      match store !! n with
      | Some (DirMeta _ _ _ _) => Ok []
      | Some _ => Fail (malformed_object n)
      | None => Fail (no_such_object n)
      end
  | _ => Ok []
  end.

(** Modelled from the spec: the recursive visit of the missing traversal,
    with the objects still to visit kept on a stack.  Each visited object is
    inserted into the accumulator and an object already present is not
    visited again.  [None] means the step budget ran out. *)
Fixpoint visit (fuel : nat) (store : gmap ObjectName Object) (file_type : OstreeObjectType)
    (stack : list ObjectName) (acc : gset ObjectName) : option (res (gset ObjectName)) :=
  match fuel with
  | O => None
  | S fuel' =>
      match stack with
      | [] => Some (Ok acc)
      | n :: rest =>
          if decide (n ∈ acc) then visit fuel' store file_type rest acc
          else
            match children store file_type n with
            | Fail e => Some (Fail e)
            | Ok cs => visit fuel' store file_type (cs ++ rest) ({[ n ]} ∪ acc)
            end
      end
  end.

Definition children_list (store : gmap ObjectName Object) (file_type : OstreeObjectType)
    (n : ObjectName) : list ObjectName :=
  match children store file_type n with
  | Ok cs => cs
  | Fail _ => []
  end.

(** Every name the traversal of [store] can come across. *)
Definition universe (store : gmap ObjectName Object) (file_type : OstreeObjectType)
  : gset ObjectName :=
  list_to_set (elements (dom store) ≫= fun n => n :: children_list store file_type n).

Definition pending (store : gmap ObjectName Object) (file_type : OstreeObjectType)
    (stack : list ObjectName) (acc : gset ObjectName) : gset ObjectName :=
  (universe store file_type ∪ list_to_set stack) ∖ acc.

Definition weight (store : gmap ObjectName Object) (file_type : OstreeObjectType)
    (n : ObjectName) : nat :=
  S (length (children_list store file_type n)).

(** A number of steps that is always enough (see [visit_enough_fuel]). *)
Definition steps (store : gmap ObjectName Object) (file_type : OstreeObjectType)
    (stack : list ObjectName) (acc : gset ObjectName) : nat :=
  (length stack
   + sum_list_with (weight store file_type) (elements (pending store file_type stack acc)))%nat.

Definition traversal_did_not_finish : GError :=
  g_set_error G_IO_ERROR G_IO_ERROR_FAILED "traversal did not finish".

(** Modelled from the spec: [ostree_traverse_commit], missing from the
    translated file: [traverse_commit(store, checksum, flags, accumulator)]
    of section 4.5, the visit started at the commit.  [file_type] is the
    type under which the store keeps file objects. *)
Definition ostree_traverse_commit (store : gmap ObjectName Object)
    (file_type : OstreeObjectType) (commit_checksum : string) (maxdepth : Z)
    (inout_reachable : gset ObjectName) : res (gset ObjectName) :=
  let root := ostree_object_name_serialize commit_checksum OSTREE_OBJECT_TYPE_COMMIT in
  match visit (S (S (steps store file_type [root] inout_reachable))) store file_type
              [root] inout_reachable with
  | Some r => r
  | None => Fail traversal_did_not_finish
  end.

End Traverse.

(** ** An in-memory store

    A small, executable instance of [Collaborators], used to run the
    builtin on concrete repositories.  None of the collaborators is part of
    the translated file; each one below is a stand-in that follows what the
    specification says of it (sections 4.1 to 4.4), over objects kept in a
    finite map and pack files kept in two maps from paths. *)
Module Mem.
Import Traverse(Object, Commit, DirTree, DirMeta, File).

Record FileInfo := mkFileInfo {
  standard_size : Z;
  unix_mode : Z;
  unix_uid : Z;
  unix_gid : Z
}.

(** An open stream: the bytes it holds, and the error that reading it to
    the end runs into, if any. *)
Record Stream := mkStream {
  s_bytes : list Z;
  s_error : option GError
}.

Definition readable (bytes : list Z) : Stream := mkStream bytes None.

Inductive Variant :=
| VObject (o : Object)
| VWrapped (t : OstreeObjectType) (o : Object)
| VXattrs (xattrs : list (string * list Z)).

Record World := mkWorld {
  w_initialized : bool;
  w_byte_order : ByteOrder;
  w_file_type : OstreeObjectType;
  w_objects : gmap ObjectName Object;
  w_pack_indexes : list string;
  w_index_files : gmap string PackIndexVariant;
  w_data_files : gmap string Stream
}.

Definition bytes_of_string (s : string) : list Z :=
  (fun a => Z.of_nat (Ascii.nat_of_ascii a)) <$> String.list_ascii_of_string s.

(** Modelled from the spec: the digest of the Checksum Engine (section
    4.1), whose algorithm is missing and is "a configuration constant";
    here a rolling hash printed in decimal. *)
Definition digest (bytes : list Z) : string :=
  pretty (Z.to_N (foldl (fun h b => (h * 31 + b + 7) mod 1000003) 17 bytes)).

Definition serialize_file_entry (e : string * string) : list Z :=
  bytes_of_string (fst e) ++ [0] ++ bytes_of_string (snd e) ++ [0].

Definition serialize_dir_entry (e : string * string * string) : list Z :=
  bytes_of_string (fst (fst e)) ++ [0] ++ bytes_of_string (snd (fst e)) ++ [0]
  ++ bytes_of_string (snd e) ++ [0].

(** A 32-bit number as four bytes, most significant first. *)
Definition u32_bytes (z : Z) : list Z :=
  [z / 16777216 mod 256; z / 65536 mod 256; z / 256 mod 256; z mod 256].

Definition serialize_xattr (a : string * list Z) : list Z :=
  bytes_of_string (fst a) ++ [0] ++ u32_bytes (Z.of_nat (length (snd a))) ++ snd a.

Definition serialize_xattrs (xattrs : list (string * list Z)) : list Z :=
  u32_bytes (Z.of_nat (length xattrs)) ++ (xattrs ≫= serialize_xattr).

(** Modelled from the spec: the "canonical encoding of (mode, uid, gid,
    xattrs, content-bytes)" of a file (section 4.1, missing), up to the
    content: the three numbers and the serialized attributes. *)
Definition file_header (mode uid gid : Z) (xattrs_data : list Z) : list Z :=
  u32_bytes uid ++ u32_bytes gid ++ u32_bytes mode ++ xattrs_data.

(** Modelled from the spec: the canonical serialization of an object
    (section 4.2, missing); a fixed, deterministic layout of the fields. *)
Definition serialize (o : Object) : list Z :=
  match o with
  | Commit parent root_tree root_meta subject timestamp =>
      bytes_of_string (default "" parent) ++ [0] ++ bytes_of_string root_tree ++ [0]
      ++ bytes_of_string root_meta ++ [0] ++ bytes_of_string subject ++ [0]
      ++ [timestamp mod 256]
  | DirTree files dirs =>
      (files ≫= serialize_file_entry) ++ [1] ++ (dirs ≫= serialize_dir_entry)
  | DirMeta mode uid gid xattrs =>
      u32_bytes uid ++ u32_bytes gid ++ u32_bytes mode ++ serialize_xattrs xattrs
  | File mode uid gid xattrs content =>
      file_header mode uid gid (serialize_xattrs xattrs) ++ content
  end.

Definition variant_data (v : Variant) : list Z :=
  match v with
  | VObject o => serialize o
  | VWrapped t o => Z.of_nat (objtype_code t) :: serialize o
  | VXattrs xattrs => serialize_xattrs xattrs
  end.

(** The name an object should have: a file is named by the digest of its
    mode, uid, gid, extended attributes and content, a metadata object by
    the digest of its serialized bytes under the tag of its type. *)
Definition checksum_of (t : OstreeObjectType) (o : Object) : string :=
  match o with
  | File mode uid gid xattrs content =>
      digest (file_header mode uid gid (serialize_xattrs xattrs) ++ content)
  | _ => digest (variant_data (VWrapped t o))
  end.

Definition io_error (msg : string) : GError := g_set_error G_IO_ERROR 1 msg.
Definition failed (msg : string) : GError := g_set_error G_IO_ERROR G_IO_ERROR_FAILED msg.

(** Modelled from the spec: [ostree_repo_load_variant] (missing), the
    [load(store, checksum, object_type)] of section 4.2 for metadata. *)
Definition load_variant (w : World) (t : OstreeObjectType) (checksum : string)
  : res Variant :=
  match w_objects w !! (checksum, t) with
  | Some o => Ok (VObject o)
  | None => Fail (io_error ("No such metadata object " +:+ checksum))
  end.

(** Modelled from the spec: [ostree_repo_load_file] (missing): the content
    stream, the file info and the xattrs of a file object. *)
Definition load_file (w : World) (checksum : string)
  : res (Stream * FileInfo * Variant) :=
  match w_objects w !! (checksum, w_file_type w) with
  | Some (File mode uid gid xattrs content) =>
      Ok (readable content, mkFileInfo (Z.of_nat (length content)) mode uid gid,
          VXattrs xattrs)
  | _ => Fail (io_error ("No such file object " +:+ checksum))
  end.

(** Modelled from the spec: the [ostree_validate_structureof_*] functions
    (missing), the [validate_structure(object_type, raw_variant)] of section
    4.2; here the variant has to be of the kind asked for. *)
Definition validate_commit (v : Variant) : res unit :=
  match v with
  | VObject (Commit _ _ _ _ _) => Ok tt
  | _ => Fail (failed "Invalid commit object")
  end.

Definition validate_dirtree (v : Variant) : res unit :=
  match v with
  | VObject (DirTree _ _) => Ok tt
  | _ => Fail (failed "Invalid dirtree object")
  end.

Definition validate_dirmeta (v : Variant) : res unit :=
  match v with
  | VObject (DirMeta _ _ _ _) => Ok tt
  | _ => Fail (failed "Invalid dirmeta object")
  end.

Definition wrap (t : OstreeObjectType) (v : Variant) : Variant :=
  match v with
  | VObject o => VWrapped t o
  | _ => v
  end.

(** Modelled from the spec: [ostree_validate_structureof_file_mode]
    (missing): "valid type bits: regular/symlink", section 3. *)
Definition validate_file_mode (mode : Z) : res unit :=
  if bool_decide (Z.land mode 61440 = 32768) || bool_decide (Z.land mode 61440 = 40960)
  then Ok tt
  else Fail (failed ("Invalid file metadata mode " +:+ fmt_u mode)).

(** Modelled from the spec: [ostree_checksum_file_from_input] (missing),
    the [compute_checksum] of section 4.1: a metadata object (no file info)
    is digested over its serialized bytes, a file over the encoding of its
    mode, uid, gid, extended attributes and content. *)
Definition checksum_file_from_input (file_info : option FileInfo) (xattrs : option Variant)
    (input : Stream) (t : OstreeObjectType) : res string :=
  match s_error input, file_info with
  | Some e, _ => Fail e
  | None, Some fi =>
      Ok (digest (file_header (unix_mode fi) (unix_uid fi) (unix_gid fi)
                    (from_option variant_data [] xattrs) ++ s_bytes input))
  | None, None => Ok (digest (s_bytes input))
  end.

(** Modelled from the spec: [ot_gio_checksum_stream] (missing): the digest
    of everything the stream yields (section 4.1), or the error that stops
    the reading. *)
Definition checksum_stream (input : Stream) : res string :=
  match s_error input with
  | Some e => Fail e
  | None => Ok (digest (s_bytes input))
  end.

(** Modelled from the spec: [ostree_validate_structureof_pack_index]
    (missing), the structural validation of a pack index of section 4.4;
    the check made here is on the header string. *)
Definition validate_pack_index (index : PackIndexVariant) : res unit :=
  if bool_decide (pi_header index = "OSTv0PACKINDEX") then Ok tt
  else Fail (failed "Invalid pack index; doesn't match header").

Definition read_file {A} (files : gmap string A) (path : string) : res A :=
  match files !! path with
  | Some x => Ok x
  | None => Fail (io_error ("Error opening file '" +:+ path +:+ "'"))
  end.

(** *** The option parser

    A stand-in for GLib's [g_option_context_parse], which is not part of
    the translated file, on a table of [G_OPTION_ARG_NONE] entries.  It
    follows GLib's reference manual: [--name] sets the flag of the entry
    with that long name (a value after [=] is ignored for such an entry), a
    group of short flags [-abc] sets the flag of each, [--] ends the
    options, a lone [-] and every argument that does not start with a dash
    are left alone, and any other option is refused with
    [G_OPTION_ERROR_UNKNOWN_OPTION].  The help options ([--help], [-h],
    [-?]), on which GLib prints the usage and exits the process, are
    outside what a function can do: the stand-in refuses them like any
    option that is not in the table, and no run below uses them. *)
Definition G_OPTION_ERROR : string := "g-option-context-error-quark".
Definition G_OPTION_ERROR_UNKNOWN_OPTION : Z := 0.

Definition set_flag (t : OptionTarget) (g : Globals) : Globals :=
  match t with
  | arg_data_quiet => mkGlobals true (delete g)
  | arg_data_delete => mkGlobals (quiet g) true
  end.

Definition unknown_option (arg : string) : GError :=
  g_set_error G_OPTION_ERROR G_OPTION_ERROR_UNKNOWN_OPTION ("Unknown option " +:+ arg).

Definition long_matches (name : string) (e : GOptionEntry) : bool :=
  bool_decide (name = long_name e) || String.prefix (long_name e +:+ "=") name.

Definition short_matches (c : Ascii.ascii) (e : GOptionEntry) : bool :=
  bool_decide (short_name e = Some (String c EmptyString)).

Fixpoint parse_short_options (entries : list GOptionEntry) (arg flags : string)
    (g : Globals) : res Globals :=
  match flags with
  | EmptyString => Ok g
  | String c rest =>
      match List.find (short_matches c) entries with
      | Some e => parse_short_options entries arg rest (set_flag (arg_data e) g)
      | None => Fail (unknown_option arg)
      end
  end.

Fixpoint string_drop (n : nat) (s : string) : string :=
  match n, s with
  | S n', String _ s' => string_drop n' s'
  | _, _ => s
  end.

Fixpoint option_context_parse (entries : list GOptionEntry) (args : list string)
    (g : Globals) : res Globals :=
  match args with
  | [] => Ok g
  | arg :: rest =>
      if bool_decide (arg = "--") then Ok g
      else if String.prefix "--" arg then
        match List.find (long_matches (string_drop 2 arg)) entries with
        | Some e => option_context_parse entries rest (set_flag (arg_data e) g)
        | None => Fail (unknown_option arg)
        end
      else if bool_decide (arg = "-") then option_context_parse entries rest g
      else if String.prefix "-" arg then
        match parse_short_options entries arg (string_drop 1 arg) g with
        | Ok g' => option_context_parse entries rest g'
        | Fail e => Fail e
        end
      else option_context_parse entries rest g
  end.

Definition object_type_to_string (t : OstreeObjectType) : string :=
  match t with
  | OSTREE_OBJECT_TYPE_RAW_FILE => "file"
  | OSTREE_OBJECT_TYPE_ARCHIVED_FILE_CONTENT => "archive-content"
  | OSTREE_OBJECT_TYPE_ARCHIVED_FILE_META => "archive-meta"
  | OSTREE_OBJECT_TYPE_DIR_TREE => "dirtree"
  | OSTREE_OBJECT_TYPE_DIR_META => "dirmeta"
  | OSTREE_OBJECT_TYPE_COMMIT => "commit"
  end.

Definition collaborators (w : World) : Collaborators := {|
  OstreeRepo := string;
  GFile := string;
  GVariant := Variant;
  GFileInfo := FileInfo;
  GInputStream := Stream;
  G_BYTE_ORDER := w_byte_order w;
  g_option_context_parse := option_context_parse;
  g_file_read := read_file (w_data_files w);
  g_file_input_stream_query_info := fun input =>
    Ok (mkFileInfo (Z.of_nat (length (s_bytes input))) 33188 0 0);
  g_file_info_get_attribute_uint64 := fun fi _ => standard_size fi;
  g_file_info_get_attribute_uint32 := fun fi _ => unix_mode fi;
  g_variant_get_data := variant_data;
  g_memory_input_stream_new_from_data := readable;
  ot_util_variant_map := read_file (w_index_files w);
  ot_gio_checksum_stream := checksum_stream;
  ostree_repo_new := fun path => path;
  ostree_repo_check := fun _ =>
    if w_initialized w then Ok tt else Fail (failed "Couldn't find objects directory");
  ostree_repo_list_objects := fun _ _ => Ok (dom (w_objects w));
  ostree_repo_list_pack_indexes := fun _ => Ok (w_pack_indexes w);
  ostree_repo_get_pack_index_path := fun _ c => "objects/pack/ostpack-" +:+ c +:+ ".index";
  ostree_repo_get_pack_data_path := fun _ c => "objects/pack/ostpack-" +:+ c +:+ ".data";
  ostree_validate_structureof_pack_index := validate_pack_index;
  ostree_traverse_commit := fun _ =>
    Traverse.ostree_traverse_commit (w_objects w) (w_file_type w);
  ostree_repo_load_variant := fun _ => load_variant w;
  ostree_validate_structureof_commit := validate_commit;
  ostree_validate_structureof_dirtree := validate_dirtree;
  ostree_validate_structureof_dirmeta := validate_dirmeta;
  ostree_wrap_metadata_variant := wrap;
  ostree_repo_load_file := fun _ => load_file w;
  ostree_validate_structureof_file_mode := validate_file_mode;
  ostree_checksum_file_from_input := checksum_file_from_input;
  ostree_object_type_to_string := object_type_to_string
|}.

(** *** Sample repositories *)

Definition mime_type : list (string * list Z) :=
  [("user.mime_type", bytes_of_string "text/plain")].

Definition hello : Object := File 33188 1000 1000 mime_type (bytes_of_string "hello").
Definition hellx : Object := File 33188 1000 1000 mime_type (bytes_of_string "hellx").
Definition hello_name : ObjectName :=
  (checksum_of OSTREE_OBJECT_TYPE_RAW_FILE hello, OSTREE_OBJECT_TYPE_RAW_FILE).

Definition root_meta : Object := DirMeta 16877 0 0 [].
Definition root_meta_name : ObjectName :=
  (checksum_of OSTREE_OBJECT_TYPE_DIR_META root_meta, OSTREE_OBJECT_TYPE_DIR_META).

Definition root_tree : Object := DirTree [("hello.txt", fst hello_name)] [].
Definition root_tree_name : ObjectName :=
  (checksum_of OSTREE_OBJECT_TYPE_DIR_TREE root_tree, OSTREE_OBJECT_TYPE_DIR_TREE).

Definition commit1 : Object :=
  Commit None (fst root_tree_name) (fst root_meta_name) "initial" 0.
Definition commit1_name : ObjectName :=
  (checksum_of OSTREE_OBJECT_TYPE_COMMIT commit1, OSTREE_OBJECT_TYPE_COMMIT).

Definition bare_world (objects : gmap ObjectName Object) : World :=
  mkWorld true G_LITTLE_ENDIAN OSTREE_OBJECT_TYPE_RAW_FILE objects [] ∅ ∅.

(** One commit, one directory, one file, all named by their checksums. *)
Definition good_objects : gmap ObjectName Object :=
  {[ commit1_name := commit1; root_tree_name := root_tree;
     root_meta_name := root_meta; hello_name := hello ]}.

(** The same with the content of the file altered under its old name. *)
Definition corrupted_objects : gmap ObjectName Object :=
  <[ hello_name := hellx ]> good_objects.

(** No commit at all, and one file stored under a name that is not its
    checksum. *)
Definition orphan_objects : gmap ObjectName Object :=
  {[ hello_name := hellx ]}.

(** *** Sample packs *)

Definition pack_bytes : list Z := bytes_of_string "packdata".
Definition pack_checksum : string := digest pack_bytes.

Definition pack_world (index : PackIndexVariant) (data : list Z) : World :=
  mkWorld true G_LITTLE_ENDIAN OSTREE_OBJECT_TYPE_RAW_FILE ∅ [pack_checksum]
    {[ "objects/pack/ostpack-" +:+ pack_checksum +:+ ".index" := index ]}
    {[ "objects/pack/ostpack-" +:+ pack_checksum +:+ ".data" := readable data ]}.

(** Index entries store their offsets big-endian ([GUINT64_TO_BE]). *)
Definition entry_at (offset : Z) : PackIndexEntry :=
  mkPackIndexEntry 1 [] (GUINT64_SWAP_LE_BE offset).

Definition good_index : PackIndexVariant :=
  mkPackIndexVariant "OSTv0PACKINDEX" [] [entry_at 0; entry_at 4; entry_at 8].

(** Offsets in range, but a header the structure validation refuses. *)
Definition bad_header_index : PackIndexVariant :=
  mkPackIndexVariant "bogus" [] [entry_at 0; entry_at 4].

(** The second entry lies beyond the eight bytes of the data file. *)
Definition bad_offset_index : PackIndexVariant :=
  mkPackIndexVariant "OSTv0PACKINDEX" [] [entry_at 0; entry_at 9; entry_at 4].

Definition good_pack_world : World := pack_world good_index pack_bytes.
Definition bad_header_world : World := pack_world bad_header_index pack_bytes.
Definition bad_offset_world : World := pack_world bad_offset_index pack_bytes.
Definition bad_digest_world : World :=
  pack_world good_index (bytes_of_string "packdatb").

End Mem.

(** ** Properties of a run: vocabulary *)

Section Vocabulary.
Context `{C : Collaborators}.

(** The three components of what a computation of [M] returns. *)
Definition trace_of {A} (r : list Event * OtFsckData * outcome A) : list Event := r.1.1.
Definition data_of {A} (r : list Event * OtFsckData * outcome A) : OtFsckData := r.1.2.
Definition outcome_of {A} (r : list Event * OtFsckData * outcome A) : outcome A := r.2.

(** *** Pack files *)

(** The test of the inner loop of [fsck_pack_files], passed. *)
Definition offset_in_range (pack_size : Z) (e : PackIndexEntry) : Prop :=
  GUINT64_FROM_BE G_BYTE_ORDER (pie_offset e) <= pack_size.

(** The files of the pack named [checksum] could be read: the index was
    mapped and passed the structure validation, the data file was opened,
    its size is [pack_size] and its content hashed to [digest]. *)
Definition pack_loads (r : OstreeRepo) (checksum : string)
    (index : PackIndexVariant) (pack_size : Z) (digest : string) : Prop :=
  exists input info,
    ot_util_variant_map (ostree_repo_get_pack_index_path r checksum) = Ok index /\
    ostree_validate_structureof_pack_index index = Ok tt /\
    g_file_read (ostree_repo_get_pack_data_path r checksum) = Ok input /\
    g_file_input_stream_query_info input = Ok info /\
    pack_size = g_file_info_get_attribute_uint64 info "standard::size" /\
    ot_gio_checksum_stream input = Ok digest.

(** The pack passes every test of one iteration of the outer loop. *)
Definition pack_verifies (r : OstreeRepo) (checksum : string) : Prop :=
  exists index pack_size digest,
    pack_loads r checksum index pack_size digest /\
    digest = checksum /\
    Forall (offset_in_range pack_size) (pi_contents index).

(** The two errors [fsck_pack_files] sets itself. *)
Definition corrupted_pack_checksum (checksum digest : string) : GError :=
  g_set_error G_IO_ERROR G_IO_ERROR_FAILED
    ("corrupted pack '" +:+ checksum +:+ "', expected checksum " +:+ digest).

Definition corrupted_pack_offset (checksum : string) (offset pack_size : Z) : GError :=
  g_set_error G_IO_ERROR G_IO_ERROR_FAILED
    ("corrupted pack '" +:+ checksum +:+ "', offset " +:+ fmt_u offset
     +:+ " larger than file size " +:+ fmt_u pack_size).

(** The files of the pack named [checksum] could be read up to the hash
    of the data file, which failed. *)
Definition pack_hash_fails (r : OstreeRepo) (checksum : string) : Prop :=
  exists index input info e,
    ot_util_variant_map (ostree_repo_get_pack_index_path r checksum) = Ok index /\
    ostree_validate_structureof_pack_index index = Ok tt /\
    g_file_read (ostree_repo_get_pack_data_path r checksum) = Ok input /\
    g_file_input_stream_query_info input = Ok info /\
    ot_gio_checksum_stream input = Fail e.

(** What a computation returns to a caller that drops its value. *)
Definition returns {A} (o : outcome A) : outcome unit :=
  match o with
  | Done _ => Done tt
  | Error e => Error e
  | Aborted s => Aborted s
  | Undefined w => Undefined w
  end.

(** What one iteration of the loop over the packs does, entered with
    [pack_content_checksum] at [prev]: the pack verifies and is counted; or
    it does not and the iteration leaves with an error; or its data file
    cannot be hashed after an earlier one was, and the checksum of the
    earlier one is freed twice. *)
Inductive pack_step (d : OtFsckData) (prev : option string) (checksum : string)
  : OtFsckData -> outcome (option string) -> Prop :=
| pack_step_ok :
    pack_verifies (repo d) checksum ->
    pack_step d prev checksum (mkOtFsckData (repo d) (wrap32 (n_pack_files d + 1)))
              (Done (Some checksum))
| pack_step_fail e :
    ~ pack_verifies (repo d) checksum ->
    prev = None \/ ~ pack_hash_fails (repo d) checksum ->
    pack_step d prev checksum d (Error e)
| pack_step_double_free :
    prev <> None ->
    pack_hash_fails (repo d) checksum ->
    pack_step d prev checksum d (Undefined double_free).

(** [n_pack_files] after [k] executions of [data->n_pack_files++]. *)
Definition bump (k : nat) (d : OtFsckData) : OtFsckData :=
  mkOtFsckData (repo d) (Nat.iter k (fun n => wrap32 (n + 1)) (n_pack_files d)).

(** What the loop over [pack_indexes] does, entered with
    [pack_content_checksum] at [prev]: either every pack verifies and the
    counter went up once per pack, or the loop stopped at the first pack
    that does not verify, with the counter at the number of packs before
    it.  It then leaves with the error that pack gives when checked on its
    own, unless the data file of that pack cannot be hashed after an earlier
    one was. *)
Inductive packs_run (d : OtFsckData) (prev : option string)
  : list string -> OtFsckData -> outcome unit -> Prop :=
| packs_run_done packs :
    Forall (pack_verifies (repo d)) packs ->
    packs_run d prev packs (bump (length packs) d) (Done tt)
| packs_run_stop pre c post e :
    Forall (pack_verifies (repo d)) pre ->
    ~ pack_verifies (repo d) c ->
    (prev = None /\ pre = []) \/ ~ pack_hash_fails (repo d) c ->
    outcome_of (fsck_pack_file None c d) = Error e ->
    packs_run d prev (pre ++ c :: post) (bump (length pre) d) (Error e)
| packs_run_double_free pre c post :
    Forall (pack_verifies (repo d)) pre ->
    prev <> None \/ pre <> [] ->
    pack_hash_fails (repo d) c ->
    packs_run d prev (pre ++ c :: post) (bump (length pre) d) (Undefined double_free).

(** The two conditions of the specification's [verify_pack], read on
    their own: (a) the data file hashes to the name of the pack, (b) the
    offsets of the index lie within the size of the data file. *)
Definition content_checksum_matches (r : OstreeRepo) (checksum : string) : Prop :=
  exists input digest,
    g_file_read (ostree_repo_get_pack_data_path r checksum) = Ok input /\
    ot_gio_checksum_stream input = Ok digest /\
    digest = checksum.

Definition index_offsets_within_size (r : OstreeRepo) (checksum : string) : Prop :=
  exists index input info,
    ot_util_variant_map (ostree_repo_get_pack_index_path r checksum) = Ok index /\
    g_file_read (ostree_repo_get_pack_data_path r checksum) = Ok input /\
    g_file_input_stream_query_info input = Ok info /\
    Forall (offset_in_range (g_file_info_get_attribute_uint64 info "standard::size"))
           (pi_contents index).

(** The specification's account of pack verification: it succeeds exactly
    when (a) and (b) hold of every listed pack. *)
Definition pack_check_iff_checksum_and_offsets (d : OtFsckData) : Prop :=
  forall packs,
    ostree_repo_list_pack_indexes (repo d) = Ok packs ->
    (outcome_of (fsck_pack_files d) = Done tt <->
     forall c, c ∈ packs ->
       content_checksum_matches (repo d) c /\ index_offsets_within_size (repo d) c).

(** *** Objects of the reachable set *)

(** The error [fsck_reachable_objects_from_commits] sets itself. *)
Definition corrupted_object (key : ObjectName) (computed : string) : GError :=
  g_set_error G_IO_ERROR G_IO_ERROR_FAILED
    ("corrupted object " +:+ fst key +:+ "." +:+ ostree_object_type_to_string (snd key)
     +:+ "; actual checksum: " +:+ computed).

(** The tests of the two branches of the second loop. *)
Definition is_metadata (t : OstreeObjectType) : bool :=
  bool_decide (t = OSTREE_OBJECT_TYPE_COMMIT)
  || bool_decide (t = OSTREE_OBJECT_TYPE_DIR_TREE)
  || bool_decide (t = OSTREE_OBJECT_TYPE_DIR_META).

Definition is_file (t : OstreeObjectType) : bool :=
  bool_decide (t = OSTREE_OBJECT_TYPE_RAW_FILE)
  || bool_decide (t = OSTREE_OBJECT_TYPE_ARCHIVED_FILE_META).

(** The structure validation that goes with a metadata type. *)
Definition validate_structureof (t : OstreeObjectType) (metadata : GVariant) : res unit :=
  match t with
  | OSTREE_OBJECT_TYPE_COMMIT => ostree_validate_structureof_commit metadata
  | OSTREE_OBJECT_TYPE_DIR_TREE => ostree_validate_structureof_dirtree metadata
  | _ => ostree_validate_structureof_dirmeta metadata
  end.

(** [recomputes r key computed t]: the object named [key] loads, passes
    the structure validation of its type, and its checksum, computed
    again, is [computed]; [t] lists the calls made for it. *)
Inductive recomputes (r : OstreeRepo) : ObjectName -> string -> list Event -> Prop :=
| recomputes_metadata checksum objtype metadata computed :
    is_metadata objtype = true ->
    ostree_repo_load_variant r objtype checksum = Ok metadata ->
    validate_structureof objtype metadata = Ok tt ->
    ostree_checksum_file_from_input None None
      (g_memory_input_stream_new_from_data
         (g_variant_get_data (ostree_wrap_metadata_variant objtype metadata)))
      objtype = Ok computed ->
    recomputes r (checksum, objtype) computed
      [ call_load_variant objtype checksum;
        call_validate_structureof objtype checksum;
        call_checksum_file_from_input objtype checksum ]
| recomputes_file checksum objtype input file_info xattrs computed :
    is_file objtype = true ->
    ostree_repo_load_file r checksum = Ok (input, file_info, xattrs) ->
    ostree_validate_structureof_file_mode
      (g_file_info_get_attribute_uint32 file_info "unix::mode") = Ok tt ->
    ostree_checksum_file_from_input (Some file_info) (Some xattrs) input
      OSTREE_OBJECT_TYPE_RAW_FILE = Ok computed ->
    recomputes r (checksum, objtype) computed
      [ call_load_file checksum;
        call_validate_file_mode checksum
          (g_file_info_get_attribute_uint32 file_info "unix::mode");
        call_checksum_file_from_input OSTREE_OBJECT_TYPE_RAW_FILE checksum ].

(** The events the second loop can emit for the object named [key]. *)
Definition event_about (key : ObjectName) (e : Event) : Prop :=
  match e with
  | call_load_variant t c => (c, t) = key
  | call_validate_structureof t c => (c, t) = key
  | call_load_file c => c = fst key
  | call_validate_file_mode c _ => c = fst key
  | call_checksum_file_from_input _ c => c = fst key
  | compare_checksum k _ => k = key
  | _ => False
  end.

(** What one iteration of the second loop does with [key]. *)
Inductive object_step (r : OstreeRepo) (key : ObjectName)
  : list Event -> outcome unit -> Prop :=
| object_skipped :
    snd key = OSTREE_OBJECT_TYPE_ARCHIVED_FILE_CONTENT ->
    object_step r key [] (Done tt)
| object_verified t :
    recomputes r key (fst key) t ->
    object_step r key (t ++ [compare_checksum key (fst key)]) (Done tt)
| object_corrupted t computed :
    recomputes r key computed t ->
    computed <> fst key ->
    object_step r key (t ++ [compare_checksum key computed])
                (Error (corrupted_object key computed))
| object_unreadable t e :
    (forall computed t', ~ recomputes r key computed t') ->
    Forall (event_about key) t ->
    Forall (fun ev => forall k computed, ev <> compare_checksum k computed) t ->
    object_step r key t (Error e).

(** The first loop as a function: every commit is traversed into the one
    table, in the order of the keys. *)
Fixpoint traverse_commits (r : OstreeRepo) (keys : list ObjectName)
    (acc : gset ObjectName) : res (gset ObjectName) :=
  match keys with
  | [] => Ok acc
  | key :: keys' =>
      match ostree_traverse_commit r (fst key) 0 acc with
      | Ok acc' => traverse_commits r keys' acc'
      | Fail e => Fail e
      end
  end.

(** What the second loop does: every object passes, or the loop stops at
    the first one that does not. *)
Inductive objects_run (r : OstreeRepo) : list ObjectName -> list Event -> outcome unit -> Prop :=
| objects_run_done keys ts :
    Forall2 (fun key t => object_step r key t (Done tt)) keys ts ->
    objects_run r keys (concat ts) (Done tt)
| objects_run_stop pre ts key t e post :
    Forall2 (fun key t => object_step r key t (Done tt)) pre ts ->
    object_step r key t (Error e) ->
    objects_run r (pre ++ key :: post) (concat ts ++ t) (Error e).

(** The kinds of events, by the part of the run that emits them. *)
Definition is_traverse_call (e : Event) : Prop :=
  match e with call_traverse_commit _ => True | _ => False end.

(** *** The run as a whole *)

(** The three status lines. *)
Definition status_enumerating : string := "Enumerating objects..." +:+ newline.
Definition status_content (commits : gset ObjectName) : string :=
  "Verifying content integrity of " +:+ fmt_u (wrap32 (Z.of_nat (size commits)))
  +:+ " commit objects..." +:+ newline.
Definition status_packs : string := "Verifying structure of pack files..." +:+ newline.


(** The [OtFsckData] of [ostree_builtin_fsck] after the [memset]. *)
Definition initial_data (repo_path : GFile) : OtFsckData :=
  mkOtFsckData (ostree_repo_new repo_path) 0.

(** The statement that a successful run compared the checksum of every
    enumerated object. *)
Definition success_checks_every_enumerated_object (argv : list string) (repo_path : GFile)
  : Prop :=
  run_outcome (ostree_builtin_fsck argv repo_path) = Done tt ->
  forall objects key,
    ostree_repo_list_objects (ostree_repo_new repo_path) OSTREE_REPO_LIST_OBJECTS_ALL
    = Ok objects ->
    key ∈ objects ->
    exists computed,
      compare_checksum key computed ∈ run_trace (ostree_builtin_fsck argv repo_path).

Definition object_event (e : Event) : Prop :=
  match e with
  | call_load_variant _ _ | call_validate_structureof _ _ | call_load_file _
  | call_validate_file_mode _ _ | call_checksum_file_from_input _ _
  | compare_checksum _ _ => True
  | _ => False
  end.

Definition pack_event (e : Event) : Prop :=
  match e with
  | call_list_pack_indexes | call_variant_map _ | call_validate_pack_index _
  | call_file_read _ | call_query_info _ | call_checksum_stream _
  | compare_pack_checksum _ _ | compare_pack_offset _ _ _ => True
  | _ => False
  end.

(** The run of [fsck_object] on a file object, written out. *)
Definition file_object_run (checksum : string) (objtype : OstreeObjectType) (d : OtFsckData)
  : list Event * OtFsckData * outcome unit :=
  match ostree_repo_load_file (repo d) checksum with
  | Fail e => ([call_load_file checksum], d, Error e)
  | Ok (input, file_info, xattrs) =>
      let mode := g_file_info_get_attribute_uint32 file_info "unix::mode" in
      match ostree_validate_structureof_file_mode mode with
      | Fail e => ([call_load_file checksum; call_validate_file_mode checksum mode], d, Error e)
      | Ok _ =>
          match ostree_checksum_file_from_input (Some file_info) (Some xattrs) input
                  OSTREE_OBJECT_TYPE_RAW_FILE with
          | Fail e =>
              ([call_load_file checksum; call_validate_file_mode checksum mode;
                call_checksum_file_from_input OSTREE_OBJECT_TYPE_RAW_FILE checksum],
               d, Error e)
          | Ok computed =>
              ([call_load_file checksum; call_validate_file_mode checksum mode;
                call_checksum_file_from_input OSTREE_OBJECT_TYPE_RAW_FILE checksum;
                compare_checksum (checksum, objtype) computed],
               d,
               if bool_decide (computed = checksum) then Done tt
               else Error (corrupted_object (checksum, objtype) computed))
          end
      end
  end.

End Vocabulary.

(** ** The sample repositories as collaborators *)

Module Samples.
Import Mem.

(** The data after the [memset], in a given world. *)
Definition start (w : World) : @OtFsckData (collaborators w) :=
  @initial_data (collaborators w) "repo".

Definition good : Collaborators := collaborators (bare_world good_objects).
Definition corrupted : Collaborators := collaborators (bare_world corrupted_objects).
Definition orphan : Collaborators := collaborators (bare_world orphan_objects).

Definition all_four : gset ObjectName :=
  list_to_set [commit1_name; root_meta_name; hello_name; root_tree_name].

End Samples.

(** ** Reading a trace *)

(** The commits handed to [ostree_traverse_commit], in the order of the
    calls. *)
Definition traversed (t : list Event) : list string :=
  omap (fun e => match e with call_traverse_commit c => Some c | _ => None end) t.

(** The names whose checksum was compared with the one computed again, in
    the order of the comparisons. *)
Definition compared (t : list Event) : list ObjectName :=
  omap (fun e => match e with compare_checksum k _ => Some k | _ => None end) t.

(** The pack a call of [fsck_pack_files] is about. *)
Definition pack_of (e : Event) : option string :=
  match e with
  | call_variant_map c | call_validate_pack_index c | call_file_read c
  | call_query_info c | call_checksum_stream c
  | compare_pack_checksum c _ | compare_pack_offset c _ _ => Some c
  | _ => None
  end.

Section RunVocabulary.
Context `{C : Collaborators}.

(** The events of [ostree_builtin_fsck] up to the second status line. *)
Definition run_head (commits : gset ObjectName) : list Event :=
  [call_repo_check; g_print status_enumerating; call_list_objects;
   g_print (status_content commits)].

(** The calls of the first loop of [fsck_reachable_objects_from_commits]
    when no traversal fails. *)
Definition traverse_calls (keys : list ObjectName) : list Event :=
  (fun key => call_traverse_commit (fst key)) <$> keys.

(** The events the second loop emits for [key], with the branch that emits
    them: the metadata branch loads and validates a variant of the type of
    the key, the file branch loads a file and validates its mode, and no
    branch does anything for an [ARCHIVED_FILE_CONTENT] key. *)
Definition event_of_object (key : ObjectName) (e : Event) : Prop :=
  match e with
  | call_load_variant t c | call_validate_structureof t c =>
      (c, t) = key /\ is_metadata t = true
  | call_load_file c | call_validate_file_mode c _ =>
      c = fst key /\ is_file (snd key) = true
  | call_checksum_file_from_input t c =>
      c = fst key /\
      t = (if is_file (snd key) then OSTREE_OBJECT_TYPE_RAW_FILE else snd key) /\
      snd key <> OSTREE_OBJECT_TYPE_ARCHIVED_FILE_CONTENT
  | compare_checksum k _ =>
      k = key /\ snd key <> OSTREE_OBJECT_TYPE_ARCHIVED_FILE_CONTENT
  | _ => False
  end.

(** What [fsck_reachable_objects_from_commits] is allowed to touch when the
    traversals gave [reachable]: it loads and compares members of
    [reachable] only. *)
Definition within_reachable (reachable : gset ObjectName) (e : Event) : Prop :=
  match e with
  | call_load_variant t c | call_validate_structureof t c =>
      (c, t) ∈ reachable /\ is_metadata t = true
  | call_load_file c | call_validate_file_mode c _ | call_checksum_file_from_input _ c =>
      exists t, (c, t) ∈ reachable /\ t <> OSTREE_OBJECT_TYPE_ARCHIVED_FILE_CONTENT
  | compare_checksum k _ =>
      k ∈ reachable /\ snd k <> OSTREE_OBJECT_TYPE_ARCHIVED_FILE_CONTENT
  | _ => True
  end.

(** What [fsck_pack_files] must have seen before it makes a call about the
    pack [c]: the data file is opened only once the index was mapped and
    validated, and an offset is only looked at once the data file hashed to
    the name of the pack. *)
Definition pack_call_justified (r : OstreeRepo) (e : Event) : Prop :=
  match e with
  | call_file_read c | call_query_info c | call_checksum_stream c
  | compare_pack_checksum c _ =>
      exists index,
        ot_util_variant_map (ostree_repo_get_pack_index_path r c) = Ok index /\
        ostree_validate_structureof_pack_index index = Ok tt
  | compare_pack_offset c offset size =>
      exists index entry,
        pack_loads r c index size c /\
        entry ∈ pi_contents index /\
        offset = GUINT64_FROM_BE G_BYTE_ORDER (pie_offset entry)
  | _ => True
  end.

End RunVocabulary.

(** ** More sample repositories: missing objects, several packs *)

Module EdgeSamples.
Import Mem.

(** A commit whose root directory objects are missing. *)
Definition dangling_objects : gmap ObjectName Traverse.Object :=
  {[ commit1_name := commit1 ]}.
Definition dangling : Collaborators := collaborators (bare_world dangling_objects).

(** The repository of [good_objects] without its file object, which the
    root directory still lists. *)
Definition missing_file_objects : gmap ObjectName Traverse.Object :=
  base.delete hello_name good_objects.
Definition missing_file : Collaborators := collaborators (bare_world missing_file_objects).

(** Three packs are listed: the first is intact, the other two have no
    file at all. *)
Definition three_packs_world : World :=
  mkWorld true G_LITTLE_ENDIAN OSTREE_OBJECT_TYPE_RAW_FILE ∅
    [pack_checksum; "absent"; "later"]
    {[ "objects/pack/ostpack-" +:+ pack_checksum +:+ ".index" := good_index ]}
    {[ "objects/pack/ostpack-" +:+ pack_checksum +:+ ".data" := readable pack_bytes ]}.

(** The objects of [good_objects] and, outside every commit, a file stored
    under a name that is not its checksum. *)
Definition stray_name : ObjectName := ("stray", OSTREE_OBJECT_TYPE_RAW_FILE).
Definition stray_objects : gmap ObjectName Traverse.Object :=
  <[ stray_name := hellx ]> good_objects.
Definition stray : Collaborators := collaborators (bare_world stray_objects).

(** Two packs with intact indexes.  The data file of the pack named
    ["torn"] opens and has a size, but reading it to the end fails. *)
Definition torn_stream : Stream :=
  mkStream pack_bytes (Some (io_error "Input/output error")).

Definition torn_pack_world (packs : list string) : World :=
  mkWorld true G_LITTLE_ENDIAN OSTREE_OBJECT_TYPE_RAW_FILE ∅ packs
    {[ "objects/pack/ostpack-" +:+ pack_checksum +:+ ".index" := good_index;
       "objects/pack/ostpack-torn.index" := good_index ]}
    {[ "objects/pack/ostpack-" +:+ pack_checksum +:+ ".data" := readable pack_bytes;
       "objects/pack/ostpack-torn.data" := torn_stream ]}.

(** The torn pack listed after the intact one, and before it. *)
Definition torn_second_world : World := torn_pack_world [pack_checksum; "torn"].
Definition torn_first_world : World := torn_pack_world ["torn"; pack_checksum].

(** An empty repository on a big-endian host. *)
Definition big_endian_world : World :=
  mkWorld true G_BIG_ENDIAN OSTREE_OBJECT_TYPE_RAW_FILE ∅ [] ∅ ∅.

(** The eight bytes an index stores for the offset 9. *)
Definition offset_9_bytes : list Z := [0; 0; 0; 0; 0; 0; 0; 9].

End EdgeSamples.

(** ** Proofs *)

(** Closed goals are settled by evaluation. *)
Ltac vm_refl :=
  lazymatch goal with |- ?a = ?b => vm_cast_no_check (@eq_refl _ b) end.
Ltac vm_decide :=
  lazymatch goal with |- ?P => apply (bool_decide_unpack P); vm_cast_no_check I end.
Ltac same_calls :=
  repeat match goal with
  | H1 : ?f = Ok ?a, H2 : ?f = Ok ?b |- _ =>
      rewrite H1 in H2; simplify_eq
  | H1 : ?f = Ok _, H2 : ?f = Fail _ |- _ => rewrite H1 in H2; discriminate H2
  end.

Ltac unfold_M :=
  unfold mbind, M_bind, bind, mret, M_ret, ret, call, emit, throw, abort, undefined,
    get_data, put_data, g_assert.

(** *** Byte order *)

Lemma byte_high_bits b k : is_byte b -> 8 <= k -> Z.testbit b k = false.
Proof.
  intros [Hlo Hhi] Hk. destruct (Z.eq_dec b 0) as [->|Hne]; [apply Z.bits_0|].
  apply Z.bits_above_log2; [lia|].
  assert (Z.log2 b < 8); [|lia]. apply Z.log2_lt_pow2; lia.
Qed.

Lemma byte_cons_lor b x : is_byte b -> b + 256 * x = Z.lor b (Z.shiftl x 8).
Proof.
  intros Hb. rewrite Z.shiftl_mul_pow2 by lia.
  replace (256 * x) with (x * 2 ^ 8) by lia.
  assert (Z.land b (x * 2 ^ 8) = 0) as Hdisj.
  { apply Z.bits_inj'. intros n Hn. rewrite Z.land_spec, Z.bits_0.
    destruct (Z.lt_ge_cases n 8).
    - rewrite Z.mul_pow2_bits_low by lia. apply andb_false_r.
    - by rewrite byte_high_bits. }
  by rewrite <- Z.lxor_lor, <- Z.add_nocarry_lxor.
Qed.

Lemma shiftl_bits a k m : 0 <= k -> Z.testbit (Z.shiftl a k) m = Z.testbit a (m - k).
Proof.
  intros Hk. destruct (Z.lt_ge_cases m 0).
  - by rewrite !Z.testbit_neg_r by lia.
  - by apply Z.shiftl_spec.
Qed.

(** The bits of eight bytes read in little-endian order. *)
Lemma le_decode_bits b0 b1 b2 b3 b4 b5 b6 b7 n :
  Forall is_byte [b0; b1; b2; b3; b4; b5; b6; b7] ->
  0 <= n ->
  Z.testbit (le_decode [b0; b1; b2; b3; b4; b5; b6; b7]) n =
  Z.testbit b0 n || Z.testbit b1 (n - 8) || Z.testbit b2 (n - 16) || Z.testbit b3 (n - 24)
  || Z.testbit b4 (n - 32) || Z.testbit b5 (n - 40) || Z.testbit b6 (n - 48)
  || Z.testbit b7 (n - 56).
Proof.
  intros Hb Hn. repeat (apply Forall_cons in Hb as [? Hb]).
  cbn [le_decode]. rewrite Z.mul_0_r, Z.add_0_r.
  rewrite !byte_cons_lor by done.
  repeat (rewrite ?Z.lor_spec, ?shiftl_bits by lia).
  replace (n - 8 - 8) with (n - 16) by lia.
  replace (n - 16 - 8) with (n - 24) by lia.
  replace (n - 24 - 8) with (n - 32) by lia.
  replace (n - 32 - 8) with (n - 40) by lia.
  replace (n - 40 - 8) with (n - 48) by lia.
  replace (n - 48 - 8) with (n - 56) by lia.
  by rewrite !orb_assoc.
Qed.

Lemma bits_255 m : Z.testbit 255 m = (0 <=? m) && (m <? 8).
Proof.
  change 255 with (Z.ones 8). destruct (Z.lt_ge_cases m 0).
  - rewrite Z.testbit_neg_r by lia. by rewrite (proj2 (Z.leb_gt 0 m)) by lia.
  - rewrite Z.testbit_ones_nonneg by lia. by rewrite (proj2 (Z.leb_le 0 m)) by lia.
Qed.

Ltac decide_ranges :=
  repeat match goal with
  | |- context [?a <=? ?b] =>
      first [ rewrite (proj2 (Z.leb_le a b)) by lia | rewrite (proj2 (Z.leb_gt a b)) by lia ]
  | |- context [?a <? ?b] =>
      first [ rewrite (proj2 (Z.ltb_lt a b)) by lia | rewrite (proj2 (Z.ltb_ge a b)) by lia ]
  end.

Ltac drop_absent_bits :=
  repeat match goal with
  | |- context [Z.testbit ?b ?k] =>
      first [ rewrite (Z.testbit_neg_r b k) by lia
            | rewrite (byte_high_bits b k) by (first [assumption | lia]) ]
  end.

(** [GUINT64_SWAP_LE_BE] turns the little-endian reading of eight bytes
    into their big-endian reading. *)
Lemma GUINT64_SWAP_LE_BE_bytes b0 b1 b2 b3 b4 b5 b6 b7 :
  Forall is_byte [b0; b1; b2; b3; b4; b5; b6; b7] ->
  GUINT64_SWAP_LE_BE (le_decode [b0; b1; b2; b3; b4; b5; b6; b7])
  = le_decode [b7; b6; b5; b4; b3; b2; b1; b0].
Proof.
  intros Hb. pose proof Hb as Hb0.
  assert (Forall is_byte [b7; b6; b5; b4; b3; b2; b1; b0]) as Hb'.
  { repeat (apply Forall_cons in Hb as [? Hb]). repeat (constructor; [assumption|]).
    constructor. }
  apply Z.bits_inj'. intros n Hn. unfold GUINT64_SWAP_LE_BE.
  change 0xff00 with (Z.shiftl 255 8). change 0xff0000 with (Z.shiftl 255 16).
  change 0xff000000 with (Z.shiftl 255 24). change 0xff00000000 with (Z.shiftl 255 32).
  change 0xff0000000000 with (Z.shiftl 255 40).
  change 0xff000000000000 with (Z.shiftl 255 48).
  change 0xff00000000000000 with (Z.shiftl 255 56).
  repeat (rewrite ?Z.lor_spec, ?Z.land_spec, ?shiftl_bits, ?Z.shiftr_spec by lia).
  rewrite !bits_255.
  rewrite (le_decode_bits b7 b6 b5 b4 b3 b2 b1 b0) by done.
  pose proof Hb0 as Hbytes. repeat (apply Forall_cons in Hbytes as [? Hbytes]).
  assert (n < 8 \/ 8 <= n < 16 \/ 16 <= n < 24 \/ 24 <= n < 32 \/ 32 <= n < 40
          \/ 40 <= n < 48 \/ 48 <= n < 56 \/ 56 <= n < 64 \/ 64 <= n) as Hcases by lia.
  destruct Hcases as [?|[?|[?|[?|[?|[?|[?|[?|?]]]]]]]];
    decide_ranges; rewrite ?andb_false_r, ?andb_true_r, ?orb_false_r, ?orb_false_l;
    rewrite ?(le_decode_bits b0 b1 b2 b3 b4 b5 b6 b7) by (done || lia);
    drop_absent_bits; rewrite ?orb_false_r, ?orb_false_l; try reflexivity.
  all: f_equal; lia.
Qed.

(** A [guint64] stored big-endian and read by [g_variant_iter_loop] in the
    byte order of the host comes out of [GUINT64_FROM_BE] as the number that
    was stored, on either kind of host. *)
Lemma GUINT64_FROM_BE_decodes host bs :
  length bs = 8%nat ->
  Forall is_byte bs ->
  GUINT64_FROM_BE host (host_decode host bs) = be_decode bs.
Proof.
  intros Hlen Hb. destruct host; [|done].
  do 8 (destruct bs as [|? bs]; [discriminate Hlen|]).
  destruct bs; [|discriminate Hlen].
  by apply GUINT64_SWAP_LE_BE_bytes.
Qed.

(** *** The pack files *)

Section PackProofs.
Context `{C : Collaborators}.

Lemma strcmp_zero a b : strcmp a b = 0 <-> a = b.
Proof.
  unfold strcmp. split.
  - destruct (String.compare a b) eqn:E; try discriminate.
    intros _. by apply String.compare_eq_iff.
  - intros ->. pose proof (String.compare_antisym b b) as H.
    destruct (String.compare b b); simpl in H; congruence.
Qed.

Lemma strcmp_test a b : negb (strcmp a b =? 0) = negb (bool_decide (a = b)).
Proof.
  f_equal. case_bool_decide as H.
  - apply Z.eqb_eq. by apply strcmp_zero.
  - apply Z.eqb_neq. by rewrite strcmp_zero.
Qed.

Lemma fsck_pack_offset_run checksum pack_size e d :
  fsck_pack_offset checksum pack_size e d =
  ([compare_pack_offset checksum (GUINT64_FROM_BE G_BYTE_ORDER (pie_offset e)) pack_size],
   d,
   if GUINT64_FROM_BE G_BYTE_ORDER (pie_offset e) >? pack_size
   then Error (corrupted_pack_offset checksum
                 (GUINT64_FROM_BE G_BYTE_ORDER (pie_offset e)) pack_size)
   else Done tt).
Proof.
  unfold fsck_pack_offset. unfold_M. simpl.
  by destruct (_ >? _).
Qed.

(** The inner loop leaves the data alone and stops at the first entry out
    of range; its events and its verdict do not depend on the data. *)
Lemma fsck_pack_offsets_run checksum pack_size entries :
  exists t,
    (forall d,
       for_each entries (fsck_pack_offset checksum pack_size) d =
       (t, d,
        match List.find (fun e => GUINT64_FROM_BE G_BYTE_ORDER (pie_offset e) >? pack_size)
                        entries with
        | None => Done tt
        | Some e => Error (corrupted_pack_offset checksum
                             (GUINT64_FROM_BE G_BYTE_ORDER (pie_offset e)) pack_size)
        end)) /\
    Forall (fun ev => exists entry,
              entry ∈ entries /\
              ev = compare_pack_offset checksum
                     (GUINT64_FROM_BE G_BYTE_ORDER (pie_offset entry)) pack_size) t.
Proof.
  induction entries as [|entry entries (t & Hrun & Ht)].
  - exists []. by split.
  - exists (compare_pack_offset checksum
              (GUINT64_FROM_BE G_BYTE_ORDER (pie_offset entry)) pack_size
            :: if GUINT64_FROM_BE G_BYTE_ORDER (pie_offset entry) >? pack_size
               then [] else t).
    split.
    + intros d. simpl. unfold mbind, M_bind, bind. rewrite fsck_pack_offset_run.
      destruct (GUINT64_FROM_BE G_BYTE_ORDER (pie_offset entry) >? pack_size); [done|].
      rewrite Hrun. by destruct (List.find _ entries).
    + constructor; [exists entry; split; [left|done]|].
      destruct (_ >? _); [constructor|].
      eapply Forall_impl; [exact Ht|]. intros ev (x & Hx & ->). exists x.
      split; [by right|done].
Qed.

Lemma find_none_in_range pack_size entries :
  List.find (fun e => GUINT64_FROM_BE G_BYTE_ORDER (pie_offset e) >? pack_size) entries = None
  <-> Forall (offset_in_range pack_size) entries.
Proof.
  unfold offset_in_range. induction entries as [|e es IH]; simpl.
  - split; auto.
  - destruct (Z.gtb_spec (GUINT64_FROM_BE G_BYTE_ORDER (pie_offset e)) pack_size).
    + split; [discriminate|]. inversion 1; subst. lia.
    + rewrite IH. split.
      * intros. constructor; [lia|done].
      * by inversion 1.
Qed.

Lemma find_first_out_of_range pack_size pre e post :
  Forall (offset_in_range pack_size) pre ->
  ~ offset_in_range pack_size e ->
  List.find (fun e => GUINT64_FROM_BE G_BYTE_ORDER (pie_offset e) >? pack_size)
            (pre ++ e :: post) = Some e.
Proof.
  unfold offset_in_range. induction 1 as [|x pre Hx _ IH]; intros He; simpl.
  - destruct (Z.gtb_spec (GUINT64_FROM_BE G_BYTE_ORDER (pie_offset e)) pack_size); [done|lia].
  - destruct (Z.gtb_spec (GUINT64_FROM_BE G_BYTE_ORDER (pie_offset x)) pack_size); [lia|auto].
Qed.

(** One iteration of the loop over the packs, stage by stage. *)
Lemma fsck_pack_file_run prev checksum d :
  fsck_pack_file prev checksum d =
  match ot_util_variant_map (ostree_repo_get_pack_index_path (repo d) checksum) with
  | Fail e => ([call_variant_map checksum], d, Error e)
  | Ok index =>
      match ostree_validate_structureof_pack_index index with
      | Fail e => ([call_variant_map checksum; call_validate_pack_index checksum], d, Error e)
      | Ok _ =>
          match g_file_read (ostree_repo_get_pack_data_path (repo d) checksum) with
          | Fail e =>
              ([call_variant_map checksum; call_validate_pack_index checksum;
                call_file_read checksum], d, Error e)
          | Ok input =>
              match g_file_input_stream_query_info input with
              | Fail e =>
                  ([call_variant_map checksum; call_validate_pack_index checksum;
                    call_file_read checksum; call_query_info checksum], d, Error e)
              | Ok info =>
                  match ot_gio_checksum_stream input with
                  | Fail e =>
                      ([call_variant_map checksum; call_validate_pack_index checksum;
                        call_file_read checksum; call_query_info checksum;
                        call_checksum_stream checksum], d,
                       match prev with
                       | None => Error e
                       | Some _ => Undefined double_free
                       end)
                  | Ok digest =>
                      let stages :=
                        [call_variant_map checksum; call_validate_pack_index checksum;
                         call_file_read checksum; call_query_info checksum;
                         call_checksum_stream checksum;
                         compare_pack_checksum checksum digest] in
                      if bool_decide (digest = checksum) then
                        match for_each (pi_contents index)
                                (fsck_pack_offset checksum
                                   (g_file_info_get_attribute_uint64 info "standard::size"))
                                d with
                        | (t, d', Done _) =>
                            (stages ++ t,
                             mkOtFsckData (repo d') (wrap32 (n_pack_files d' + 1)),
                             Done (Some digest))
                        | (t, d', Error e) => (stages ++ t, d', Error e)
                        | (t, d', Aborted s) => (stages ++ t, d', Aborted s)
                        | (t, d', Undefined w) => (stages ++ t, d', Undefined w)
                        end
                      else (stages, d, Error (corrupted_pack_checksum checksum digest))
                  end
              end
          end
      end
  end.
Proof.
  unfold fsck_pack_file. unfold_M. simpl.
  destruct (ot_util_variant_map _) as [index|e]; simpl; [|done].
  destruct (ostree_validate_structureof_pack_index index) as [u|e]; simpl; [|done].
  destruct (g_file_read _) as [input|e]; simpl; [|done].
  destruct (g_file_input_stream_query_info input) as [info|e]; simpl; [|done].
  destruct (ot_gio_checksum_stream input) as [digest|e]; simpl; [|by destruct prev].
  rewrite strcmp_test. case_bool_decide; simpl; [|done].
  destruct (for_each _ _ d) as [[t d'] [[]|e|s|w]]; simpl; by rewrite ?app_nil_r.
Qed.

(** One iteration reads the counter only to increment it: its events and
    its outcome are those of the repository and of the pointer it finds. *)
Lemma fsck_pack_file_pure (r : OstreeRepo) prev checksum :
  exists t o,
    (forall n, fsck_pack_file prev checksum (mkOtFsckData r n) =
               (t, mkOtFsckData r (match o with Done _ => wrap32 (n + 1) | _ => n end), o)) /\
    Forall (fun ev => pack_of ev = Some checksum) t /\
    Forall (pack_call_justified r) t.
Proof.
  pose proof (fun n => fsck_pack_file_run prev checksum (mkOtFsckData r n)) as Hrun.
  cbn [repo n_pack_files] in Hrun.
  destruct (ot_util_variant_map _) as [index|e] eqn:Hmap.
  2:{ eexists _, (Error e). split; [exact Hrun|]. by repeat constructor. }
  destruct (ostree_validate_structureof_pack_index index) as [[]|e] eqn:Hval.
  2:{ eexists _, (Error e). split; [exact Hrun|]. by repeat constructor. }
  assert (exists index',
            ot_util_variant_map (ostree_repo_get_pack_index_path r checksum) = Ok index' /\
            ostree_validate_structureof_pack_index index' = Ok tt) as Hindex
    by (by exists index).
  destruct (g_file_read _) as [input|e] eqn:Hread.
  2:{ eexists _, (Error e). split; [exact Hrun|]. by repeat constructor. }
  destruct (g_file_input_stream_query_info input) as [info|e] eqn:Hinfo.
  2:{ eexists _, (Error e). split; [exact Hrun|]. by repeat constructor. }
  destruct (ot_gio_checksum_stream input) as [digest|e] eqn:Hsum.
  2:{ destruct prev.
      - eexists _, (Undefined double_free). split; [exact Hrun|]. by repeat constructor.
      - eexists _, (Error e). split; [exact Hrun|]. by repeat constructor. }
  cbv zeta in Hrun. case_bool_decide as Hdigest.
  2:{ eexists _, (Error (corrupted_pack_checksum checksum digest)).
      split; [exact Hrun|]. by repeat constructor. }
  subst digest.
  destruct (fsck_pack_offsets_run checksum
              (g_file_info_get_attribute_uint64 info "standard::size") (pi_contents index))
    as (t & Hoff & Ht).
  assert (Forall (fun ev => pack_of ev = Some checksum) t) as Hof.
  { eapply Forall_impl; [exact Ht|]. by intros ev (entry & _ & ->). }
  assert (Forall (pack_call_justified r) t) as Hjust.
  { eapply Forall_impl; [exact Ht|]. intros ev (entry & Hentry & ->).
    exists index, entry. split; [|done]. by exists input, info. }
  destruct (List.find _ _) as [entry|] eqn:Hfind.
  - eexists _, (Error _). split; [|split].
    + intros n. rewrite Hrun, Hoff. reflexivity.
    + by repeat (constructor; [done|]).
    + by repeat (constructor; [done|]).
  - eexists _, (Done (Some checksum)). split; [|split].
    + intros n. rewrite Hrun, Hoff. reflexivity.
    + by repeat (constructor; [done|]).
    + by repeat (constructor; [done|]).
Qed.

Ltac unpack_verifies H :=
  destruct H as (?index & ?size & ?digest & (?input & ?info & ? & ? & ? & ? & ? & ?) & ? & ?).
Ltac unpack_hash_fails H :=
  destruct H as (?index & ?input & ?info & ?e & ? & ? & ? & ? & ?).

Lemma pack_hash_fails_not_verifies r c : pack_hash_fails r c -> ~ pack_verifies r c.
Proof. intros Hf Hv. unpack_hash_fails Hf. unpack_verifies Hv. same_calls; congruence. Qed.

Lemma fsck_pack_file_step prev checksum d :
  pack_step d prev checksum (data_of (fsck_pack_file prev checksum d))
            (outcome_of (fsck_pack_file prev checksum d)).
Proof.
  rewrite fsck_pack_file_run. unfold data_of, outcome_of.
  destruct (ot_util_variant_map _) as [index|e] eqn:Hmap; cbn [fst snd].
  2:{ constructor; [intros Hv; unpack_verifies Hv; congruence|].
      right. intros Hf. unpack_hash_fails Hf. congruence. }
  destruct (ostree_validate_structureof_pack_index index) as [u|e] eqn:Hval; [destruct u|];
    cbn [fst snd].
  2:{ constructor; [intros Hv; unpack_verifies Hv; congruence|].
      right. intros Hf. unpack_hash_fails Hf. congruence. }
  destruct (g_file_read _) as [input|e] eqn:Hread; cbn [fst snd].
  2:{ constructor; [intros Hv; unpack_verifies Hv; congruence|].
      right. intros Hf. unpack_hash_fails Hf. congruence. }
  destruct (g_file_input_stream_query_info input) as [info|e] eqn:Hinfo; cbn [fst snd].
  2:{ constructor; [intros Hv; unpack_verifies Hv; same_calls; congruence|].
      right. intros Hf. unpack_hash_fails Hf. same_calls; congruence. }
  destruct (ot_gio_checksum_stream input) as [digest|e] eqn:Hsum; cbn [fst snd].
  2:{ destruct prev as [p|].
      - constructor; [done|]. by exists index, input, info, e.
      - constructor; [intros Hv; unpack_verifies Hv; same_calls; congruence|by left]. }
  assert (~ pack_hash_fails (repo d) checksum) as Hnf.
  { intros Hf. unpack_hash_fails Hf. same_calls; congruence. }
  cbv zeta. case_bool_decide as Hd; cbn [fst snd].
  2:{ constructor; [|by right]. intros Hv; unpack_verifies Hv. same_calls; congruence. }
  destruct (fsck_pack_offsets_run checksum
              (g_file_info_get_attribute_uint64 info "standard::size")
              (pi_contents index)) as (t & Hoff & _).
  rewrite Hoff.
  destruct (List.find _ _) as [e|] eqn:Hfind; cbn [fst snd].
  - constructor; [|by right]. intros Hv. unpack_verifies Hv.
    simplify_eq. same_calls.
    match goal with H : Forall _ _ |- _ => apply find_none_in_range in H end. congruence.
  - apply find_none_in_range in Hfind. subst digest. constructor.
    exists index, (g_file_info_get_attribute_uint64 info "standard::size"), checksum.
    split; [|done]. exists input, info. done.
Qed.

Lemma bump_0 d : bump 0 d = d.
Proof. by destruct d. Qed.

Lemma bump_S k d :
  bump (S k) d = bump k (mkOtFsckData (repo d) (wrap32 (n_pack_files d + 1))).
Proof. unfold bump. cbn [repo n_pack_files]. by rewrite Nat.iter_succ_r. Qed.

Lemma iter_wrap32 k n :
  0 <= n < 2 ^ 32 -> Nat.iter k (fun n => wrap32 (n + 1)) n = wrap32 (n + Z.of_nat k).
Proof.
  intros Hn. unfold wrap32. induction k as [|k IH].
  - simpl. rewrite Z.add_0_r, Z.mod_small; lia.
  - rewrite Nat.iter_succ, IH, Nat2Z.inj_succ.
    rewrite Zplus_mod_idemp_l. f_equal. lia.
Qed.

(** The events and the verdict on a pack do not depend on the counter. *)
Lemma fsck_pack_file_outcome_repo prev checksum d1 d2 :
  repo d1 = repo d2 ->
  trace_of (fsck_pack_file prev checksum d1) = trace_of (fsck_pack_file prev checksum d2)
  /\ outcome_of (fsck_pack_file prev checksum d1)
     = outcome_of (fsck_pack_file prev checksum d2).
Proof.
  intros Hr. destruct d1 as [r n1], d2 as [r2 n2]. cbn [repo] in Hr. subst r2.
  destruct (fsck_pack_file_pure r prev checksum) as (t & o & Hrun & _).
  by rewrite (Hrun n1), (Hrun n2).
Qed.

(** Nor, the double free apart, on the pointer the iteration finds. *)
Lemma fsck_pack_file_prev prev checksum d :
  trace_of (fsck_pack_file prev checksum d) = trace_of (fsck_pack_file None checksum d)
  /\ forall e, outcome_of (fsck_pack_file prev checksum d) = Error e ->
               outcome_of (fsck_pack_file None checksum d) = Error e.
Proof.
  rewrite !fsck_pack_file_run.
  destruct (ot_util_variant_map _) as [index|e]; [|done].
  destruct (ostree_validate_structureof_pack_index index) as [u|e]; [|done].
  destruct (g_file_read _) as [input|e]; [|done].
  destruct (g_file_input_stream_query_info input) as [info|e]; [|done].
  destruct (ot_gio_checksum_stream input) as [digest|e]; [|by destruct prev].
  cbv zeta. case_bool_decide; [|done].
  by destruct (for_each _ _ d) as [[t d'] [[]|e|s|w]].
Qed.

Lemma fsck_pack_files_loop packs prev d :
  packs_run d prev packs (data_of (fold_each packs prev fsck_pack_file d))
            (returns (outcome_of (fold_each packs prev fsck_pack_file d))).
Proof.
  revert prev d. induction packs as [|c packs IH]; intros prev d.
  - simpl. rewrite <- (bump_0 d) at 2. by constructor.
  - simpl. unfold mbind, M_bind, bind.
    pose proof (fsck_pack_file_step prev c d) as Hstep.
    pose proof (fsck_pack_file_prev prev c d) as [_ Herr].
    destruct (fsck_pack_file prev c d) as [[t1 d1] o1] eqn:Hrun.
    unfold data_of, outcome_of in Hstep, Herr. simpl in Hstep, Herr.
    inversion Hstep as [Hok Hd Ho|e Hfail Hcond Hd Ho|Hprev Hfails Hd Ho]; subst.
    + specialize (IH (Some c) (mkOtFsckData (repo d) (wrap32 (n_pack_files d + 1)))).
      destruct (fold_each packs (Some c) fsck_pack_file _) as [[t2 d2] o2].
      unfold data_of, outcome_of in *. simpl in *.
      inversion IH as [? Hall|pre c' post e Hpre Hc Hcond He|pre c' post Hpre Hcond Hf];
        subst.
      * rewrite <- bump_S. apply (packs_run_done d prev (c :: packs)). by constructor.
      * rewrite <- bump_S.
        apply (packs_run_stop d prev (c :: pre)); [by constructor|done| |].
        -- right. by destruct Hcond as [[? _]|?].
        -- rewrite <- He. by apply fsck_pack_file_outcome_repo.
      * rewrite <- bump_S.
        apply (packs_run_double_free d prev (c :: pre)); [by constructor|by right|done].
    + unfold data_of, outcome_of. simpl. rewrite <- (bump_0 d1) at 2.
      apply (packs_run_stop d1 prev []); [constructor|done| |by apply Herr].
      destruct Hcond as [->|?]; [by left|by right].
    + unfold data_of, outcome_of. simpl. rewrite <- (bump_0 d1) at 2.
      apply (packs_run_double_free d1 prev []); [constructor|by left|done].
Qed.

Lemma fsck_pack_files_run d :
  fsck_pack_files d =
  match ostree_repo_list_pack_indexes (repo d) with
  | Ok packs =>
      (call_list_pack_indexes :: trace_of (fold_each packs None fsck_pack_file d),
       data_of (fold_each packs None fsck_pack_file d),
       returns (outcome_of (fold_each packs None fsck_pack_file d)))
  | Fail e => ([call_list_pack_indexes], d, Error e)
  end.
Proof.
  unfold fsck_pack_files. unfold_M. simpl.
  destruct (ostree_repo_list_pack_indexes (repo d)) as [packs|e]; simpl; [|done].
  destruct (fold_each packs None fsck_pack_file d) as [[t d'] [p|e|s|w]]; simpl;
    by rewrite ?app_nil_r.
Qed.

Lemma fsck_pack_file_checksum_mismatch prev checksum d index pack_size digest :
  pack_loads (repo d) checksum index pack_size digest ->
  digest <> checksum ->
  outcome_of (fsck_pack_file prev checksum d)
  = Error (corrupted_pack_checksum checksum digest).
Proof.
  intros (input & info & Hmap & Hval & Hread & Hinfo & -> & Hsum) Hne.
  rewrite fsck_pack_file_run, Hmap, Hval, Hread, Hinfo, Hsum. cbv zeta.
  by rewrite bool_decide_eq_false_2.
Qed.

Lemma fsck_pack_file_offset_out_of_range prev checksum d index pack_size pre e post :
  pack_loads (repo d) checksum index pack_size checksum ->
  pi_contents index = pre ++ e :: post ->
  Forall (offset_in_range pack_size) pre ->
  ~ offset_in_range pack_size e ->
  outcome_of (fsck_pack_file prev checksum d) =
  Error (corrupted_pack_offset checksum (GUINT64_FROM_BE G_BYTE_ORDER (pie_offset e))
           pack_size).
Proof.
  intros (input & info & Hmap & Hval & Hread & Hinfo & -> & Hsum) Hentries Hpre He.
  rewrite fsck_pack_file_run, Hmap, Hval, Hread, Hinfo, Hsum. cbv zeta.
  rewrite bool_decide_eq_true_2 by done.
  destruct (fsck_pack_offsets_run checksum
              (g_file_info_get_attribute_uint64 info "standard::size")
              (pi_contents index)) as (t & -> & _).
  rewrite Hentries, (find_first_out_of_range _ pre e post) by done. done.
Qed.

Lemma packs_run_done_iff d prev packs d' o :
  packs_run d prev packs d' o ->
  (o = Done tt <-> forall c, c ∈ packs -> pack_verifies (repo d) c).
Proof.
  destruct 1 as [packs Hall|pre c post e Hpre Hc Hcond He|pre c post Hpre Hcond Hf].
  - split; [|done]. intros _. by apply Forall_forall.
  - split; [discriminate|]. intros Hall. destruct Hc. apply Hall.
    apply elem_of_app. right. left.
  - split; [discriminate|]. intros Hall.
    destruct (pack_hash_fails_not_verifies _ _ Hf). apply Hall.
    apply elem_of_app. right. left.
Qed.

(** Where a list of packs stops verifying. *)
Lemma first_failure_unique (P : string -> Prop) pre c post pre' c' post' :
  pre ++ c :: post = pre' ++ c' :: post' ->
  Forall P pre -> ~ P c -> Forall P pre' -> ~ P c' ->
  pre' = pre /\ c' = c /\ post' = post.
Proof.
  intros Heq Hpre Hc Hpre' Hc'.
  revert pre Heq Hpre. induction Hpre' as [|x pre' Hx _ IH]; intros pre Heq Hpre.
  - destruct Hpre as [|y pre Hy _]; simpl in Heq; simplify_eq; [done|].
    by destruct Hc'.
  - destruct Hpre as [|y pre Hy Hpre]; simpl in Heq; simplify_eq.
    + by destruct Hc.
    + destruct (IH pre) as (-> & -> & ->); done.
Qed.

Lemma packs_run_first_failure d prev pre c post d' o :
  packs_run d prev (pre ++ c :: post) d' o ->
  Forall (pack_verifies (repo d)) pre ->
  ~ pack_verifies (repo d) c ->
  d' = bump (length pre) d /\
  ((exists e, o = Error e /\ outcome_of (fsck_pack_file None c d) = Error e /\
              ((prev = None /\ pre = []) \/ ~ pack_hash_fails (repo d) c))
   \/ (o = Undefined double_free /\ (prev <> None \/ pre <> [])
       /\ pack_hash_fails (repo d) c)).
Proof.
  intros Hrun Hpre Hc.
  inversion Hrun as [packs Hall|pre' c' post' e Hpre' Hc' Hcond He Heq
                    |pre' c' post' Hpre' Hcond Hf Heq]; subst.
  - destruct Hc. rewrite Forall_app, Forall_cons in Hall. tauto.
  - destruct (first_failure_unique _ _ _ _ _ _ _ Heq Hpre' Hc' Hpre Hc) as (-> & -> & ->).
    split; [done|]. left. by exists e.
  - pose proof (pack_hash_fails_not_verifies _ _ Hf) as Hc'.
    destruct (first_failure_unique _ _ _ _ _ _ _ Heq Hpre' Hc' Hpre Hc) as (-> & -> & ->).
    split; [done|]. by right.
Qed.

(** The loop over the packs: its events and its verdict are those of the
    repository and of the pointer it is entered with, the counter only
    counts. *)
Lemma fsck_pack_loop_pure (r : OstreeRepo) packs prev :
  exists t o k,
    (forall n, fold_each packs prev fsck_pack_file (mkOtFsckData r n) =
               (t, mkOtFsckData r (Nat.iter k (fun n => wrap32 (n + 1)) n), o)) /\
    Forall (fun ev => exists c, c ∈ packs /\ pack_of ev = Some c) t /\
    Forall (pack_call_justified r) t.
Proof.
  revert prev. induction packs as [|c packs IH]; intros prev.
  - exists [], (Done prev), 0%nat. by repeat split.
  - destruct (fsck_pack_file_pure r prev c) as (t1 & o1 & Hc & Hof1 & Hjust1).
    assert (Forall (fun ev => exists c', c' ∈ c :: packs /\ pack_of ev = Some c') t1) as Hof1'.
    { eapply Forall_impl; [exact Hof1|]. intros ev Hev. exists c. split; [left|done]. }
    destruct o1 as [p|e|s|w].
    + destruct (IH p) as (t2 & o2 & k & Hrest & Hof2 & Hjust2).
      exists (t1 ++ t2), o2, (S k). split; [|split].
      * intros n. simpl fold_each. unfold mbind, M_bind, bind. rewrite Hc, Hrest.
        by rewrite Nat.iter_succ_r.
      * apply Forall_app. split; [done|].
        eapply Forall_impl; [exact Hof2|]. intros ev (c' & Hc' & Hev). exists c'.
        split; [by right|done].
      * by apply Forall_app.
    + exists t1, (Error e), 0%nat. split; [|by split].
      intros n. simpl fold_each. unfold mbind, M_bind, bind. by rewrite Hc.
    + exists t1, (Aborted s), 0%nat. split; [|by split].
      intros n. simpl fold_each. unfold mbind, M_bind, bind. by rewrite Hc.
    + exists t1, (Undefined w), 0%nat. split; [|by split].
      intros n. simpl fold_each. unfold mbind, M_bind, bind. by rewrite Hc.
Qed.

(** The events of a loop that stops at [c] end with those of [c]. *)
Lemma fsck_pack_loop_stops pre c post prev d :
  Forall (pack_verifies (repo d)) pre ->
  ~ pack_verifies (repo d) c ->
  exists before,
    trace_of (fold_each (pre ++ c :: post) prev fsck_pack_file d)
    = before ++ trace_of (fsck_pack_file None c d) /\
    Forall (fun ev => exists c', c' ∈ pre /\ pack_of ev = Some c') before.
Proof.
  intros Hpre Hc. revert prev d Hpre Hc.
  induction pre as [|x pre IH]; intros prev d Hpre Hc.
  - exists []. split; [|constructor]. simpl. unfold mbind, M_bind, bind.
    pose proof (fsck_pack_file_step prev c d) as Hstep.
    destruct (fsck_pack_file_prev prev c d) as [<- _].
    destruct (fsck_pack_file prev c d) as [[t1 d1] o1].
    unfold data_of, outcome_of in Hstep. simpl in Hstep.
    by inversion Hstep; subst.
  - apply Forall_cons in Hpre as [Hx Hpre]. destruct d as [r n]. cbn [repo] in *.
    destruct (fsck_pack_file_pure r prev x) as (tx & ox & Hrun & Hof & _).
    pose proof (fsck_pack_file_step prev x (mkOtFsckData r n)) as Hstep.
    rewrite (Hrun n) in Hstep. unfold data_of, outcome_of in Hstep. simpl in Hstep.
    assert (ox = Done (Some x)) as ->.
    { inversion Hstep as [| |? Hf]; subst; [done|done|].
      by destruct (pack_hash_fails_not_verifies _ _ Hf). }
    destruct (IH (Some x) (mkOtFsckData r (wrap32 (n + 1))) Hpre Hc)
      as (before & Hrest & Hbefore).
    destruct (fsck_pack_file_outcome_repo None c (mkOtFsckData r (wrap32 (n + 1)))
                (mkOtFsckData r n) eq_refl) as [Htrace _].
    rewrite Htrace in Hrest.
    exists (tx ++ before). split.
    + simpl. unfold mbind, M_bind, bind. rewrite (Hrun n).
      destruct (fold_each _ _ _ _) as [[t2 d2] o2].
      unfold trace_of in *. simpl in *. by rewrite Hrest, app_assoc.
    + apply Forall_app. split.
      * eapply Forall_impl; [exact Hof|]. intros ev Hev. exists x. split; [left|done].
      * eapply Forall_impl; [exact Hbefore|]. intros ev (c' & Hc' & Hev). exists c'.
        split; [by right|done].
Qed.

Lemma pack_loads_not_hash_fails r c index pack_size digest :
  pack_loads r c index pack_size digest -> ~ pack_hash_fails r c.
Proof.
  intros (?&?&?&?&?&?&?&?) Hf. unpack_hash_fails Hf. same_calls; congruence.
Qed.

(** C1 (amended).  [fsck_pack_files] succeeds exactly when every listed
    pack verifies, where a pack verifies when its index can be mapped and
    passes the structure validation, its data file can be opened, queried
    and hashed, (a) the digest equals the checksum naming the pack and (b)
    every offset of the index, converted from big-endian, is at most the
    size of the data file.  At the first pack that does not verify: when its
    files load and the digest differs, the error names the pack and the
    digest found; when the digest matches and an offset is too large, the
    error names the pack, the first such offset and the file size. *)
Theorem fsck_pack_files_verifies (d : OtFsckData) (packs : list string) :
  ostree_repo_list_pack_indexes (repo d) = Ok packs ->
  (outcome_of (fsck_pack_files d) = Done tt <->
   forall c, c ∈ packs -> pack_verifies (repo d) c)
  /\
  (forall pre c post index pack_size digest,
     packs = pre ++ c :: post ->
     Forall (pack_verifies (repo d)) pre ->
     pack_loads (repo d) c index pack_size digest ->
     (digest <> c ->
      outcome_of (fsck_pack_files d) = Error (corrupted_pack_checksum c digest))
     /\
     (digest = c ->
      forall epre e epost,
        pi_contents index = epre ++ e :: epost ->
        Forall (offset_in_range pack_size) epre ->
        ~ offset_in_range pack_size e ->
        outcome_of (fsck_pack_files d) =
        Error (corrupted_pack_offset c (GUINT64_FROM_BE G_BYTE_ORDER (pie_offset e))
                 pack_size))).
Proof.
  intros Hlist. rewrite fsck_pack_files_run, Hlist.
  pose proof (fsck_pack_files_loop packs None d) as Hrun.
  change (outcome_of (_, _, ?o)) with o.
  split; [by eapply packs_run_done_iff|].
  intros pre c post index pack_size digest -> Hpre Hloads.
  pose proof (pack_loads_not_hash_fails _ _ _ _ _ Hloads) as Hhash.
  split.
  - intros Hne.
    assert (~ pack_verifies (repo d) c) as Hc.
    { intros (index' & size' & digest' & (?&?&?&?&?&?&?&?) & ? & _).
      destruct Hloads as (?&?&?&?&?&?&?&?). same_calls; try congruence. }
    destruct (packs_run_first_failure _ _ _ _ _ _ _ Hrun Hpre Hc)
      as [_ [(e & Ho & He & _)|(_ & _ & Hf)]]; [|done].
    rewrite (fsck_pack_file_checksum_mismatch None _ _ _ _ _ Hloads Hne) in He.
    rewrite Ho. by simplify_eq.
  - intros -> epre e epost Hentries Hepre He.
    assert (~ pack_verifies (repo d) c) as Hc.
    { intros (index' & size' & digest' & (?&?&?&?&?&?&?&?) & ? & Hall).
      destruct Hloads as (?&?&?&?&?&?&?&?). same_calls; subst.
      rewrite Hentries, Forall_app, Forall_cons in Hall. tauto. }
    destruct (packs_run_first_failure _ _ _ _ _ _ _ Hrun Hpre Hc)
      as [_ [(e' & Ho & He' & _)|(_ & _ & Hf)]]; [|done].
    rewrite (fsck_pack_file_offset_out_of_range None _ _ _ _ _ _ _ Hloads Hentries Hepre He)
      in He'.
    rewrite Ho. by simplify_eq.
Qed.

(** C10.  Started with the counter at zero, as [ostree_builtin_fsck] does:
    on success [n_pack_files] is the number of pack indexes listed; when
    [fsck_pack_files] returns failure at a pack it is the number of packs
    verified before that one; when the listing itself fails it is still
    zero.  One failure has no return to speak of: when the data file of a
    pack cannot be hashed after an earlier pack was verified, the checksum of
    the earlier pack, freed before the hash, is freed again on the way out,
    and nothing is claimed of the counter. *)
Theorem n_pack_files_counts_verified_packs (d : OtFsckData) :
  n_pack_files d = 0 ->
  match ostree_repo_list_pack_indexes (repo d) with
  | Fail e =>
      outcome_of (fsck_pack_files d) = Error e /\
      n_pack_files (data_of (fsck_pack_files d)) = 0
  | Ok packs =>
      Z.of_nat (length packs) < 2 ^ 32 ->
      (outcome_of (fsck_pack_files d) = Done tt /\
       Forall (pack_verifies (repo d)) packs /\
       n_pack_files (data_of (fsck_pack_files d)) = Z.of_nat (length packs))
      \/
      (exists pre c post,
         packs = pre ++ c :: post /\
         Forall (pack_verifies (repo d)) pre /\
         ~ pack_verifies (repo d) c /\
         ((exists e,
             outcome_of (fsck_pack_files d) = Error e /\
             (pre = [] \/ ~ pack_hash_fails (repo d) c) /\
             n_pack_files (data_of (fsck_pack_files d)) = Z.of_nat (length pre))
          \/
          (pre <> [] /\ pack_hash_fails (repo d) c /\
           outcome_of (fsck_pack_files d) = Undefined double_free)))
  end.
Proof.
  intros Hzero. rewrite fsck_pack_files_run.
  destruct (ostree_repo_list_pack_indexes (repo d)) as [packs|e]; [|done].
  intros Hlen. pose proof (fsck_pack_files_loop packs None d) as Hrun.
  change (outcome_of (_, _, ?o)) with o. change (data_of (_, ?x, _)) with x.
  assert (forall k, Z.of_nat k < 2 ^ 32 -> n_pack_files (bump k d) = Z.of_nat k) as Hbump.
  { intros k Hk. unfold bump. cbn [n_pack_files]. rewrite Hzero, iter_wrap32 by lia.
    unfold wrap32. rewrite Z.mod_small; lia. }
  inversion Hrun as [? Hall Hp Hd Ho|pre c post e Hpre Hc Hcond He Hp Hd Ho
                    |pre c post Hpre Hcond Hf Hp Hd Ho].
  - left. split; [done|]. split; [done|]. by apply Hbump.
  - right. exists pre, c, post. subst packs.
    repeat split; try done. left. exists e. split; [done|]. split.
    + destruct Hcond as [[_ ->]|?]; [by left|by right].
    + apply Hbump. rewrite length_app in Hlen. simpl in Hlen. lia.
  - right. exists pre, c, post. subst packs.
    repeat split; try done; [by eapply pack_hash_fails_not_verifies|].
    right. by destruct Hcond as [?|?].
Qed.

End PackProofs.

(** *** One object of the reachable set *)

Section ObjectProofs.
Context `{C : Collaborators}.

Lemma fsck_compare_checksum_run key file_info xattrs input t d :
  fsck_compare_checksum key file_info xattrs input t d =
  match ostree_checksum_file_from_input file_info xattrs input t with
  | Ok computed =>
      ([call_checksum_file_from_input t (fst key); compare_checksum key computed], d,
       if bool_decide (computed = fst key) then Done tt
       else Error (corrupted_object key computed))
  | Fail e => ([call_checksum_file_from_input t (fst key)], d, Error e)
  end.
Proof.
  unfold fsck_compare_checksum. destruct key as [checksum objtype]. unfold_M. simpl.
  destruct (ostree_checksum_file_from_input _ _ _ _) as [computed|e]; simpl; [|done].
  rewrite strcmp_test. rewrite (bool_decide_ext (checksum = computed) (computed = checksum))
    by (split; congruence).
  by case_bool_decide.
Qed.

Lemma fsck_validate_metadata_run objtype checksum metadata d :
  is_metadata objtype = true ->
  fsck_validate_metadata objtype checksum metadata d =
  ([call_validate_structureof objtype checksum], d,
   match validate_structureof objtype metadata with
   | Ok _ => Done tt
   | Fail e => Error e
   end).
Proof.
  intros Hm. unfold fsck_validate_metadata.
  destruct objtype; try discriminate Hm; simpl; unfold_M; simpl.
  - by destruct (ostree_validate_structureof_dirtree metadata) as [[]|].
  - by destruct (ostree_validate_structureof_dirmeta metadata) as [[]|].
  - by destruct (ostree_validate_structureof_commit metadata) as [[]|].
Qed.

Lemma fsck_metadata_object_run checksum objtype d :
  is_metadata objtype = true ->
  fsck_metadata_object (checksum, objtype) d =
  match ostree_repo_load_variant (repo d) objtype checksum with
  | Fail e => ([call_load_variant objtype checksum], d, Error e)
  | Ok metadata =>
      match validate_structureof objtype metadata with
      | Fail e =>
          ([call_load_variant objtype checksum;
            call_validate_structureof objtype checksum], d, Error e)
      | Ok _ =>
          match fsck_compare_checksum (checksum, objtype) None None
                  (g_memory_input_stream_new_from_data
                     (g_variant_get_data (ostree_wrap_metadata_variant objtype metadata)))
                  objtype d with
          | (t, d', o) =>
              (call_load_variant objtype checksum
               :: call_validate_structureof objtype checksum :: t, d', o)
          end
      end
  end.
Proof.
  intros Hm. unfold fsck_metadata_object.
  cbn [ostree_object_name_deserialize fst snd].
  unfold mbind, M_bind, bind, get_data, call, emit, throw, mret, M_ret, ret. simpl.
  destruct (ostree_repo_load_variant (repo d) objtype checksum) as [metadata|e]; simpl;
    [|done].
  rewrite fsck_validate_metadata_run by done.
  destruct (validate_structureof objtype metadata) as [u|e]; simpl; [|done].
  by destruct (fsck_compare_checksum _ _ _ _ _ _) as [[t d'] o].
Qed.

Lemma fsck_file_object_run checksum objtype d :
  fsck_file_object (checksum, objtype) d =
  match ostree_repo_load_file (repo d) checksum with
  | Fail e => ([call_load_file checksum], d, Error e)
  | Ok (input, file_info, xattrs) =>
      let mode := g_file_info_get_attribute_uint32 file_info "unix::mode" in
      match ostree_validate_structureof_file_mode mode with
      | Fail e => ([call_load_file checksum; call_validate_file_mode checksum mode], d, Error e)
      | Ok _ =>
          match fsck_compare_checksum (checksum, objtype) (Some file_info) (Some xattrs)
                  input OSTREE_OBJECT_TYPE_RAW_FILE d with
          | (t, d', o) =>
              (call_load_file checksum :: call_validate_file_mode checksum mode :: t, d', o)
          end
      end
  end.
Proof.
  unfold fsck_file_object.
  cbn [ostree_object_name_deserialize fst snd].
  unfold mbind, M_bind, bind, get_data, call, emit, throw, mret, M_ret, ret. simpl.
  destruct (ostree_repo_load_file (repo d) checksum) as [[[input file_info] xattrs]|e]; simpl;
    [|done].
  destruct (ostree_validate_structureof_file_mode _) as [u|e]; simpl; [|done].
  by destruct (fsck_compare_checksum _ _ _ _ _ _) as [[t d'] o].
Qed.

Lemma fsck_object_run checksum objtype d :
  fsck_object (checksum, objtype) d =
  if is_metadata objtype then fsck_metadata_object (checksum, objtype) d
  else if is_file objtype then fsck_file_object (checksum, objtype) d
  else ([], d, Done tt).
Proof. by destruct objtype. Qed.

Lemma recomputes_functional r key c1 t1 c2 t2 :
  recomputes r key c1 t1 -> recomputes r key c2 t2 -> c1 = c2 /\ t1 = t2.
Proof.
  destruct 1; inversion 1; subst; same_calls; try done.
  all: match goal with
       | H1 : is_metadata ?t = true, H2 : is_file ?t = true |- _ =>
           by destruct t
       end.
Qed.

Lemma fsck_object_step key d :
  object_step (repo d) key (trace_of (fsck_object key d)) (outcome_of (fsck_object key d))
  /\ data_of (fsck_object key d) = d.
Proof.
  destruct key as [checksum objtype]. rewrite fsck_object_run.
  unfold trace_of, data_of, outcome_of.
  destruct (is_metadata objtype) eqn:Hm; [|destruct (is_file objtype) eqn:Hf].
  - rewrite fsck_metadata_object_run by done.
    destruct (ostree_repo_load_variant _ _ _) as [metadata|e] eqn:Hload.
    2:{ split; [|done]. apply object_unreadable; [|by repeat constructor|by repeat constructor].
        intros computed t'. inversion 1; subst; same_calls;
          try congruence; by destruct objtype. }
    destruct (validate_structureof objtype metadata) as [[]|e] eqn:Hval.
    2:{ split; [|done]. apply object_unreadable; [|by repeat constructor|by repeat constructor].
        intros computed t'. inversion 1; subst; same_calls;
          try congruence; by destruct objtype. }
    rewrite fsck_compare_checksum_run.
    destruct (ostree_checksum_file_from_input _ _ _ _) as [computed|e] eqn:Hsum.
    2:{ split; [|done]. apply object_unreadable; [|by repeat constructor|by repeat constructor].
        intros computed t'. inversion 1; subst; same_calls;
          try congruence; by destruct objtype. }
    assert (recomputes (repo d) (checksum, objtype) computed
              [call_load_variant objtype checksum;
               call_validate_structureof objtype checksum;
               call_checksum_file_from_input objtype checksum]) as Hrec
      by (by econstructor).
    split; [|done]. simpl. case_bool_decide as Heq.
    + subst computed. by apply (object_verified _ _ _ Hrec).
    + by apply (object_corrupted _ _ _ _ Hrec).
  - rewrite fsck_file_object_run.
    destruct (ostree_repo_load_file _ _) as [[[input file_info] xattrs]|e] eqn:Hload.
    2:{ split; [|done]. apply object_unreadable; [|by repeat constructor|by repeat constructor].
        intros computed t'. inversion 1; subst; same_calls;
          try congruence; by destruct objtype. }
    cbv zeta.
    destruct (ostree_validate_structureof_file_mode _) as [[]|e] eqn:Hval.
    2:{ split; [|done]. apply object_unreadable; [|by repeat constructor|by repeat constructor].
        intros computed t'. inversion 1; subst; same_calls;
          try congruence; by destruct objtype. }
    rewrite fsck_compare_checksum_run.
    destruct (ostree_checksum_file_from_input _ _ _ _) as [computed|e] eqn:Hsum.
    2:{ split; [|done]. apply object_unreadable; [|by repeat constructor|by repeat constructor].
        intros computed t'. inversion 1; subst; same_calls;
          try congruence; by destruct objtype. }
    assert (recomputes (repo d) (checksum, objtype) computed
              [call_load_file checksum;
               call_validate_file_mode checksum
                 (g_file_info_get_attribute_uint32 file_info "unix::mode");
               call_checksum_file_from_input OSTREE_OBJECT_TYPE_RAW_FILE checksum]) as Hrec
      by (by econstructor).
    split; [|done]. simpl. case_bool_decide as Heq.
    + subst computed. by apply (object_verified _ _ _ Hrec).
    + by apply (object_corrupted _ _ _ _ Hrec).
  - split; [|done]. apply object_skipped. by destruct objtype.
Qed.

(** C6.  An [ARCHIVED_FILE_CONTENT] object is passed over without any
    call; a [RAW_FILE] and an [ARCHIVED_FILE_META] object are both loaded with
    [ostree_repo_load_file] and their checksum is computed with the type
    [RAW_FILE], so that on one checksum the two have the same verdict. *)
Theorem archived_content_skipped_files_share_domain (checksum : string) (d : OtFsckData) :
  fsck_object (checksum, OSTREE_OBJECT_TYPE_ARCHIVED_FILE_CONTENT) d = ([], d, Done tt)
  /\ fsck_object (checksum, OSTREE_OBJECT_TYPE_RAW_FILE) d
     = file_object_run checksum OSTREE_OBJECT_TYPE_RAW_FILE d
  /\ fsck_object (checksum, OSTREE_OBJECT_TYPE_ARCHIVED_FILE_META) d
     = file_object_run checksum OSTREE_OBJECT_TYPE_ARCHIVED_FILE_META d
  /\ (outcome_of (fsck_object (checksum, OSTREE_OBJECT_TYPE_RAW_FILE) d) = Done tt <->
      outcome_of (fsck_object (checksum, OSTREE_OBJECT_TYPE_ARCHIVED_FILE_META) d) = Done tt).
Proof.
  assert (forall objtype, is_file objtype = true ->
            fsck_object (checksum, objtype) d = file_object_run checksum objtype d) as Hrun.
  { intros objtype Hf. rewrite fsck_object_run.
    replace (is_metadata objtype) with false by (by destruct objtype).
    rewrite Hf, fsck_file_object_run. unfold file_object_run.
    destruct (ostree_repo_load_file _ _) as [[[input file_info] xattrs]|e]; [|done].
    cbv zeta. destruct (ostree_validate_structureof_file_mode _) as [u|e]; [|done].
    rewrite fsck_compare_checksum_run.
    by destruct (ostree_checksum_file_from_input _ _ _ _). }
  split; [done|]. rewrite !Hrun by done. split; [done|]. split; [done|].
  unfold file_object_run, outcome_of.
  destruct (ostree_repo_load_file _ _) as [[[input file_info] xattrs]|e]; [|done].
  cbv zeta. destruct (ostree_validate_structureof_file_mode _) as [u|e]; [|done].
  destruct (ostree_checksum_file_from_input _ _ _ _) as [computed|e]; [|done].
  simpl. by case_bool_decide.
Qed.

End ObjectProofs.

(** *** The loops *)

Section LoopProofs.
Context `{C : Collaborators}.

Lemma object_step_not_aborted r key t s : ~ object_step r key t (Aborted s).
Proof. inversion 1. Qed.

Lemma object_step_not_undefined r key t w : ~ object_step r key t (Undefined w).
Proof. inversion 1. Qed.

Lemma recomputes_events_about r key computed t :
  recomputes r key computed t -> Forall (event_about key) t.
Proof. destruct 1; repeat constructor. Qed.

Lemma fsck_objects_loop keys d :
  objects_run (repo d) keys (trace_of (for_each keys fsck_object d))
              (outcome_of (for_each keys fsck_object d))
  /\ data_of (for_each keys fsck_object d) = d.
Proof.
  induction keys as [|key keys [IH IHd]].
  - split; [|done]. apply (objects_run_done _ [] []). constructor.
  - simpl. unfold mbind, M_bind, bind.
    destruct (fsck_object_step key d) as [Hstep Hd].
    destruct (fsck_object key d) as [[t1 d1] o1].
    unfold trace_of, data_of, outcome_of in Hstep, Hd. simpl in Hstep, Hd. subst d1.
    destruct o1 as [[]|e|s|w].
    + destruct (for_each keys fsck_object d) as [[t2 d2] o2].
      unfold trace_of, data_of, outcome_of in *. simpl in *. split; [|done].
      inversion IH as [? ts Hall|pre ts key' t e post Hpre Hkey]; subst.
      * apply (objects_run_done _ (key :: keys) (t1 :: ts)). by constructor.
      * rewrite app_assoc.
        apply (objects_run_stop _ (key :: pre) (t1 :: ts)); [by constructor|done].
    + split; [|done]. apply (objects_run_stop _ [] []); [constructor|done].
    + by apply object_step_not_aborted in Hstep.
    + by apply object_step_not_undefined in Hstep.
Qed.

Lemma fsck_traverse_commit_run acc key d :
  fsck_traverse_commit acc key d =
  if bool_decide (snd key = OSTREE_OBJECT_TYPE_COMMIT) then
    ([call_traverse_commit (fst key)], d,
     match ostree_traverse_commit (repo d) (fst key) 0 acc with
     | Ok acc' => Done acc'
     | Fail e => Error e
     end)
  else ([], d, Aborted "objtype == OSTREE_OBJECT_TYPE_COMMIT").
Proof.
  destruct key as [checksum objtype]. unfold fsck_traverse_commit.
  cbn [ostree_object_name_deserialize fst snd]. unfold_M.
  case_bool_decide; simpl; [|done].
  by destruct (ostree_traverse_commit _ _ _ _).
Qed.

Lemma fsck_traverse_loop keys acc d :
  Forall (fun key => snd key = OSTREE_OBJECT_TYPE_COMMIT) keys ->
  exists t,
    fold_each keys acc fsck_traverse_commit d =
    (t, d, match traverse_commits (repo d) keys acc with
           | Ok reachable => Done reachable
           | Fail e => Error e
           end)
    /\ Forall is_traverse_call t.
Proof.
  intros Hkeys. revert acc. induction Hkeys as [|key keys Hkey _ IH]; intros acc.
  - exists []. by split.
  - simpl. unfold mbind, M_bind, bind. rewrite fsck_traverse_commit_run.
    rewrite bool_decide_eq_true_2 by done.
    destruct (ostree_traverse_commit _ _ _ _) as [acc'|e].
    + destruct (IH acc') as (t & -> & Ht). eexists. split; [done|].
      by constructor.
    + eexists. split; [done|]. by repeat constructor.
Qed.

(** The assertion of the first loop does stop a run whose table holds
    something else than a commit. *)
Lemma fsck_traverse_loop_asserts key keys acc d :
  snd key <> OSTREE_OBJECT_TYPE_COMMIT ->
  fold_each (key :: keys) acc fsck_traverse_commit d =
  ([], d, Aborted "objtype == OSTREE_OBJECT_TYPE_COMMIT").
Proof.
  intros Hkey. simpl. unfold mbind, M_bind, bind. rewrite fsck_traverse_commit_run.
  by rewrite bool_decide_eq_false_2.
Qed.

Lemma partition_step_elem commits key k :
  k ∈ partition_step commits key <->
  k ∈ commits \/
  (k = key /\ snd (ostree_object_name_deserialize key) = OSTREE_OBJECT_TYPE_COMMIT).
Proof.
  unfold partition_step. destruct key as [checksum objtype]. simpl.
  case_bool_decide; set_solver.
Qed.

Lemma partition_foldl_elem keys commits k :
  k ∈ foldl partition_step commits keys <->
  k ∈ commits \/
  (k ∈ keys /\ snd (ostree_object_name_deserialize k) = OSTREE_OBJECT_TYPE_COMMIT).
Proof.
  revert commits. induction keys as [|key keys IH]; intros commits; simpl.
  - set_solver.
  - rewrite IH, partition_step_elem. set_solver.
Qed.

Lemma elem_of_partition_commits objects k :
  k ∈ partition_commits objects <->
  k ∈ objects /\ snd (ostree_object_name_deserialize k) = OSTREE_OBJECT_TYPE_COMMIT.
Proof.
  unfold partition_commits. rewrite partition_foldl_elem, elem_of_elements. set_solver.
Qed.

Lemma partition_commits_all_commits objects :
  Forall (fun key => snd key = OSTREE_OBJECT_TYPE_COMMIT) (elements (partition_commits objects)).
Proof.
  apply Forall_forall. intros k Hk. apply elem_of_elements, elem_of_partition_commits in Hk.
  tauto.
Qed.

End LoopProofs.

(** *** The run as a whole *)

Section RunProofs.
Context `{C : Collaborators}.

Lemma fsck_reachable_run commits d :
  fsck_reachable_objects_from_commits commits d =
  match fold_each (elements commits) ∅ fsck_traverse_commit d with
  | (t1, d1, Done reachable) =>
      match for_each (elements reachable) fsck_object d1 with
      | (t2, d2, o) => (t1 ++ t2, d2, o)
      end
  | (t1, d1, Error e) => (t1, d1, Error e)
  | (t1, d1, Aborted s) => (t1, d1, Aborted s)
  | (t1, d1, Undefined w) => (t1, d1, Undefined w)
  end.
Proof. reflexivity. Qed.

Lemma fsck_run_run d :
  fsck_run d =
  match ostree_repo_check (repo d) with
  | Fail e => ([call_repo_check], d, Error e)
  | Ok _ =>
      match ostree_repo_list_objects (repo d) OSTREE_REPO_LIST_OBJECTS_ALL with
      | Fail e =>
          ([call_repo_check; g_print status_enumerating; call_list_objects], d, Error e)
      | Ok objects =>
          let commits := partition_commits objects in
          let head := [call_repo_check; g_print status_enumerating; call_list_objects;
                       g_print (status_content commits)] in
          match fsck_reachable_objects_from_commits commits d with
          | (t3, d3, Done _) =>
              match fsck_pack_files d3 with
              | (t4, d4, o) => (head ++ t3 ++ g_print status_packs :: t4, d4, o)
              end
          | (t3, d3, Error e) => (head ++ t3, d3, Error e)
          | (t3, d3, Aborted s) => (head ++ t3, d3, Aborted s)
          | (t3, d3, Undefined w) => (head ++ t3, d3, Undefined w)
          end
      end
  end.
Proof.
  unfold fsck_run. unfold mbind, M_bind, bind, get_data, call, emit, throw, mret, M_ret, ret.
  simpl.
  destruct (ostree_repo_check (repo d)) as [u|e]; simpl; [|done].
  destruct (ostree_repo_list_objects (repo d) _) as [objects|e]; simpl; [|done].
  destruct (fsck_reachable_objects_from_commits _ d) as [[t3 d3] [[]|e|s|w]]; simpl; try done.
  by destruct (fsck_pack_files d3) as [[t4 d4] o].
Qed.

(** The reachable-objects check in terms of the two loops. *)
Lemma fsck_reachable_from_partition objects d :
  exists t1,
    Forall is_traverse_call t1 /\
    fsck_reachable_objects_from_commits (partition_commits objects) d =
    match traverse_commits (repo d) (elements (partition_commits objects)) ∅ with
    | Fail e => (t1, d, Error e)
    | Ok reachable =>
        (t1 ++ trace_of (for_each (elements reachable) fsck_object d), d,
         outcome_of (for_each (elements reachable) fsck_object d))
    end.
Proof.
  destruct (fsck_traverse_loop (elements (partition_commits objects)) ∅ d
              (partition_commits_all_commits objects)) as (t1 & Hrun & Ht1).
  exists t1. split; [done|]. rewrite fsck_reachable_run, Hrun.
  destruct (traverse_commits _ _ _) as [reachable|e]; [|done].
  destruct (fsck_objects_loop (elements reachable) d) as [_ Hd].
  destruct (for_each (elements reachable) fsck_object d) as [[t2 d2] o].
  unfold data_of in Hd. simpl in Hd. by subst d2.
Qed.

End RunProofs.

Section TopProofs.
Context `{C : Collaborators}.

Lemma ostree_builtin_fsck_run argv repo_path :
  ostree_builtin_fsck argv repo_path =
  match g_option_context_parse options argv (mkGlobals false false) with
  | Fail e => mkRun [] (mkGlobals false false) None (Error e)
  | Ok g =>
      mkRun (trace_of (fsck_run (initial_data repo_path))) g
            (Some (data_of (fsck_run (initial_data repo_path))))
            (outcome_of (fsck_run (initial_data repo_path)))
  end.
Proof.
  unfold ostree_builtin_fsck, initial_data.
  destruct (g_option_context_parse _ _ _); [|done].
  by destruct (fsck_run _) as [[t d] o].
Qed.

(** A successful run, taken apart. *)
Lemma fsck_run_done d :
  outcome_of (fsck_run d) = Done tt ->
  exists objects reachable t1 t4,
    ostree_repo_check (repo d) = Ok tt /\
    ostree_repo_list_objects (repo d) OSTREE_REPO_LIST_OBJECTS_ALL = Ok objects /\
    traverse_commits (repo d) (elements (partition_commits objects)) ∅ = Ok reachable /\
    outcome_of (for_each (elements reachable) fsck_object d) = Done tt /\
    outcome_of (fsck_pack_files d) = Done tt /\
    Forall is_traverse_call t1 /\
    trace_of (fsck_run d) =
      [call_repo_check; g_print status_enumerating; call_list_objects;
       g_print (status_content (partition_commits objects))]
      ++ (t1 ++ trace_of (for_each (elements reachable) fsck_object d))
      ++ g_print status_packs :: t4 /\
    t4 = trace_of (fsck_pack_files d).
Proof.
  rewrite fsck_run_run.
  destruct (ostree_repo_check (repo d)) as [[]|e]; [|discriminate].
  destruct (ostree_repo_list_objects (repo d) _) as [objects|e]; [|discriminate].
  cbv zeta.
  destruct (fsck_reachable_from_partition objects d) as (t1 & Ht1 & ->).
  destruct (traverse_commits _ _ _) as [reachable|e] eqn:Htrav; [|discriminate].
  destruct (outcome_of (for_each (elements reachable) fsck_object d)) as [[]|e|s|w] eqn:Hloop;
    try discriminate.
  destruct (fsck_pack_files d) as [[t4 d4] o4] eqn:Hpack.
  unfold outcome_of, trace_of. simpl. intros ->.
  exists objects, reachable, t1, t4. by repeat split.
Qed.

Lemma objects_run_done_inv r keys t key :
  objects_run r keys t (Done tt) ->
  key ∈ keys ->
  exists tk, object_step r key tk (Done tt) /\ forall e, e ∈ tk -> e ∈ t.
Proof.
  inversion 1 as [? ts Hall|]; subst. clear H.
  induction Hall as [|k tk keys ts Hk _ IH]; intros Hin.
  - by apply elem_of_nil in Hin.
  - apply elem_of_cons in Hin as [->|Hin].
    + exists tk. split; [done|]. intros e He. simpl. apply elem_of_app. by left.
    + destruct (IH Hin) as (tk' & Hstep & Hsub). exists tk'. split; [done|].
      intros e He. simpl. apply elem_of_app. right. by apply Hsub.
Qed.

Lemma for_each_app {A} (l1 l2 : list A) (body : A -> M unit) d :
  for_each (l1 ++ l2) body d =
  match for_each l1 body d with
  | (t1, d1, Done _) =>
      match for_each l2 body d1 with
      | (t2, d2, o) => (t1 ++ t2, d2, o)
      end
  | (t1, d1, Error e) => (t1, d1, Error e)
  | (t1, d1, Aborted s) => (t1, d1, Aborted s)
  | (t1, d1, Undefined w) => (t1, d1, Undefined w)
  end.
Proof.
  revert d. induction l1 as [|x l1 IH]; intros d; simpl.
  - by destruct (for_each l2 body d) as [[t2 d2] o].
  - unfold mbind, M_bind, bind.
    destruct (body x d) as [[tx dx] [[]|e|s|w]]; try done.
    rewrite IH.
    destruct (for_each l1 body dx) as [[t1 d1] [[]|e|s|w]]; try done.
    destruct (for_each l2 body d1) as [[t2 d2] o].
    by rewrite app_assoc.
Qed.

Lemma fsck_object_mismatch key computed t d :
  recomputes (repo d) key computed t ->
  computed <> fst key ->
  fsck_object key d =
  (t ++ [compare_checksum key computed], d, Error (corrupted_object key computed)).
Proof.
  intros Hrec Hne.
  destruct (fsck_object_step key d) as [Hstep Hd].
  destruct (fsck_object key d) as [[t' d'] o].
  unfold trace_of, data_of, outcome_of in *. simpl in *. subst d'.
  inversion Hstep as [Hskip|t2 Hrec2|t2 c2 Hrec2 Hne2|t2 e Hno _]; subst.
  - destruct Hrec; simpl in Hskip; by subst.
  - by destruct (recomputes_functional _ _ _ _ _ _ Hrec Hrec2) as [-> _].
  - by destruct (recomputes_functional _ _ _ _ _ _ Hrec Hrec2) as [-> ->].
  - by destruct (Hno _ _ Hrec).
Qed.

Lemma object_step_events_about r key t o :
  object_step r key t o -> Forall (event_about key) t.
Proof.
  destruct 1 as [Hskip|t Hrec|t c Hrec Hne|t e Hno Hab Hnc]; try done.
  - apply Forall_app. split; [by eapply recomputes_events_about|]. by repeat constructor.
  - apply Forall_app. split; [by eapply recomputes_events_about|]. by repeat constructor.
Qed.


(** Every event of the second loop is a call about one of its keys. *)
Lemma fsck_objects_events keys d :
  Forall (fun e => exists k, k ∈ keys /\ event_about k e)
         (trace_of (for_each keys fsck_object d)).
Proof.
  revert d. induction keys as [|key keys IH]; intros d; simpl.
  - constructor.
  - unfold mbind, M_bind, bind.
    destruct (fsck_object_step key d) as [Hstep Hd].
    destruct (fsck_object key d) as [[t1 d1] o1].
    unfold trace_of, data_of, outcome_of in Hstep, Hd. simpl in Hstep, Hd. subst d1.
    apply object_step_events_about in Hstep.
    assert (Forall (fun e => exists k, k ∈ key :: keys /\ event_about k e) t1) as Hhead.
    { eapply Forall_impl; [done|]. intros e He. exists key. split; [left|done]. }
    destruct o1 as [[]|e|s|w]; try done.
    specialize (IH d).
    destruct (for_each keys fsck_object d) as [[t2 d2] o2].
    unfold trace_of in *. simpl in *. apply Forall_app. split; [done|].
    eapply Forall_impl; [done|]. intros e (k & Hk & He). exists k. split; [by right|done].
Qed.

Lemma fsck_objects_compare_events keys d k computed :
  compare_checksum k computed ∈ trace_of (for_each keys fsck_object d) -> k ∈ keys.
Proof.
  intros Hin. pose proof (fsck_objects_events keys d) as Hall.
  rewrite Forall_forall in Hall. destruct (Hall _ Hin) as (k' & Hk' & Habout).
  simpl in Habout. by subst.
Qed.

(** C4.  At the first object of the second loop whose checksum, computed
    again, differs from its name: the run returns the error naming the
    checksum, the type and the computed checksum; the failed comparison is
    the last event of the run; and none of the objects that were still to
    come is ever compared. *)
Theorem first_mismatch_halts (argv : list string) (repo_path : GFile)
    (g : Globals) (objects reachable : gset ObjectName)
    (pre post : list ObjectName) (key : ObjectName) (computed : string) (t : list Event) :
  g_option_context_parse options argv (mkGlobals false false) = Ok g ->
  ostree_repo_check (ostree_repo_new repo_path) = Ok tt ->
  ostree_repo_list_objects (ostree_repo_new repo_path) OSTREE_REPO_LIST_OBJECTS_ALL = Ok objects ->
  traverse_commits (ostree_repo_new repo_path)
    (elements (partition_commits objects)) ∅ = Ok reachable ->
  elements reachable = pre ++ key :: post ->
  Forall (fun k => outcome_of (fsck_object k (initial_data repo_path)) = Done tt) pre ->
  recomputes (ostree_repo_new repo_path) key computed t ->
  computed <> fst key ->
  let run := ostree_builtin_fsck argv repo_path in
  run_outcome run = Error (corrupted_object key computed) /\
  (exists before, run_trace run = before ++ t ++ [compare_checksum key computed]) /\
  (forall k c, k ∈ post -> compare_checksum k c ∉ run_trace run) /\
  call_list_pack_indexes ∉ run_trace run.
Proof.
  intros Hparse Hcheck Hlist Htrav Helems Hpre Hrec Hne run. subst run.
  rewrite ostree_builtin_fsck_run, Hparse. cbn [run_outcome run_trace].
  rewrite fsck_run_run.
  change (repo (initial_data repo_path)) with (ostree_repo_new repo_path).
  rewrite Hcheck, Hlist. cbv zeta.
  destruct (fsck_reachable_from_partition objects (initial_data repo_path))
    as (t1 & Ht1 & ->).
  change (repo (initial_data repo_path)) with (ostree_repo_new repo_path).
  rewrite Htrav, Helems.
  assert (exists tpre, for_each pre fsck_object (initial_data repo_path) =
                       (tpre, initial_data repo_path, Done tt)) as [tpre Hrunpre].
  { clear -Hpre. induction Hpre as [|k pre Hk _ [tpre IH]]; simpl.
    - by eexists.
    - unfold mbind, M_bind, bind.
      destruct (fsck_object_step k (initial_data repo_path)) as [_ Hd].
      destruct (fsck_object k (initial_data repo_path)) as [[tk dk] ok].
      unfold outcome_of, data_of in *. simpl in *. subst. rewrite IH. by eexists. }
  assert (for_each (pre ++ key :: post) fsck_object (initial_data repo_path) =
          (tpre ++ t ++ [compare_checksum key computed], initial_data repo_path,
           Error (corrupted_object key computed))) as Hloop.
  { rewrite for_each_app, Hrunpre. simpl. unfold mbind, M_bind, bind.
    by rewrite (fsck_object_mismatch key computed t). }
  rewrite Hloop. unfold trace_of, outcome_of. simpl.
  split; [done|]. split; [|split].
  - exists ([call_repo_check; g_print status_enumerating; call_list_objects;
             g_print (status_content (partition_commits objects))] ++ t1 ++ tpre).
    simpl. by rewrite <- !app_assoc.
  - intros k c Hk Hin.
    assert (compare_checksum k c ∈ tpre ++ t ++ [compare_checksum key computed]) as Hin'.
    { repeat (apply elem_of_cons in Hin as [Hin|Hin]; [discriminate|]).
      apply elem_of_app in Hin as [Hin|Hin]; [|done].
      rewrite Forall_forall in Ht1. by apply Ht1 in Hin. }
    assert (k ∈ pre ++ [key]) as Hk'.
    { apply (fsck_objects_compare_events _ (initial_data repo_path) k c).
      rewrite for_each_app, Hrunpre. simpl. unfold mbind, M_bind, bind.
      by rewrite (fsck_object_mismatch key computed t). }
    pose proof (NoDup_elements reachable) as Hnd. rewrite Helems in Hnd.
    apply NoDup_app in Hnd as (_ & Hdisj & Hnd2).
    apply NoDup_cons in Hnd2 as [Hkey _].
    apply elem_of_app in Hk' as [Hk'|Hk'].
    + apply (Hdisj _ Hk'). by right.
    + apply list_elem_of_singleton in Hk'. by subst.
  - intros Hin.
    repeat (apply elem_of_cons in Hin as [Hin|Hin]; [discriminate|]).
    apply elem_of_app in Hin as [Hin|Hin].
    { rewrite Forall_forall in Ht1. by apply Ht1 in Hin. }
    pose proof (fsck_objects_events (pre ++ key :: post) (initial_data repo_path)) as Hall.
    rewrite Hloop in Hall. rewrite Forall_forall in Hall.
    by destruct (Hall _ Hin) as (k & _ & Habout).
Qed.

End TopProofs.

(** *** Events and phases *)

Section PhaseProofs.
Context `{C : Collaborators}.

Lemma for_each_events {A} (P : Event -> Prop) (body : A -> M unit) l d :
  (forall x d', Forall P (trace_of (body x d'))) ->
  Forall P (trace_of (for_each l body d)).
Proof.
  intros Hbody. revert d. induction l as [|x l IH]; intros d; simpl.
  - constructor.
  - unfold mbind, M_bind, bind. specialize (Hbody x d).
    destruct (body x d) as [[t1 d1] [[]|e|s|w]]; try done.
    specialize (IH d1). destruct (for_each l body d1) as [[t2 d2] o].
    unfold trace_of in *. simpl in *. by apply Forall_app.
Qed.

Lemma pack_of_pack_event ev c : pack_of ev = Some c -> pack_event ev.
Proof. by destruct ev. Qed.

Lemma fsck_pack_files_events d : Forall pack_event (trace_of (fsck_pack_files d)).
Proof.
  rewrite fsck_pack_files_run.
  destruct (ostree_repo_list_pack_indexes (repo d)) as [packs|e]; [|by repeat constructor].
  unfold trace_of at 1. simpl. constructor; [done|].
  destruct d as [r n]. cbn [repo].
  destruct (fsck_pack_loop_pure r packs None) as (t & o & k & Hrun & Hof & _).
  rewrite (Hrun n). eapply Forall_impl; [exact Hof|].
  intros ev (c & _ & Hev). by eapply pack_of_pack_event.
Qed.

Lemma fsck_pack_files_not_aborted d s : outcome_of (fsck_pack_files d) <> Aborted s.
Proof.
  rewrite fsck_pack_files_run.
  destruct (ostree_repo_list_pack_indexes (repo d)) as [packs|e]; [|done].
  pose proof (fsck_pack_files_loop packs None d) as Hrun.
  change (outcome_of (_, _, ?o)) with o. by inversion Hrun.
Qed.






Lemma fsck_reachable_not_aborted objects d s :
  outcome_of (fsck_reachable_objects_from_commits (partition_commits objects) d)
  <> Aborted s.
Proof.
  destruct (fsck_reachable_from_partition objects d) as (t1 & Ht1 & ->).
  destruct (traverse_commits _ _ _) as [reachable|e]; [|done].
  destruct (fsck_objects_loop (elements reachable) d) as [Hrun _].
  change (outcome_of (_, _, ?o)) with o. by inversion Hrun.
Qed.






(** C8.  The table [commits] holds exactly the enumerated names of type
    commit, and no run of [ostree_builtin_fsck] ends in a failed assertion. *)
Theorem partition_keeps_exactly_commits :
  (forall (objects : gset ObjectName) (key : ObjectName),
     key ∈ partition_commits objects <->
     key ∈ objects /\
     snd (ostree_object_name_deserialize key) = OSTREE_OBJECT_TYPE_COMMIT)
  /\
  (forall (argv : list string) (repo_path : GFile) (s : string),
     run_outcome (ostree_builtin_fsck argv repo_path) <> Aborted s).
Proof.
  split; [apply elem_of_partition_commits|].
  intros argv repo_path s. rewrite ostree_builtin_fsck_run.
  destruct (g_option_context_parse _ _ _) as [g|err]; cbn [run_outcome]; [|done].
  rewrite fsck_run_run.
  destruct (ostree_repo_check _) as [[]|err]; [|done].
  destruct (ostree_repo_list_objects _ _) as [objects|err]; [|done].
  cbv zeta.
  pose proof (fsck_reachable_not_aborted objects (initial_data repo_path)) as Hnab.
  destruct (fsck_reachable_objects_from_commits _ _) as [[t3 d3] o3].
  unfold outcome_of in Hnab. simpl in Hnab.
  destruct o3 as [[]|err|s'|w]; [|done|by destruct (Hnab s')|done].
  pose proof (fsck_pack_files_not_aborted d3 s) as Hp.
  by destruct (fsck_pack_files d3) as [[t4 d4] o4].
Qed.

End PhaseProofs.

(** *** The flags and the status lines *)

Section FlagProofs.
Context `{C : Collaborators}.

(** The static flags are written by the parser and read by nothing: two
    command lines that parse give the same run. *)
Lemma flags_are_never_read argv1 argv2 g1 g2 repo_path :
  g_option_context_parse options argv1 (mkGlobals false false) = Ok g1 ->
  g_option_context_parse options argv2 (mkGlobals false false) = Ok g2 ->
  run_trace (ostree_builtin_fsck argv1 repo_path)
  = run_trace (ostree_builtin_fsck argv2 repo_path)
  /\ run_outcome (ostree_builtin_fsck argv1 repo_path)
     = run_outcome (ostree_builtin_fsck argv2 repo_path)
  /\ run_data (ostree_builtin_fsck argv1 repo_path)
     = run_data (ostree_builtin_fsck argv2 repo_path).
Proof. intros H1 H2. rewrite !ostree_builtin_fsck_run, H1, H2. done. Qed.

Lemma omap_printed_nil (P : Event -> Prop) (t : list Event) :
  (forall e, P e -> printed e = None) -> Forall P t -> omap printed t = [].
Proof.
  intros HP. induction 1 as [|e t He _ IH]; [done|].
  simpl. by rewrite (HP e He).
Qed.

(** A successful run prints the three status lines, one before each of
    enumeration, content verification and pack verification, whatever the
    flags. *)
Lemma status_lines_of_success argv repo_path :
  run_outcome (ostree_builtin_fsck argv repo_path) = Done tt ->
  exists objects,
    ostree_repo_list_objects (ostree_repo_new repo_path) OSTREE_REPO_LIST_OBJECTS_ALL
    = Ok objects /\
    stdout (ostree_builtin_fsck argv repo_path)
    = [status_enumerating; status_content (partition_commits objects); status_packs].
Proof.
  unfold stdout. rewrite ostree_builtin_fsck_run.
  destruct (g_option_context_parse _ _ _) as [g|e]; [|discriminate].
  cbn [run_outcome run_trace]. intros Hdone.
  destruct (fsck_run_done _ Hdone)
    as (objects & reachable & t1 & t4 & _ & Hlist & _ & _ & _ & Ht1 & -> & ->).
  exists objects. split; [done|].
  rewrite !omap_app. cbn [omap list_omap printed].
  rewrite (omap_printed_nil is_traverse_call t1) by (done || by intros []).
  rewrite (omap_printed_nil (fun e => exists k, k ∈ elements reachable /\ event_about k e))
    by (apply fsck_objects_events || by intros [] (k & _ & ?)).
  rewrite (omap_printed_nil pack_event) by (apply fsck_pack_files_events || by intros []).
  done.
Qed.

End FlagProofs.

(** *** The traversal *)

Module TraverseProofs.
Import Traverse.

Section Visit.
Context (store : gmap ObjectName Object) (file_type : OstreeObjectType).

Lemma sum_elements_remove (w : ObjectName -> nat) (X : gset ObjectName) n :
  n ∈ X ->
  sum_list_with w (elements X) = (w n + sum_list_with w (elements (X ∖ {[n]})))%nat.
Proof.
  intros Hn. assert (X = {[n]} ∪ X ∖ {[n]}) as HX.
  { apply set_eq. intros x. destruct (decide (x = n)); set_solver. }
  assert (elements X ≡ₚ n :: elements (X ∖ {[n]})) as Hp.
  { rewrite HX at 1. rewrite elements_disj_union; [|set_solver].
    by rewrite elements_singleton. }
  by rewrite Hp.
Qed.

Lemma sum_elements_subseteq (w : ObjectName -> nat) (X Y : gset ObjectName) :
  X ⊆ Y -> (sum_list_with w (elements X) <= sum_list_with w (elements Y))%nat.
Proof.
  intros Hsub. assert (Y = X ∪ Y ∖ X) as HY.
  { apply set_eq. intros x. destruct (decide (x ∈ X)); set_solver. }
  assert (elements Y ≡ₚ elements X ++ elements (Y ∖ X)) as Hp.
  { rewrite HY at 1. rewrite elements_disj_union; [done|set_solver]. }
  rewrite Hp, sum_list_with_app. lia.
Qed.

Lemma children_in_universe n cs c :
  children store file_type n = Ok cs -> c ∈ cs -> c ∈ universe store file_type.
Proof.
  intros Hcs Hc. unfold universe. apply elem_of_list_to_set, list_elem_of_bind.
  exists n. split.
  - right. unfold children_list. by rewrite Hcs.
  - apply elem_of_elements, elem_of_dom. unfold children in Hcs.
    destruct (snd n); try (simplify_eq; by apply elem_of_nil in Hc);
      destruct (store !! n); try done.
Qed.

(** The step budget of [ostree_traverse_commit] is never exhausted. *)
Lemma visit_enough_fuel fuel stack acc :
  (steps store file_type stack acc < fuel)%nat ->
  visit fuel store file_type stack acc <> None.
Proof.
  revert stack acc. induction fuel as [|fuel IH]; intros stack acc Hfuel; [lia|]. simpl.
  destruct stack as [|n rest]; [done|].
  unfold steps in Hfuel. simpl in Hfuel.
  destruct (decide (n ∈ acc)) as [Hin|Hnin].
  - apply IH. unfold steps.
    replace (pending store file_type rest acc) with (pending store file_type (n :: rest) acc);
      [lia|].
    unfold pending. apply set_eq. intros x. set_solver.
  - destruct (children store file_type n) as [cs|e] eqn:Hcs; [|done].
    apply IH. unfold steps. rewrite length_app.
    assert (n ∈ pending store file_type (n :: rest) acc) as Hn.
    { unfold pending. set_solver. }
    rewrite (sum_elements_remove _ _ n Hn) in Hfuel.
    assert (pending store file_type (cs ++ rest) ({[n]} ∪ acc)
            ⊆ pending store file_type (n :: rest) acc ∖ {[n]}) as Hsub.
    { unfold pending. intros x Hx.
      assert (x ∈ cs -> x ∈ universe store file_type)
        by (intros; by eapply children_in_universe).
      set_solver. }
    apply (sum_elements_subseteq (weight store file_type)) in Hsub.
    unfold weight at 1 in Hfuel. unfold children_list in Hfuel. rewrite Hcs in Hfuel.
    lia.
Qed.

(** A finished visit has everything it was asked to visit, and keeps what
    the accumulator had. *)
Lemma visit_ok fuel stack acc acc' :
  visit fuel store file_type stack acc = Some (Ok acc') ->
  acc ⊆ acc' /\ forall n, n ∈ stack -> n ∈ acc'.
Proof.
  revert stack acc. induction fuel as [|fuel IH]; intros stack acc; simpl; [done|].
  destruct stack as [|n rest].
  - intros [= ->]. split; [done|]. intros n Hn. by apply elem_of_nil in Hn.
  - destruct (decide (n ∈ acc)) as [Hin|Hnin].
    + intros Hv. destruct (IH _ _ Hv) as [Hsub Hrest]. split; [done|].
      intros m Hm. apply elem_of_cons in Hm as [->|Hm]; [by apply Hsub|by apply Hrest].
    + destruct (children store file_type n) as [cs|e]; [|done].
      intros Hv. destruct (IH _ _ Hv) as [Hsub Hrest]. split; [set_solver|].
      intros m Hm. apply elem_of_cons in Hm as [->|Hm]; [set_solver|].
      apply Hrest. apply elem_of_app. by right.
Qed.

(** Visiting what is already in the accumulator changes nothing. *)
Lemma visit_visited fuel stack acc :
  (length stack < fuel)%nat ->
  (forall n, n ∈ stack -> n ∈ acc) ->
  visit fuel store file_type stack acc = Some (Ok acc).
Proof.
  revert stack. induction fuel as [|fuel IH]; intros stack Hlen Hall; [lia|]. simpl.
  destruct stack as [|n rest]; [done|].
  rewrite decide_True by (apply Hall; left).
  apply IH; [simpl in Hlen; lia|]. intros m Hm. apply Hall. by right.
Qed.

(** [ostree_traverse_commit] returns what the visit returns: the case of
    an exhausted budget does not occur. *)
Lemma ostree_traverse_commit_total commit_checksum maxdepth acc :
  exists r,
    visit (S (S (steps store file_type [(commit_checksum, OSTREE_OBJECT_TYPE_COMMIT)] acc)))
          store file_type [(commit_checksum, OSTREE_OBJECT_TYPE_COMMIT)] acc = Some r
    /\ ostree_traverse_commit store file_type commit_checksum maxdepth acc = r.
Proof.
  unfold ostree_traverse_commit, ostree_object_name_serialize.
  destruct (visit _ store file_type _ acc) as [r|] eqn:Hvisit; [by exists r|].
  apply visit_enough_fuel in Hvisit; [done|lia].
Qed.

End Visit.

(** C7.  A second traversal of the same commit into the accumulator the
    first one returned adds nothing: it returns that accumulator. *)
Theorem traverse_commit_twice (store : gmap ObjectName Object)
    (file_type : OstreeObjectType) (commit_checksum : string) (maxdepth : Z)
    (acc acc' : gset ObjectName) :
  ostree_traverse_commit store file_type commit_checksum maxdepth acc = Ok acc' ->
  ostree_traverse_commit store file_type commit_checksum maxdepth acc' = Ok acc'.
Proof.
  unfold ostree_traverse_commit.
  destruct (visit _ store file_type _ acc) as [r|] eqn:Hvisit; [|done].
  intros ->. apply visit_ok in Hvisit as [_ Hroot].
  rewrite visit_visited; [done|simpl; lia|].
  intros n Hn. by apply Hroot.
Qed.

End TraverseProofs.

(** ** Further properties of the builtin

    Error paths, edge cases and orderings of the three functions, beyond
    the statements above. *)

(** The components of a run that is written out. *)
Ltac project_run :=
  repeat match goal with
  | |- context [trace_of (?t, ?d, ?o)] => change (trace_of (t, d, o)) with t
  | |- context [data_of (?t, ?d, ?o)] => change (data_of (t, d, o)) with d
  | |- context [outcome_of (?t, ?d, ?o)] => change (outcome_of (t, d, o)) with o
  end.

Section RunShape.
Context `{C : Collaborators}.

Lemma omap_none_Forall {A} (f : Event -> option A) (P : Event -> Prop) (t : list Event) :
  (forall e, P e -> f e = None) -> Forall P t -> omap f t = [].
Proof.
  intros HP. induction 1 as [|e t He _ IH]; [done|].
  simpl. by rewrite (HP e He).
Qed.

(** The events of a loop are events of its iterations. *)
Lemma for_each_events_of {A} (P : A -> Event -> Prop) (body : A -> M unit) l d :
  (forall x d', Forall (P x) (trace_of (body x d'))) ->
  Forall (fun e => exists x, x ∈ l /\ P x e) (trace_of (for_each l body d)).
Proof.
  intros Hbody. revert d. induction l as [|x l IH]; intros d; simpl.
  - constructor.
  - unfold mbind, M_bind, bind. specialize (Hbody x d).
    assert (Forall (fun e => exists y, y ∈ x :: l /\ P y e) (trace_of (body x d))) as Hx.
    { eapply Forall_impl; [done|]. intros e He. exists x. split; [left|done]. }
    destruct (body x d) as [[t1 d1] [[]|e|s|w]]; try done.
    specialize (IH d1). destruct (for_each l body d1) as [[t2 d2] o].
    unfold trace_of in *. simpl in *. apply Forall_app. split; [done|].
    eapply Forall_impl; [done|]. intros e (y & Hy & He). exists y. split; [by right|done].
Qed.

(** The first loop, call by call: every key up to the first failing
    traversal is traversed, in order. *)
Lemma fsck_traverse_loop_calls keys acc d :
  Forall (fun key => snd key = OSTREE_OBJECT_TYPE_COMMIT) keys ->
  match traverse_commits (repo d) keys acc with
  | Ok reachable =>
      fold_each keys acc fsck_traverse_commit d = (traverse_calls keys, d, Done reachable)
  | Fail e =>
      exists n,
        fold_each keys acc fsck_traverse_commit d = (traverse_calls (take n keys), d, Error e)
  end.
Proof.
  intros Hkeys. revert acc. induction Hkeys as [|key keys Hkey _ IH]; intros acc; [done|].
  cbn [traverse_commits fold_each]. unfold mbind, M_bind, bind.
  rewrite fsck_traverse_commit_run, bool_decide_eq_true_2 by done.
  destruct (ostree_traverse_commit _ _ _ _) as [acc'|e]; [|by exists 1%nat].
  specialize (IH acc'). destruct (traverse_commits _ _ _) as [reachable|e].
  - by rewrite IH.
  - destruct IH as [n IH]. exists (S n). by rewrite IH.
Qed.

Lemma traverse_calls_are_traverse_calls keys : Forall is_traverse_call (traverse_calls keys).
Proof. induction keys; by constructor. Qed.

Lemma traversed_traverse_calls keys : traversed (traverse_calls keys) = fst <$> keys.
Proof. induction keys as [|k keys IH]; [done|]. simpl. by f_equal. Qed.

(** [fsck_reachable_objects_from_commits] on the table that
    [ostree_builtin_fsck] builds, in terms of its two loops. *)
Lemma fsck_reachable_calls objects d :
  match traverse_commits (repo d) (elements (partition_commits objects)) ∅ with
  | Ok reachable =>
      fsck_reachable_objects_from_commits (partition_commits objects) d =
      (traverse_calls (elements (partition_commits objects))
         ++ trace_of (for_each (elements reachable) fsck_object d),
       d, outcome_of (for_each (elements reachable) fsck_object d))
  | Fail e =>
      exists n,
        fsck_reachable_objects_from_commits (partition_commits objects) d =
        (traverse_calls (take n (elements (partition_commits objects))), d, Error e)
  end.
Proof.
  pose proof (fsck_traverse_loop_calls (elements (partition_commits objects)) ∅ d
                (partition_commits_all_commits objects)) as Hloop.
  rewrite fsck_reachable_run.
  destruct (traverse_commits _ _ _) as [reachable|e].
  - rewrite Hloop. destruct (fsck_objects_loop (elements reachable) d) as [_ Hd].
    destruct (for_each (elements reachable) fsck_object d) as [[t2 d2] o].
    unfold data_of in Hd. simpl in Hd. by subst d2.
  - destruct Hloop as [n ->]. by exists n.
Qed.

(** The run once the enumeration has succeeded and every commit has been
    traversed. *)
Lemma fsck_run_traversed d objects reachable :
  ostree_repo_check (repo d) = Ok tt ->
  ostree_repo_list_objects (repo d) OSTREE_REPO_LIST_OBJECTS_ALL = Ok objects ->
  traverse_commits (repo d) (elements (partition_commits objects)) ∅ = Ok reachable ->
  fsck_run d =
  match outcome_of (for_each (elements reachable) fsck_object d) with
  | Done _ =>
      (run_head (partition_commits objects)
         ++ (traverse_calls (elements (partition_commits objects))
               ++ trace_of (for_each (elements reachable) fsck_object d))
         ++ g_print status_packs :: trace_of (fsck_pack_files d),
       data_of (fsck_pack_files d), outcome_of (fsck_pack_files d))
  | Error e =>
      (run_head (partition_commits objects)
         ++ traverse_calls (elements (partition_commits objects))
         ++ trace_of (for_each (elements reachable) fsck_object d),
       d, Error e)
  | Aborted s =>
      (run_head (partition_commits objects)
         ++ traverse_calls (elements (partition_commits objects))
         ++ trace_of (for_each (elements reachable) fsck_object d),
       d, Aborted s)
  | Undefined w =>
      (run_head (partition_commits objects)
         ++ traverse_calls (elements (partition_commits objects))
         ++ trace_of (for_each (elements reachable) fsck_object d),
       d, Undefined w)
  end.
Proof.
  intros Hcheck Hlist Htrav. rewrite fsck_run_run, Hcheck, Hlist. cbv zeta.
  pose proof (fsck_reachable_calls objects d) as Hreach. rewrite Htrav in Hreach.
  rewrite Hreach.
  destruct (outcome_of (for_each (elements reachable) fsck_object d)) as [[]|e|s|w]; try done.
  by destruct (fsck_pack_files d) as [[t4 d4] o4].
Qed.

Lemma fsck_run_traversal_failed d objects e :
  ostree_repo_check (repo d) = Ok tt ->
  ostree_repo_list_objects (repo d) OSTREE_REPO_LIST_OBJECTS_ALL = Ok objects ->
  traverse_commits (repo d) (elements (partition_commits objects)) ∅ = Fail e ->
  exists n,
    fsck_run d =
    (run_head (partition_commits objects)
       ++ traverse_calls (take n (elements (partition_commits objects))),
     d, Error e).
Proof.
  intros Hcheck Hlist Htrav. rewrite fsck_run_run, Hcheck, Hlist. cbv zeta.
  pose proof (fsck_reachable_calls objects d) as Hreach. rewrite Htrav in Hreach.
  destruct Hreach as [n ->]. by exists n.
Qed.

(** *** One object, and the loop over the reachable objects *)

Lemma fsck_object_done_iff key d :
  outcome_of (fsck_object key d) = Done tt <->
  snd key = OSTREE_OBJECT_TYPE_ARCHIVED_FILE_CONTENT
  \/ exists t, recomputes (repo d) key (fst key) t.
Proof.
  destruct (fsck_object_step key d) as [Hstep _]. split.
  - intros Hdone. rewrite Hdone in Hstep.
    inversion Hstep as [Hskip|t Hrec| |]; subst; [by left|right; by exists t].
  - intros [Hskip|[t Hrec]].
    + destruct key as [checksum objtype]. simpl in Hskip. by subst objtype.
    + destruct (outcome_of (fsck_object key d)) as [[]|e|s|w]; [done| | |].
      * inversion Hstep as [| |t' computed Hrec' Hne|t' e' Hno]; subst.
        -- by destruct (recomputes_functional _ _ _ _ _ _ Hrec Hrec') as [<- _].
        -- by destruct (Hno _ _ Hrec).
      * by apply object_step_not_aborted in Hstep.
      * by apply object_step_not_undefined in Hstep.
Qed.

Lemma fsck_objects_done_iff keys d :
  outcome_of (for_each keys fsck_object d) = Done tt <->
  forall k, k ∈ keys -> outcome_of (fsck_object k d) = Done tt.
Proof.
  induction keys as [|key keys IH].
  - split; [|done]. intros _ k Hk. by apply elem_of_nil in Hk.
  - simpl. unfold mbind, M_bind, bind.
    destruct (fsck_object_step key d) as [_ Hd].
    destruct (fsck_object key d) as [[t1 d1] o1] eqn:Hkey.
    unfold data_of in Hd. simpl in Hd. subst d1.
    destruct o1 as [[]|e|s|w].
    + destruct (for_each keys fsck_object d) as [[t2 d2] o2].
      unfold outcome_of in *. simpl in *. rewrite IH. split.
      * intros Hall k Hk. apply elem_of_cons in Hk as [->|Hk]; [by rewrite Hkey|by apply Hall].
      * intros Hall k Hk. apply Hall. by right.
    + unfold outcome_of. simpl. split; [discriminate|].
      intros Hall. specialize (Hall key). rewrite Hkey in Hall. simpl in Hall.
      discriminate Hall. left.
    + unfold outcome_of. simpl. split; [discriminate|].
      intros Hall. specialize (Hall key). rewrite Hkey in Hall. simpl in Hall.
      discriminate Hall. left.
    + unfold outcome_of. simpl. split; [discriminate|].
      intros Hall. specialize (Hall key). rewrite Hkey in Hall. simpl in Hall.
      discriminate Hall. left.
Qed.

End RunShape.

(** *** Success and output of [ostree_builtin_fsck] *)

Section WholeRun.
Context `{C : Collaborators}.

Lemma stdout_traverse_calls keys : omap printed (traverse_calls keys) = [].
Proof.
  apply (omap_none_Forall printed is_traverse_call); [by intros []|].
  apply traverse_calls_are_traverse_calls.
Qed.

Lemma stdout_objects_loop keys d : omap printed (trace_of (for_each keys fsck_object d)) = [].
Proof.
  apply (omap_none_Forall printed (fun e => exists k, k ∈ keys /\ event_about k e)).
  - by intros [] (k & _ & ?).
  - apply fsck_objects_events.
Qed.

Lemma stdout_pack_files d : omap printed (trace_of (fsck_pack_files d)) = [].
Proof.
  apply (omap_none_Forall printed pack_event); [by intros []|apply fsck_pack_files_events].
Qed.

(** X1.  [ostree_builtin_fsck] returns success exactly when the options
    parse, the repository check passes, the objects can be enumerated, every
    enumerated commit can be traversed, every object of the reachable set
    other than the [ARCHIVED_FILE_CONTENT] ones loads, validates and hashes
    to its name, the pack indexes can be listed and every listed pack
    verifies. *)
Theorem fsck_success_criterion (argv : list string) (repo_path : GFile) :
  run_outcome (ostree_builtin_fsck argv repo_path) = Done tt <->
  (exists g, g_option_context_parse options argv (mkGlobals false false) = Ok g) /\
  ostree_repo_check (ostree_repo_new repo_path) = Ok tt /\
  exists objects reachable packs,
    ostree_repo_list_objects (ostree_repo_new repo_path) OSTREE_REPO_LIST_OBJECTS_ALL
    = Ok objects /\
    traverse_commits (ostree_repo_new repo_path)
      (elements (partition_commits objects)) ∅ = Ok reachable /\
    (forall key,
       key ∈ reachable ->
       snd key <> OSTREE_OBJECT_TYPE_ARCHIVED_FILE_CONTENT ->
       exists t, recomputes (ostree_repo_new repo_path) key (fst key) t) /\
    ostree_repo_list_pack_indexes (ostree_repo_new repo_path) = Ok packs /\
    forall c, c ∈ packs -> pack_verifies (ostree_repo_new repo_path) c.
Proof.
  rewrite ostree_builtin_fsck_run. split.
  - destruct (g_option_context_parse _ _ _) as [g|e]; [|discriminate].
    cbn [run_outcome]. intros Hdone.
    destruct (fsck_run_done _ Hdone)
      as (objects & reachable & t1 & t4 & Hcheck & Hlist & Htrav & Hloop & Hpacks & _).
    change (repo (initial_data repo_path)) with (ostree_repo_new repo_path) in *.
    split; [by exists g|]. split; [done|].
    rewrite fsck_pack_files_run in Hpacks.
    change (repo (initial_data repo_path)) with (ostree_repo_new repo_path) in *.
    destruct (ostree_repo_list_pack_indexes _) as [packs|e] eqn:Hpl; [|discriminate].
    exists objects, reachable, packs. repeat split; try done.
    + intros key Hkey Hnot.
      rewrite fsck_objects_done_iff in Hloop.
      specialize (Hloop key). rewrite fsck_object_done_iff in Hloop.
      destruct Hloop as [?|Hrec]; [by apply elem_of_elements|done|done].
    + pose proof (fsck_pack_files_loop packs None (initial_data repo_path)) as Hrun.
      by apply (packs_run_done_iff _ _ _ _ _ Hrun).
  - intros ([g Hparse] & Hcheck & objects & reachable & packs
            & Hlist & Htrav & Hobjects & Hpl & Hpacks).
    rewrite Hparse. cbn [run_outcome].
    rewrite (fsck_run_traversed _ objects reachable) by done.
    assert (outcome_of (for_each (elements reachable) fsck_object (initial_data repo_path))
            = Done tt) as ->.
    { apply fsck_objects_done_iff. intros k Hk. apply elem_of_elements in Hk.
      apply fsck_object_done_iff.
      destruct (decide (snd k = OSTREE_OBJECT_TYPE_ARCHIVED_FILE_CONTENT)); [by left|].
      right. by apply Hobjects. }
    change (outcome_of (_, _, ?o)) with o.
    rewrite fsck_pack_files_run.
    change (repo (initial_data repo_path)) with (ostree_repo_new repo_path).
    rewrite Hpl. change (outcome_of (_, _, ?o)) with o.
    pose proof (fsck_pack_files_loop packs None (initial_data repo_path)) as Hrun.
    by apply (packs_run_done_iff _ _ _ _ _ Hrun).
Qed.

(** X2.  The status lines [ostree_builtin_fsck] passes to [g_print] tell
    how far it got: none when the option parser or the repository check
    returns failure, the first when the enumeration fails, the first two
    when a traversal or an object fails, and all three once the content
    verification has passed, whatever the packs.  The builtin itself prints
    nothing else; what the option parser writes on its own, such as the
    usage text of a help option, is not among its calls of [g_print].  The
    errors the parser, the repository check and the enumeration return are
    passed on as they are. *)
Theorem stdout_tells_how_far_the_run_got (argv : list string) (repo_path : GFile) :
  let run := ostree_builtin_fsck argv repo_path in
  match g_option_context_parse options argv (mkGlobals false false) with
  | Fail e => stdout run = [] /\ run_outcome run = Error e
  | Ok _ =>
      match ostree_repo_check (ostree_repo_new repo_path) with
      | Fail e => stdout run = [] /\ run_outcome run = Error e
      | Ok _ =>
          match ostree_repo_list_objects (ostree_repo_new repo_path)
                  OSTREE_REPO_LIST_OBJECTS_ALL with
          | Fail e => stdout run = [status_enumerating] /\ run_outcome run = Error e
          | Ok objects =>
              match outcome_of (fsck_reachable_objects_from_commits
                                  (partition_commits objects) (initial_data repo_path)) with
              | Done _ =>
                  stdout run = [status_enumerating;
                                status_content (partition_commits objects); status_packs]
              | _ =>
                  stdout run = [status_enumerating;
                                status_content (partition_commits objects)]
              end
          end
      end
  end.
Proof.
  cbv zeta. unfold stdout. rewrite ostree_builtin_fsck_run.
  destruct (g_option_context_parse _ _ _) as [g|e]; [|done].
  cbn [run_trace run_outcome]. rewrite fsck_run_run.
  change (repo (initial_data repo_path)) with (ostree_repo_new repo_path).
  destruct (ostree_repo_check _) as [[]|e]; [|done].
  destruct (ostree_repo_list_objects _ _) as [objects|e]; [|done].
  cbv zeta.
  pose proof (fsck_reachable_calls objects (initial_data repo_path)) as Hreach.
  change (repo (initial_data repo_path)) with (ostree_repo_new repo_path) in Hreach.
  assert (omap printed (trace_of (fsck_reachable_objects_from_commits
                                    (partition_commits objects) (initial_data repo_path)))
          = []) as Hquiet.
  { destruct (traverse_commits _ _ _) as [reachable|e].
    - rewrite Hreach. unfold trace_of at 1. cbn [fst snd].
      by rewrite omap_app, stdout_traverse_calls, stdout_objects_loop.
    - destruct Hreach as [n ->]. unfold trace_of. cbn [fst snd].
      apply stdout_traverse_calls. }
  destruct (fsck_reachable_objects_from_commits _ _) as [[t3 d3] o3].
  unfold trace_of in Hquiet. cbn [fst snd] in Hquiet.
  unfold outcome_of at 1. cbn [snd].
  destruct o3 as [[]|e|s|w].
  - pose proof (stdout_pack_files d3) as Hpacks.
    destruct (fsck_pack_files d3) as [[t4 d4] o4].
    unfold trace_of in *. cbn [fst snd] in *.
    rewrite !omap_app. cbn [omap list_omap printed]. by rewrite Hquiet, Hpacks.
  - unfold trace_of. cbn [fst snd]. rewrite !omap_app. cbn [omap list_omap printed].
    by rewrite Hquiet.
  - unfold trace_of. cbn [fst snd]. rewrite !omap_app. cbn [omap list_omap printed].
    by rewrite Hquiet.
  - unfold trace_of. cbn [fst snd]. rewrite !omap_app. cbn [omap list_omap printed].
    by rewrite Hquiet.
Qed.

End WholeRun.

(** *** Which objects [fsck_reachable_objects_from_commits] touches *)

Section ContentVerification.
Context `{C : Collaborators}.

Lemma recomputes_no_compare r key computed t :
  recomputes r key computed t -> compared t = [].
Proof. by destruct 1. Qed.

Lemma compared_traverse_calls keys : compared (traverse_calls keys) = [].
Proof.
  apply (omap_none_Forall _ is_traverse_call); [by intros []|].
  apply traverse_calls_are_traverse_calls.
Qed.

Lemma compared_pack_files d : compared (trace_of (fsck_pack_files d)) = [].
Proof.
  apply (omap_none_Forall _ pack_event); [by intros []|apply fsck_pack_files_events].
Qed.

Lemma traversed_objects_loop keys d : traversed (trace_of (for_each keys fsck_object d)) = [].
Proof.
  apply (omap_none_Forall _ (fun e => exists k, k ∈ keys /\ event_about k e)).
  - by intros [] (k & _ & ?).
  - apply fsck_objects_events.
Qed.

Lemma traversed_pack_files d : traversed (trace_of (fsck_pack_files d)) = [].
Proof.
  apply (omap_none_Forall _ pack_event); [by intros []|apply fsck_pack_files_events].
Qed.

(** X4.  When no traversal fails, every enumerated commit is handed to
    [ostree_traverse_commit] exactly once, in the order of the table
    [commits], and nothing else is: that holds whether the objects and the
    packs then verify or not. *)
Theorem every_enumerated_commit_is_traversed_once (argv : list string) (repo_path : GFile)
    (g : Globals) (objects reachable : gset ObjectName) :
  g_option_context_parse options argv (mkGlobals false false) = Ok g ->
  ostree_repo_check (ostree_repo_new repo_path) = Ok tt ->
  ostree_repo_list_objects (ostree_repo_new repo_path) OSTREE_REPO_LIST_OBJECTS_ALL
  = Ok objects ->
  traverse_commits (ostree_repo_new repo_path)
    (elements (partition_commits objects)) ∅ = Ok reachable ->
  let calls := traversed (run_trace (ostree_builtin_fsck argv repo_path)) in
  calls = fst <$> elements (partition_commits objects)
  /\ NoDup calls
  /\ forall checksum,
       checksum ∈ calls <-> (checksum, OSTREE_OBJECT_TYPE_COMMIT) ∈ objects.
Proof.
  intros Hparse Hcheck Hlist Htrav calls.
  assert (calls = fst <$> elements (partition_commits objects)) as Hcalls.
  { subst calls. rewrite ostree_builtin_fsck_run, Hparse. cbn [run_trace].
    rewrite (fsck_run_traversed _ objects reachable) by done.
    destruct (outcome_of (for_each _ _ _)) as [[]|e|s|w]; unfold trace_of at 1; cbn [fst snd];
      unfold traversed; rewrite !omap_app; fold (traversed);
      cbn [omap list_omap run_head]; fold (traversed);
      rewrite traversed_traverse_calls, traversed_objects_loop, ?traversed_pack_files;
      by rewrite ?app_nil_r. }
  split; [done|]. rewrite Hcalls. split.
  - apply NoDup_fmap_2_strong; [|apply NoDup_elements].
    intros [c1 t1] [c2 t2] H1 H2 Heq. simpl in Heq. subst c2.
    apply elem_of_elements, elem_of_partition_commits in H1 as [_ H1].
    apply elem_of_elements, elem_of_partition_commits in H2 as [_ H2].
    simpl in H1, H2. by subst.
  - intros checksum. rewrite list_elem_of_fmap. split.
    + intros ([c t] & -> & Hk).
      apply elem_of_elements, elem_of_partition_commits in Hk as [Hk Ht].
      simpl in Ht. by subst t.
    + intros Hin. exists (checksum, OSTREE_OBJECT_TYPE_COMMIT). split; [done|].
      by apply elem_of_elements, elem_of_partition_commits.
Qed.

Lemma partition_commits_empty objects :
  (forall k, k ∈ objects -> snd k <> OSTREE_OBJECT_TYPE_COMMIT) ->
  partition_commits objects = ∅.
Proof.
  intros Hno. apply set_eq. intros k. rewrite elem_of_partition_commits.
  split; [|by intros ?%elem_of_empty]. intros [Hk Ht]. by destruct (Hno k Hk).
Qed.

(** X5.  A repository that holds no commit object has none of its objects
    checked: whatever else was enumerated, no traversal is made, no object
    is loaded, and the run is the status lines followed by the pack
    verification, whose outcome it returns. *)
Theorem repository_without_commits_checks_no_object (argv : list string)
    (repo_path : GFile) (g : Globals) (objects : gset ObjectName) :
  g_option_context_parse options argv (mkGlobals false false) = Ok g ->
  ostree_repo_check (ostree_repo_new repo_path) = Ok tt ->
  ostree_repo_list_objects (ostree_repo_new repo_path) OSTREE_REPO_LIST_OBJECTS_ALL
  = Ok objects ->
  (forall key, key ∈ objects -> snd key <> OSTREE_OBJECT_TYPE_COMMIT) ->
  run_trace (ostree_builtin_fsck argv repo_path)
  = [call_repo_check; g_print status_enumerating; call_list_objects;
     g_print (status_content ∅); g_print status_packs]
    ++ trace_of (fsck_pack_files (initial_data repo_path))
  /\ run_outcome (ostree_builtin_fsck argv repo_path)
     = outcome_of (fsck_pack_files (initial_data repo_path)).
Proof.
  intros Hparse Hcheck Hlist Hno.
  rewrite ostree_builtin_fsck_run, Hparse. cbn [run_trace run_outcome].
  assert (traverse_commits (ostree_repo_new repo_path)
            (elements (partition_commits objects)) ∅ = Ok ∅) as Htrav.
  { by rewrite (partition_commits_empty objects Hno), elements_empty. }
  rewrite (fsck_run_traversed _ objects ∅) by done.
  rewrite (partition_commits_empty objects Hno), !elements_empty. done.
Qed.

(** X6.  When the traversal of a commit fails, the run returns the error
    of [ostree_traverse_commit] after the second status line: no object has
    been loaded, validated or hashed, and no pack has been looked at. *)
Theorem failed_traversal_stops_before_any_object (argv : list string) (repo_path : GFile)
    (g : Globals) (objects : gset ObjectName) (e : GError) :
  g_option_context_parse options argv (mkGlobals false false) = Ok g ->
  ostree_repo_check (ostree_repo_new repo_path) = Ok tt ->
  ostree_repo_list_objects (ostree_repo_new repo_path) OSTREE_REPO_LIST_OBJECTS_ALL
  = Ok objects ->
  traverse_commits (ostree_repo_new repo_path)
    (elements (partition_commits objects)) ∅ = Fail e ->
  let run := ostree_builtin_fsck argv repo_path in
  run_outcome run = Error e
  /\ Forall (fun ev => ~ object_event ev /\ ~ pack_event ev) (run_trace run)
  /\ stdout run = [status_enumerating; status_content (partition_commits objects)].
Proof.
  intros Hparse Hcheck Hlist Htrav run. subst run. unfold stdout.
  rewrite ostree_builtin_fsck_run, Hparse. cbn [run_trace run_outcome].
  destruct (fsck_run_traversal_failed (initial_data repo_path) objects e Hcheck Hlist Htrav)
    as [n ->].
  unfold trace_of, outcome_of. cbn [fst snd]. split; [done|]. split.
  - apply Forall_app. split; [repeat constructor; by intros []|].
    eapply Forall_impl; [apply traverse_calls_are_traverse_calls|].
    intros [] Ht; try done. split; intros [].
  - rewrite omap_app, stdout_traverse_calls. done.
Qed.

Lemma fsck_object_events_of key d :
  Forall (event_of_object key) (trace_of (fsck_object key d)).
Proof.
  destruct key as [checksum objtype]. rewrite fsck_object_run.
  destruct (is_metadata objtype) eqn:Hm; [|destruct (is_file objtype) eqn:Hf].
  - assert (is_file objtype = false) as Hf by (by destruct objtype).
    assert (objtype <> OSTREE_OBJECT_TYPE_ARCHIVED_FILE_CONTENT) as Hna
      by (by destruct objtype).
    rewrite fsck_metadata_object_run by done.
    destruct (ostree_repo_load_variant _ _ _) as [metadata|e];
      [|by repeat constructor].
    destruct (validate_structureof objtype metadata) as [[]|e];
      [|by repeat constructor].
    rewrite fsck_compare_checksum_run.
    destruct (ostree_checksum_file_from_input _ _ _ _) as [computed|e];
      unfold trace_of; cbn [fst snd]; repeat constructor; simpl; by rewrite ?Hf.
  - assert (objtype <> OSTREE_OBJECT_TYPE_ARCHIVED_FILE_CONTENT) as Hna
      by (by destruct objtype).
    rewrite fsck_file_object_run.
    destruct (ostree_repo_load_file _ _) as [[[input file_info] xattrs]|e];
      [|by repeat constructor].
    cbv zeta. destruct (ostree_validate_structureof_file_mode _) as [[]|e];
      [|by repeat constructor].
    rewrite fsck_compare_checksum_run.
    destruct (ostree_checksum_file_from_input _ _ _ _) as [computed|e];
      unfold trace_of; cbn [fst snd]; repeat constructor; simpl; by rewrite ?Hf.
  - constructor.
Qed.

Lemma event_of_object_within (reachable : gset ObjectName) key e :
  key ∈ reachable -> event_of_object key e -> within_reachable reachable e.
Proof.
  intros Hkey. destruct key as [checksum objtype].
  destruct e; simpl; try done.
  - by intros [[= -> ->] ?].
  - by intros [[= -> ->] ?].
  - intros [-> Hf]. exists objtype. split; [done|]. by destruct objtype.
  - intros [-> Hf]. exists objtype. split; [done|]. by destruct objtype.
  - intros (-> & _ & Hna). by exists objtype.
  - by intros [-> ?].
Qed.

(** Once the enumeration and the traversals have succeeded, every call
    of the run about an object is about a member of the reachable set. *)
Lemma fsck_run_within_reachable d objects reachable :
  ostree_repo_list_objects (repo d) OSTREE_REPO_LIST_OBJECTS_ALL = Ok objects ->
  traverse_commits (repo d) (elements (partition_commits objects)) ∅ = Ok reachable ->
  Forall (within_reachable reachable) (trace_of (fsck_run d)).
Proof.
  intros Hlist Htrav.
  destruct (ostree_repo_check (repo d)) as [[]|err] eqn:Hcheck.
  2:{ rewrite fsck_run_run, Hcheck. by repeat constructor. }
  rewrite (fsck_run_traversed _ objects reachable) by done.
  assert (Forall (within_reachable reachable) (run_head (partition_commits objects)))
    as Hhead by (by repeat constructor).
  assert (Forall (within_reachable reachable)
            (traverse_calls (elements (partition_commits objects)))) as Hcalls.
  { eapply Forall_impl; [apply traverse_calls_are_traverse_calls|]. by intros []. }
  assert (Forall (within_reachable reachable)
            (trace_of (for_each (elements reachable) fsck_object d)))
    as Hloop.
  { eapply Forall_impl.
    - apply (for_each_events_of event_of_object). intros. apply fsck_object_events_of.
    - intros ev (k & Hk & Hev). apply elem_of_elements in Hk.
      by eapply event_of_object_within. }
  assert (Forall (within_reachable reachable) (trace_of (fsck_pack_files d))) as Hpacks.
  { eapply Forall_impl; [apply fsck_pack_files_events|]. by intros []. }
  destruct (outcome_of (for_each _ _ _)) as [[]|err|s|w]; unfold trace_of at 1;
    cbn [fst snd]; rewrite ?Forall_app, ?Forall_cons; repeat split; done.
Qed.

(** X7.  The builtin loads, validates, hashes and compares objects of the
    reachable set only: every such call of a run is about a name that the
    traversals of the enumerated commits put into [reachable_objects], a
    variant is loaded only under a metadata type, and nothing is done
    under the type [ARCHIVED_FILE_CONTENT]. *)
Theorem only_reachable_objects_are_touched (argv : list string) (repo_path : GFile)
    (objects reachable : gset ObjectName) (e : Event) :
  ostree_repo_list_objects (ostree_repo_new repo_path) OSTREE_REPO_LIST_OBJECTS_ALL
  = Ok objects ->
  traverse_commits (ostree_repo_new repo_path)
    (elements (partition_commits objects)) ∅ = Ok reachable ->
  e ∈ run_trace (ostree_builtin_fsck argv repo_path) ->
  within_reachable reachable e.
Proof.
  intros Hlist Htrav. revert e. apply Forall_forall.
  rewrite ostree_builtin_fsck_run.
  destruct (g_option_context_parse _ _ _) as [g|err]; cbn [run_trace]; [|constructor].
  by apply (fsck_run_within_reachable _ objects).
Qed.

(** C2 (amended).  If [ostree_builtin_fsck] returns success, then every
    object of the reachable set built from the enumerated commits, other
    than the [ARCHIVED_FILE_CONTENT] ones, was loaded, validated and had
    its checksum computed again and found equal to its name, and the calls
    made for it are in the trace of the run.  The other enumerated objects
    are not verified: every load, validation and hash of the run is made
    for a member of the reachable set and under another type than
    [ARCHIVED_FILE_CONTENT], and an enumerated object that is not in the
    reachable set, or is of type [ARCHIVED_FILE_CONTENT], is never compared
    with its name. *)
Theorem success_checks_reachable_objects (argv : list string) (repo_path : GFile) :
  run_outcome (ostree_builtin_fsck argv repo_path) = Done tt ->
  exists objects reachable,
    ostree_repo_list_objects (ostree_repo_new repo_path) OSTREE_REPO_LIST_OBJECTS_ALL
    = Ok objects /\
    traverse_commits (ostree_repo_new repo_path)
      (elements (partition_commits objects)) ∅ = Ok reachable /\
    (forall key,
       key ∈ reachable ->
       snd key <> OSTREE_OBJECT_TYPE_ARCHIVED_FILE_CONTENT ->
       exists t,
         recomputes (ostree_repo_new repo_path) key (fst key) t /\
         (forall e, e ∈ t -> e ∈ run_trace (ostree_builtin_fsck argv repo_path)) /\
         compare_checksum key (fst key) ∈ run_trace (ostree_builtin_fsck argv repo_path)) /\
    (forall e,
       e ∈ run_trace (ostree_builtin_fsck argv repo_path) ->
       within_reachable reachable e) /\
    (forall key computed,
       key ∈ objects ->
       key ∉ reachable \/ snd key = OSTREE_OBJECT_TYPE_ARCHIVED_FILE_CONTENT ->
       compare_checksum key computed ∉ run_trace (ostree_builtin_fsck argv repo_path)).
Proof.
  rewrite ostree_builtin_fsck_run.
  destruct (g_option_context_parse _ _ _) as [g|e]; [|discriminate].
  cbn [run_outcome run_trace]. intros Hdone.
  destruct (fsck_run_done _ Hdone)
    as (objects & reachable & t1 & t4 & _ & Hlist & Htrav & Hloop & _ & _ & Htrace & _).
  pose proof (fsck_run_within_reachable _ objects reachable Hlist Htrav) as Hwithin.
  rewrite Forall_forall in Hwithin.
  exists objects, reachable. split; [done|]. split; [done|]. split; [|split].
  - intros key Hkey Hnot. rewrite Htrace.
    destruct (fsck_objects_loop (elements reachable) (initial_data repo_path)) as [Hrun _].
    rewrite Hloop in Hrun.
    destruct (objects_run_done_inv _ _ _ key Hrun) as (tk & Hstep & Hsub).
    { by apply elem_of_elements. }
    inversion Hstep as [Hskip|t Hrec| |]; subst; [done|].
    exists t. split; [done|].
    assert (forall e, e ∈ t ++ [compare_checksum key key.1] ->
            e ∈ [call_repo_check; g_print status_enumerating; call_list_objects;
                 g_print (status_content (partition_commits objects))]
                ++ (t1 ++ trace_of (for_each (elements reachable) fsck_object
                                      (initial_data repo_path)))
                ++ g_print status_packs :: t4) as Hin.
    { intros e He. apply elem_of_app. right. apply elem_of_app. left.
      apply elem_of_app. right. by apply Hsub. }
    split.
    + intros e He. apply Hin, elem_of_app. by left.
    + apply Hin, elem_of_app. right. by apply list_elem_of_singleton.
  - done.
  - intros key computed _ Hout Hin. destruct (Hwithin _ Hin) as [Hreach Htype].
    by destruct Hout.
Qed.

End ContentVerification.

(** *** In which order, and where it stops *)

Section ContentVerificationOrder.
Context `{C : Collaborators}.

Lemma recomputes_checked r key computed t :
  recomputes r key computed t -> snd key <> OSTREE_OBJECT_TYPE_ARCHIVED_FILE_CONTENT.
Proof. destruct 1 as [? objtype|? objtype]; simpl; by destruct objtype. Qed.

Lemma compared_elem k computed t : compare_checksum k computed ∈ t -> k ∈ compared t.
Proof.
  intros Hin. apply list_elem_of_omap. by exists (compare_checksum k computed).
Qed.

Lemma compared_app t1 t2 : compared (t1 ++ t2) = compared t1 ++ compared t2.
Proof. apply omap_app. Qed.

(** The comparisons of a second loop that went through. *)
Lemma compared_objects_loop keys d :
  outcome_of (for_each keys fsck_object d) = Done tt ->
  compared (trace_of (for_each keys fsck_object d))
  = filter (fun k => snd k <> OSTREE_OBJECT_TYPE_ARCHIVED_FILE_CONTENT) keys.
Proof.
  induction keys as [|key keys IH]; [done|].
  simpl. unfold mbind, M_bind, bind.
  destruct (fsck_object_step key d) as [Hstep Hd].
  destruct (fsck_object key d) as [[t1 d1] o1].
  unfold trace_of, data_of, outcome_of in Hstep, Hd. simpl in Hstep, Hd. subst d1.
  destruct o1 as [[]|e|s|w]; [|discriminate|discriminate|discriminate].
  destruct (for_each keys fsck_object d) as [[t2 d2] o2].
  unfold trace_of, outcome_of in *. cbn [fst snd] in *. intros Hdone.
  rewrite compared_app, (IH Hdone).
  inversion Hstep as [Hskip|t Hrec| |]; subst.
  - by rewrite filter_cons_False by (intros Hne; by apply Hne).
  - rewrite filter_cons_True by (by eapply recomputes_checked).
    by rewrite compared_app, (recomputes_no_compare _ _ _ _ Hrec).
Qed.

(** X8.  On success the checksums compared are those of the reachable
    objects other than the [ARCHIVED_FILE_CONTENT] ones, each compared
    exactly once, in the order of the table [reachable_objects]. *)
Theorem success_compares_each_object_once (argv : list string) (repo_path : GFile)
    (objects reachable : gset ObjectName) :
  run_outcome (ostree_builtin_fsck argv repo_path) = Done tt ->
  ostree_repo_list_objects (ostree_repo_new repo_path) OSTREE_REPO_LIST_OBJECTS_ALL
  = Ok objects ->
  traverse_commits (ostree_repo_new repo_path)
    (elements (partition_commits objects)) ∅ = Ok reachable ->
  compared (run_trace (ostree_builtin_fsck argv repo_path))
  = filter (fun k => snd k <> OSTREE_OBJECT_TYPE_ARCHIVED_FILE_CONTENT) (elements reachable)
  /\ NoDup (compared (run_trace (ostree_builtin_fsck argv repo_path))).
Proof.
  rewrite ostree_builtin_fsck_run.
  destruct (g_option_context_parse _ _ _) as [g|err]; [|discriminate].
  cbn [run_outcome run_trace]. intros Hdone Hlist Htrav.
  destruct (fsck_run_done _ Hdone)
    as (objects' & reachable' & t1 & t4 & Hcheck & Hlist' & Htrav' & Hloop & _).
  change (repo (initial_data repo_path)) with (ostree_repo_new repo_path) in *.
  rewrite Hlist in Hlist'. injection Hlist' as <-.
  rewrite Htrav in Htrav'. injection Htrav' as <-.
  rewrite (fsck_run_traversed _ objects reachable) by done. rewrite Hloop.
  change (trace_of (?t, _, _)) with t.
  assert (compared
            (run_head (partition_commits objects)
             ++ (traverse_calls (elements (partition_commits objects))
                 ++ trace_of (for_each (elements reachable) fsck_object
                                (initial_data repo_path)))
             ++ g_print status_packs :: trace_of (fsck_pack_files (initial_data repo_path)))
          = filter (fun k => snd k <> OSTREE_OBJECT_TYPE_ARCHIVED_FILE_CONTENT)
                   (elements reachable)) as ->.
  { rewrite !compared_app.
    change (compared (run_head (partition_commits objects))) with (@nil ObjectName).
    change (compared (g_print status_packs
                      :: trace_of (fsck_pack_files (initial_data repo_path))))
      with (compared (trace_of (fsck_pack_files (initial_data repo_path)))).
    rewrite compared_traverse_calls, compared_pack_files, compared_objects_loop by done.
    by rewrite app_nil_r. }
  split; [done|]. apply NoDup_filter, NoDup_elements.
Qed.

Lemma compare_in_object key d k computed :
  compare_checksum k computed ∈ trace_of (fsck_object key d) ->
  exists t,
    recomputes (repo d) k computed t /\
    trace_of (fsck_object key d) = t ++ [compare_checksum k computed].
Proof.
  destruct (fsck_object_step key d) as [Hstep _].
  destruct (fsck_object key d) as [[t0 d0] o0].
  unfold trace_of, outcome_of in *. cbn [fst snd] in *. intros Hin.
  inversion Hstep as [Hskip|t Hrec|t c Hrec Hne|t e Hno _ Hnc]; subst.
  - by apply elem_of_nil in Hin.
  - apply elem_of_app in Hin as [Hin|Hin].
    + apply compared_elem in Hin. rewrite (recomputes_no_compare _ _ _ _ Hrec) in Hin.
      by apply elem_of_nil in Hin.
    + apply list_elem_of_singleton in Hin. injection Hin as -> ->. by exists t.
  - apply elem_of_app in Hin as [Hin|Hin].
    + apply compared_elem in Hin. rewrite (recomputes_no_compare _ _ _ _ Hrec) in Hin.
      by apply elem_of_nil in Hin.
    + apply list_elem_of_singleton in Hin. injection Hin as -> ->. by exists t.
  - rewrite Forall_forall in Hnc. by destruct (Hnc _ Hin k computed).
Qed.

Lemma compare_in_objects_loop keys d k computed :
  compare_checksum k computed ∈ trace_of (for_each keys fsck_object d) ->
  exists t before after,
    recomputes (repo d) k computed t /\
    trace_of (for_each keys fsck_object d)
    = before ++ t ++ compare_checksum k computed :: after.
Proof.
  induction keys as [|key keys IH]; [by intros ?%elem_of_nil|].
  simpl. unfold mbind, M_bind, bind.
  destruct (fsck_object_step key d) as [_ Hd].
  pose proof (compare_in_object key d k computed) as Hkey.
  destruct (fsck_object key d) as [[t1 d1] o1].
  unfold trace_of, data_of in Hd, Hkey. cbn [fst snd] in Hd, Hkey. subst d1.
  assert (compare_checksum k computed ∈ t1 ->
          forall t2, exists t before after,
            recomputes (repo d) k computed t /\
            t1 ++ t2 = before ++ t ++ compare_checksum k computed :: after) as Hhere.
  { intros Hin t2. destruct (Hkey Hin) as (t & Hrec & ->).
    exists t, [], t2. split; [done|]. by rewrite <- !app_assoc. }
  destruct o1 as [[]|e|s|w].
  - destruct (for_each keys fsck_object d) as [[t2 d2] o2].
    unfold trace_of in *. cbn [fst snd] in *. intros Hin.
    apply elem_of_app in Hin as [Hin|Hin]; [by apply Hhere|].
    destruct (IH Hin) as (t & before & after & Hrec & ->).
    exists t, (t1 ++ before), after. split; [done|]. by rewrite <- !app_assoc.
  - unfold trace_of. cbn [fst snd]. intros Hin.
    destruct (Hhere Hin []) as (t & before & after & Hrec & Heq).
    rewrite app_nil_r in Heq. by exists t, before, after.
  - unfold trace_of. cbn [fst snd]. intros Hin.
    destruct (Hhere Hin []) as (t & before & after & Hrec & Heq).
    rewrite app_nil_r in Heq. by exists t, before, after.
  - unfold trace_of. cbn [fst snd]. intros Hin.
    destruct (Hhere Hin []) as (t & before & after & Hrec & Heq).
    rewrite app_nil_r in Heq. by exists t, before, after.
Qed.

(** X9.  A checksum is compared only for an object that was loaded, passed
    the structure validation of its type and was hashed: the three calls
    come just before the comparison in the run.  An object that cannot be
    loaded or fails its validation is never reported as corrupted. *)
Theorem checksum_is_compared_only_after_validation (argv : list string) (repo_path : GFile)
    (k : ObjectName) (computed : string) :
  compare_checksum k computed ∈ run_trace (ostree_builtin_fsck argv repo_path) ->
  exists t before after,
    recomputes (ostree_repo_new repo_path) k computed t /\
    run_trace (ostree_builtin_fsck argv repo_path)
    = before ++ t ++ compare_checksum k computed :: after.
Proof.
  rewrite ostree_builtin_fsck_run.
  destruct (g_option_context_parse _ _ _) as [g|err]; cbn [run_trace];
    [|by intros ?%elem_of_nil].
  destruct (ostree_repo_check (ostree_repo_new repo_path)) as [[]|err] eqn:Hcheck.
  2:{ rewrite fsck_run_run.
      change (repo (initial_data repo_path)) with (ostree_repo_new repo_path).
      rewrite Hcheck. unfold trace_of. cbn [fst snd]. intros Hin.
      repeat (apply elem_of_cons in Hin as [Hin|Hin]; [discriminate|]).
      by apply elem_of_nil in Hin. }
  destruct (ostree_repo_list_objects (ostree_repo_new repo_path)
              OSTREE_REPO_LIST_OBJECTS_ALL) as [objects|err] eqn:Hlist.
  2:{ rewrite fsck_run_run.
      change (repo (initial_data repo_path)) with (ostree_repo_new repo_path).
      rewrite Hcheck, Hlist. unfold trace_of. cbn [fst snd]. intros Hin.
      repeat (apply elem_of_cons in Hin as [Hin|Hin]; [discriminate|]).
      by apply elem_of_nil in Hin. }
  assert (forall keys, compare_checksum k computed ∉ traverse_calls keys) as Hcalls.
  { intros keys Hin. pose proof (traverse_calls_are_traverse_calls keys) as Hall.
    rewrite Forall_forall in Hall. by apply Hall in Hin. }
  assert (compare_checksum k computed ∉ run_head (partition_commits objects)) as Hhead.
  { intros Hin. repeat (apply elem_of_cons in Hin as [Hin|Hin]; [discriminate|]).
    by apply elem_of_nil in Hin. }
  destruct (traverse_commits (ostree_repo_new repo_path)
              (elements (partition_commits objects)) ∅) as [reachable|err] eqn:Htrav.
  2:{ destruct (fsck_run_traversal_failed (initial_data repo_path) objects err
                  Hcheck Hlist Htrav) as [n ->].
      unfold trace_of. cbn [fst snd]. intros Hin.
      apply elem_of_app in Hin as [Hin|Hin]; [done|by apply Hcalls in Hin]. }
  rewrite (fsck_run_traversed _ objects reachable) by done.
  pose proof (compare_in_objects_loop (elements reachable) (initial_data repo_path)
                k computed) as Hloop.
  change (repo (initial_data repo_path)) with (ostree_repo_new repo_path) in Hloop.
  destruct (outcome_of (for_each _ _ _)) as [[]|err|s|w]; unfold trace_of at 1; cbn [fst snd];
    intros Hin.
  - apply elem_of_app in Hin as [Hin|Hin]; [done|].
    apply elem_of_app in Hin as [Hin|Hin].
    + apply elem_of_app in Hin as [Hin|Hin]; [by apply Hcalls in Hin|].
      destruct (Hloop Hin) as (t & before & after & Hrec & ->).
      exists t, (run_head (partition_commits objects)
                 ++ traverse_calls (elements (partition_commits objects)) ++ before),
        (after ++ g_print status_packs :: trace_of (fsck_pack_files (initial_data repo_path))).
      split; [done|]. by rewrite <- !app_assoc.
    + apply elem_of_cons in Hin as [Hin|Hin]; [discriminate|].
      pose proof (fsck_pack_files_events (initial_data repo_path)) as Hall.
      rewrite Forall_forall in Hall. by apply Hall in Hin.
  - apply elem_of_app in Hin as [Hin|Hin]; [done|].
    apply elem_of_app in Hin as [Hin|Hin]; [by apply Hcalls in Hin|].
    destruct (Hloop Hin) as (t & before & after & Hrec & ->).
    exists t, (run_head (partition_commits objects)
               ++ traverse_calls (elements (partition_commits objects)) ++ before), after.
    split; [done|]. by rewrite <- !app_assoc.
  - apply elem_of_app in Hin as [Hin|Hin]; [done|].
    apply elem_of_app in Hin as [Hin|Hin]; [by apply Hcalls in Hin|].
    destruct (Hloop Hin) as (t & before & after & Hrec & ->).
    exists t, (run_head (partition_commits objects)
               ++ traverse_calls (elements (partition_commits objects)) ++ before), after.
    split; [done|]. by rewrite <- !app_assoc.
  - apply elem_of_app in Hin as [Hin|Hin]; [done|].
    apply elem_of_app in Hin as [Hin|Hin]; [by apply Hcalls in Hin|].
    destruct (Hloop Hin) as (t & before & after & Hrec & ->).
    exists t, (run_head (partition_commits objects)
               ++ traverse_calls (elements (partition_commits objects)) ++ before), after.
    split; [done|]. by rewrite <- !app_assoc.
Qed.

Lemma fsck_objects_prefix_done keys d :
  Forall (fun k => outcome_of (fsck_object k d) = Done tt) keys ->
  for_each keys fsck_object d = (trace_of (for_each keys fsck_object d), d, Done tt).
Proof.
  intros Hall. destruct (fsck_objects_loop keys d) as [_ Hd].
  assert (outcome_of (for_each keys fsck_object d) = Done tt) as Ho.
  { apply fsck_objects_done_iff. by apply Forall_forall. }
  destruct (for_each keys fsck_object d) as [[t d'] o].
  unfold outcome_of, data_of, trace_of in *. simpl in *. by subst.
Qed.

(** X10.  The run stops at the first object of the second loop that fails,
    whatever the failure (the object cannot be loaded, its structure or its
    mode is refused, its checksum cannot be computed, or the checksum
    differs): the error returned is the error of that object, its calls are
    the last events of the run, and the pack files are not looked at. *)
Theorem first_failing_object_decides (argv : list string) (repo_path : GFile)
    (g : Globals) (objects reachable : gset ObjectName)
    (pre post : list ObjectName) (key : ObjectName) (e : GError) :
  g_option_context_parse options argv (mkGlobals false false) = Ok g ->
  ostree_repo_check (ostree_repo_new repo_path) = Ok tt ->
  ostree_repo_list_objects (ostree_repo_new repo_path) OSTREE_REPO_LIST_OBJECTS_ALL
  = Ok objects ->
  traverse_commits (ostree_repo_new repo_path)
    (elements (partition_commits objects)) ∅ = Ok reachable ->
  elements reachable = pre ++ key :: post ->
  Forall (fun k => outcome_of (fsck_object k (initial_data repo_path)) = Done tt) pre ->
  outcome_of (fsck_object key (initial_data repo_path)) = Error e ->
  let run := ostree_builtin_fsck argv repo_path in
  run_outcome run = Error e
  /\ (exists before,
        run_trace run = before ++ trace_of (fsck_object key (initial_data repo_path)))
  /\ Forall (fun ev => ~ pack_event ev) (run_trace run)
  /\ stdout run = [status_enumerating; status_content (partition_commits objects)].
Proof.
  intros Hparse Hcheck Hlist Htrav Helems Hpre Hkey run. subst run. unfold stdout.
  rewrite ostree_builtin_fsck_run, Hparse. cbn [run_outcome run_trace].
  rewrite (fsck_run_traversed _ objects reachable) by done.
  assert (for_each (elements reachable) fsck_object (initial_data repo_path)
          = (trace_of (for_each pre fsck_object (initial_data repo_path))
               ++ trace_of (fsck_object key (initial_data repo_path)),
             initial_data repo_path, Error e)) as Hloop.
  { rewrite Helems, for_each_app, (fsck_objects_prefix_done pre) by done.
    simpl. unfold mbind, M_bind, bind.
    destruct (fsck_object_step key (initial_data repo_path)) as [_ Hd].
    destruct (fsck_object key (initial_data repo_path)) as [[tk dk] ok].
    unfold outcome_of, data_of, trace_of in *. simpl in *. by subst. }
  assert (Forall (fun ev => ~ pack_event ev)
            (trace_of (for_each (elements reachable) fsck_object (initial_data repo_path))))
    as Hev.
  { eapply Forall_impl; [apply fsck_objects_events|].
    intros [] (k & _ & Hab); try done; by intros ?. }
  pose proof (stdout_objects_loop (elements reachable) (initial_data repo_path)) as Hout.
  rewrite Hloop in *. revert Hev Hout. project_run. cbv iota. project_run.
  intros Hev Hout.
  split; [done|]. split; [|split].
  - eexists. by rewrite !app_assoc.
  - apply Forall_app. split; [repeat constructor; by intros []|].
    apply Forall_app. split; [|done].
    eapply Forall_impl; [apply traverse_calls_are_traverse_calls|].
    intros [] Ht; try done; by intros ?.
  - rewrite omap_app, (omap_app _ (traverse_calls _)), stdout_traverse_calls, Hout. done.
Qed.

Lemma fsck_traverse_loop_non_commit keys acc d key :
  key ∈ keys ->
  snd key <> OSTREE_OBJECT_TYPE_COMMIT ->
  exists t o,
    fold_each keys acc fsck_traverse_commit d = (t, d, o) /\
    Forall is_traverse_call t /\
    (o = Aborted "objtype == OSTREE_OBJECT_TYPE_COMMIT" \/ exists e, o = Error e).
Proof.
  intros Hin Hkey. revert acc. induction keys as [|k keys IH]; intros acc.
  - by apply elem_of_nil in Hin.
  - cbn [fold_each]. unfold mbind, M_bind, bind. rewrite fsck_traverse_commit_run.
    case_bool_decide as Hk.
    + apply elem_of_cons in Hin as [->|Hin]; [done|].
      destruct (ostree_traverse_commit _ _ _ _) as [acc'|e].
      * destruct (IH Hin acc') as (t & o & -> & Ht & Ho).
        exists (call_traverse_commit (fst k) :: t), o. by repeat split; [constructor|].
      * exists [call_traverse_commit (fst k)], (Error e).
        repeat split; [by repeat constructor|]. right. by exists e.
    + exists [], (Aborted "objtype == OSTREE_OBJECT_TYPE_COMMIT").
      repeat split; [constructor|]. by left.
Qed.

(** X11.  [fsck_reachable_objects_from_commits] relies on its table holding
    commits only: given a table with a name of another type it never returns
    success and never reaches the second loop; it stops on the assertion
    [objtype == OSTREE_OBJECT_TYPE_COMMIT], or on a traversal that failed
    before that name came up. *)
Theorem commits_table_must_hold_commits (commits : gset ObjectName) (d : OtFsckData)
    (key : ObjectName) :
  key ∈ commits ->
  snd key <> OSTREE_OBJECT_TYPE_COMMIT ->
  Forall is_traverse_call (trace_of (fsck_reachable_objects_from_commits commits d))
  /\ (outcome_of (fsck_reachable_objects_from_commits commits d)
      = Aborted "objtype == OSTREE_OBJECT_TYPE_COMMIT"
      \/ exists e, outcome_of (fsck_reachable_objects_from_commits commits d) = Error e).
Proof.
  intros Hin Hkey. rewrite fsck_reachable_run.
  destruct (fsck_traverse_loop_non_commit (elements commits) ∅ d key)
    as (t & o & -> & Ht & Ho); [by apply elem_of_elements|done|].
  destruct Ho as [->|[e ->]]; split; try done; [by left|right; by exists e].
Qed.

End ContentVerificationOrder.

(** *** The stages of [fsck_pack_files] *)

Section PackOrder.
Context `{C : Collaborators}.

(** X12.  [fsck_pack_files] opens, sizes and hashes the data file of a pack
    only after the index of that pack was mapped and passed the structure
    validation, and it looks at an offset only after the data file hashed
    to the name of the pack; the offset then is one of the index, converted
    from big-endian, and the size is that of the data file. *)
Theorem pack_data_is_read_after_the_index_checks (d : OtFsckData) (e : Event) :
  e ∈ trace_of (fsck_pack_files d) ->
  pack_call_justified (repo d) e.
Proof.
  revert e. apply Forall_forall. rewrite fsck_pack_files_run.
  destruct (ostree_repo_list_pack_indexes (repo d)) as [packs|err]; [|by repeat constructor].
  project_run. constructor; [done|].
  destruct (fsck_pack_loop_pure (repo d) packs None) as (t & o & k & Hrun & _ & Hjust).
  destruct d as [r n]. cbn [repo] in *. by rewrite (Hrun n).
Qed.

(** X13.  The loop over the packs stops at the first pack that does not
    verify: the calls made for that pack are the last events, and no file
    of a pack listed after it is touched.  The error returned is the error
    that pack gives when it is checked with [pack_content_checksum] still
    [NULL], with one exception: when the data file of the pack cannot be
    hashed and a pack was verified before it, the checksum of the earlier
    pack is freed a second time on the way out, and no error is returned. *)
Theorem first_failing_pack_halts (d : OtFsckData) (pre post : list string) (c : string) :
  ostree_repo_list_pack_indexes (repo d) = Ok (pre ++ c :: post) ->
  Forall (pack_verifies (repo d)) pre ->
  ~ pack_verifies (repo d) c ->
  (pre = [] \/ ~ pack_hash_fails (repo d) c ->
   exists e, outcome_of (fsck_pack_files d) = Error e
             /\ outcome_of (fsck_pack_file None c d) = Error e)
  /\ (pre <> [] -> pack_hash_fails (repo d) c ->
      outcome_of (fsck_pack_files d) = Undefined double_free)
  /\ (exists before,
        trace_of (fsck_pack_files d) = before ++ trace_of (fsck_pack_file None c d))
  /\ forall ev c',
       ev ∈ trace_of (fsck_pack_files d) -> pack_of ev = Some c' -> c' ∈ pre \/ c' = c.
Proof.
  intros Hlist Hpre Hc. rewrite fsck_pack_files_run, Hlist. project_run.
  pose proof (fsck_pack_files_loop (pre ++ c :: post) None d) as Hloop.
  destruct (packs_run_first_failure _ _ _ _ _ _ _ Hloop Hpre Hc) as [_ Hout].
  destruct (fsck_pack_loop_stops pre c post None d Hpre Hc) as (before & Htrace & Hbefore).
  split; [|split; [|split]].
  - intros Hclean. destruct Hout as [(e & -> & He & _)|(_ & [?|Hne] & Hf)];
      [by exists e|done|]. by destruct Hclean.
  - intros Hne Hf. destruct Hout as [(e & _ & _ & [[_ ->]|Hnf])|(-> & _)]; done.
  - exists (call_list_pack_indexes :: before). by rewrite Htrace.
  - intros ev c' Hev Hc'. apply elem_of_cons in Hev as [->|Hev]; [discriminate|].
    rewrite Htrace in Hev. apply elem_of_app in Hev as [Hev|Hev].
    + rewrite Forall_forall in Hbefore. destruct (Hbefore _ Hev) as (c'' & Hin & Heq).
      left. congruence.
    + destruct (fsck_pack_file_pure (repo d) None c) as (t & o & Hrun & Hof & _).
      destruct d as [r n]. cbn [repo] in *. rewrite (Hrun n) in Hev.
      rewrite Forall_forall in Hof. right. specialize (Hof _ Hev). congruence.
Qed.

(** X14.  The test on an offset does not depend on the byte order of the
    host: for the eight bytes the index stores, read by the host in its own
    order, the offset compared with the size of the data file (and printed
    in the error) is the big-endian value of the bytes, and an offset equal
    to the size is accepted. *)
Theorem pack_offset_check_is_host_independent (checksum : string) (pack_size : Z)
    (entry : PackIndexEntry) (bs : list Z) (d : OtFsckData) :
  length bs = 8%nat ->
  Forall is_byte bs ->
  pie_offset entry = host_decode G_BYTE_ORDER bs ->
  fsck_pack_offset checksum pack_size entry d =
  ([compare_pack_offset checksum (be_decode bs) pack_size], d,
   if bool_decide (be_decode bs <= pack_size) then Done tt
   else Error (corrupted_pack_offset checksum (be_decode bs) pack_size)).
Proof.
  intros Hlen Hbytes Hoffset.
  rewrite fsck_pack_offset_run, Hoffset, GUINT64_FROM_BE_decodes by done.
  destruct (Z.gtb_spec (be_decode bs) pack_size).
  - by rewrite bool_decide_eq_false_2 by lia.
  - by rewrite bool_decide_eq_true_2 by lia.
Qed.

(** X15.  The counter [n_pack_files] is written and never read for a
    decision or a message: started from any value, [fsck_pack_files] makes
    the same calls and returns the same outcome. *)
Theorem pack_counter_is_write_only (d1 d2 : OtFsckData) :
  repo d1 = repo d2 ->
  trace_of (fsck_pack_files d1) = trace_of (fsck_pack_files d2)
  /\ outcome_of (fsck_pack_files d1) = outcome_of (fsck_pack_files d2).
Proof.
  intros Hrepo. rewrite !fsck_pack_files_run, <- Hrepo.
  destruct (ostree_repo_list_pack_indexes (repo d1)) as [packs|e]; [|done].
  project_run.
  destruct (fsck_pack_loop_pure (repo d1) packs None) as (t & o & k & Hrun & _).
  destruct d1 as [r n1], d2 as [r2 n2]. cbn [repo] in *. subst r2.
  by rewrite (Hrun n1), (Hrun n2).
Qed.

(** X17.  The one run of [fsck_pack_files] that ends in a double free:
    the data file of a listed pack opens and is sized but cannot be hashed,
    and every pack listed before it, of which there is at least one, was
    verified.  [pack_content_checksum] then still points to the checksum of
    the pack before, which was freed ahead of the hash and is freed again on
    the way out.  A first pack whose data file cannot be hashed, and any other
    failure, returns an error. *)
Theorem pack_checksum_freed_twice (d : OtFsckData) (packs : list string) (w : string) :
  ostree_repo_list_pack_indexes (repo d) = Ok packs ->
  outcome_of (fsck_pack_files d) = Undefined w <->
  w = double_free /\
  exists pre c post,
    packs = pre ++ c :: post /\ pre <> [] /\
    Forall (pack_verifies (repo d)) pre /\
    pack_hash_fails (repo d) c.
Proof.
  intros Hlist. rewrite fsck_pack_files_run, Hlist. project_run.
  pose proof (fsck_pack_files_loop packs None d) as Hloop. split.
  - intros Hw. rewrite Hw in Hloop.
    inversion Hloop as [| |pre c post Hpre [?|Hne] Hf]; subst; [done|].
    split; [done|]. by exists pre, c, post.
  - intros (-> & pre & c & post & -> & Hne & Hpre & Hf).
    pose proof (pack_hash_fails_not_verifies _ _ Hf) as Hc.
    destruct (packs_run_first_failure _ _ _ _ _ _ _ Hloop Hpre Hc)
      as [_ [(e & _ & _ & [[_ ->]|Hnf])|(-> & _)]]; done.
Qed.

End PackOrder.

(** *** From the content verification to the pack verification *)

Section Composition.
Context `{C : Collaborators}.

(** X16.  Once the content verification has passed, the rest of the run
    is the pack verification started with the counter at zero: the builtin
    prints the third status line, makes the calls of [fsck_pack_files] and
    nothing after them, returns its outcome and leaves its counter. *)
Theorem run_ends_with_the_pack_verification (argv : list string) (repo_path : GFile)
    (g : Globals) (objects : gset ObjectName) :
  g_option_context_parse options argv (mkGlobals false false) = Ok g ->
  ostree_repo_check (ostree_repo_new repo_path) = Ok tt ->
  ostree_repo_list_objects (ostree_repo_new repo_path) OSTREE_REPO_LIST_OBJECTS_ALL
  = Ok objects ->
  outcome_of (fsck_reachable_objects_from_commits (partition_commits objects)
                (initial_data repo_path)) = Done tt ->
  let run := ostree_builtin_fsck argv repo_path in
  run_outcome run = outcome_of (fsck_pack_files (initial_data repo_path))
  /\ run_data run = Some (data_of (fsck_pack_files (initial_data repo_path)))
  /\ exists before,
       run_trace run
       = before ++ g_print status_packs :: trace_of (fsck_pack_files (initial_data repo_path)).
Proof.
  intros Hparse Hcheck Hlist Hdone run. subst run.
  rewrite ostree_builtin_fsck_run, Hparse. cbn [run_outcome run_data run_trace].
  pose proof (fsck_reachable_calls objects (initial_data repo_path)) as Hreach.
  change (repo (initial_data repo_path)) with (ostree_repo_new repo_path) in Hreach.
  destruct (traverse_commits _ _ _) as [reachable|e] eqn:Htrav.
  2:{ destruct Hreach as [n Hreach]. rewrite Hreach in Hdone. discriminate Hdone. }
  rewrite Hreach in Hdone. revert Hdone. project_run. intros Hdone.
  rewrite (fsck_run_traversed _ objects reachable) by done. rewrite Hdone. project_run.
  split; [done|]. split; [done|]. eexists. by rewrite app_assoc.
Qed.

End Composition.

(** ** Runs on the sample repositories *)

Module Runs.
Import Mem Samples EdgeSamples.

Lemma pack_lists (index : PackIndexVariant) (data : list Z) :
  @ostree_repo_list_pack_indexes (collaborators (pack_world index data)) "repo"
  = Ok [pack_checksum].
Proof. reflexivity. Qed.

Lemma pack_loads_sample (index : PackIndexVariant) (data : list Z) :
  validate_pack_index index = Ok tt ->
  @pack_loads (collaborators (pack_world index data)) "repo" pack_checksum index
    (Z.of_nat (length data)) (digest data).
Proof.
  intros Hval. exists (readable data), (mkFileInfo (Z.of_nat (length data)) 33188 0 0).
  split; [|split; [exact Hval|split; [|by repeat split]]].
  - change (read_file ({[ "objects/pack/ostpack-" +:+ pack_checksum +:+ ".index" := index ]}
                       : gmap string PackIndexVariant)
                      ("objects/pack/ostpack-" +:+ pack_checksum +:+ ".index") = Ok index).
    unfold read_file. by rewrite lookup_singleton_eq.
  - change (read_file ({[ "objects/pack/ostpack-" +:+ pack_checksum +:+ ".data"
                            := readable data ]} : gmap string Stream)
                      ("objects/pack/ostpack-" +:+ pack_checksum +:+ ".data")
            = Ok (readable data)).
    unfold read_file. by rewrite lookup_singleton_eq.
Qed.

Lemma in_range_sample (w : World) (offset size : Z) :
  w_byte_order w = G_LITTLE_ENDIAN ->
  GUINT64_SWAP_LE_BE (GUINT64_SWAP_LE_BE offset) <= size ->
  @offset_in_range (collaborators w) size (entry_at offset).
Proof. intros Hw Hle. unfold offset_in_range. simpl. by rewrite Hw. Qed.

Lemma fsck_pack_files_verifies_witness :
  outcome_of (fsck_pack_files (start good_pack_world)) = Done tt
  /\ outcome_of (fsck_pack_files (start bad_digest_world))
     = Error (corrupted_pack_checksum pack_checksum (digest (bytes_of_string "packdatb")))
  /\ outcome_of (fsck_pack_files (start bad_offset_world))
     = Error (corrupted_pack_offset pack_checksum 9 8).
Proof.
  destruct (fsck_pack_files_verifies (start good_pack_world) [pack_checksum]
              (pack_lists _ _)) as [Hgood _].
  destruct (fsck_pack_files_verifies (start bad_digest_world) [pack_checksum]
              (pack_lists _ _)) as [_ Hdigest].
  destruct (fsck_pack_files_verifies (start bad_offset_world) [pack_checksum]
              (pack_lists _ _)) as [_ Hoffset].
  split; [|split].
  - apply Hgood. intros c Hc. apply list_elem_of_singleton in Hc. subst c.
    exists good_index, 8, pack_checksum.
    split; [exact (pack_loads_sample good_index pack_bytes eq_refl)|].
    split; [reflexivity|].
    repeat (constructor; [apply in_range_sample; [reflexivity|vm_decide]|]). constructor.
  - destruct (Hdigest [] pack_checksum [] good_index 8 (digest (bytes_of_string "packdatb"))
                eq_refl (Forall_nil_2 _)
                (pack_loads_sample good_index (bytes_of_string "packdatb") eq_refl))
      as [Hne _].
    apply Hne. vm_decide.
  - destruct (Hoffset [] pack_checksum [] bad_offset_index 8 pack_checksum
                eq_refl (Forall_nil_2 _)
                (pack_loads_sample bad_offset_index pack_bytes eq_refl))
      as [_ Heq].
    apply (Heq eq_refl [entry_at 0] (entry_at 9) [entry_at 4] eq_refl).
    + constructor; [apply in_range_sample; [reflexivity|vm_decide]|constructor].
    + unfold offset_in_range. vm_decide.
Defined.

Lemma pack_check_needs_valid_index :
  ~ pack_check_iff_checksum_and_offsets (start bad_header_world).
Proof.
  intros Hclaim.
  assert (outcome_of (fsck_pack_files (start bad_header_world))
          = Error (failed "Invalid pack index; doesn't match header")) as Hfails by vm_refl.
  assert (outcome_of (fsck_pack_files (start bad_header_world)) = Done tt) as Hdone.
  { apply (Hclaim [pack_checksum] (pack_lists _ _)).
    intros c Hc. apply list_elem_of_singleton in Hc. subst c. split.
    - exists (readable pack_bytes), pack_checksum. split; [vm_refl|]. split; reflexivity.
    - exists bad_header_index, (readable pack_bytes), (mkFileInfo 8 33188 0 0).
      split; [vm_refl|]. split; [vm_refl|]. split; [reflexivity|].
      repeat (constructor; [apply in_range_sample; [reflexivity|vm_decide]|]). constructor. }
  rewrite Hfails in Hdone. discriminate Hdone.
Qed.

Lemma n_pack_files_counts_verified_packs_witness :
  n_pack_files (start good_pack_world) = 0
  /\ n_pack_files (data_of (fsck_pack_files (start good_pack_world))) = 1
  /\ n_pack_files (data_of (fsck_pack_files (start bad_offset_world))) = 0
  /\ n_pack_files (data_of (fsck_pack_files (start torn_first_world))) = 0
  /\ outcome_of (fsck_pack_files (start torn_second_world)) = Undefined double_free.
Proof.
  split; [reflexivity|]. split; [|split; [|split]].
  - destruct (n_pack_files_counts_verified_packs (start good_pack_world) eq_refl eq_refl)
      as [(_ & _ & Hn)|(pre & c & post & _ & _ & _ & [(e & He & _)|(_ & _ & He)])];
      [exact Hn| |].
    all: assert (outcome_of (fsck_pack_files (start good_pack_world)) = Done tt) as Hdone
      by vm_refl.
    all: rewrite Hdone in He; discriminate He.
  - destruct (n_pack_files_counts_verified_packs (start bad_offset_world) eq_refl eq_refl)
      as [(Hdone & _)|(pre & c & post & Hpacks & _ & _ & [(e & _ & _ & Hn)|(Hne & _)])].
    + assert (outcome_of (fsck_pack_files (start bad_offset_world))
              = Error (corrupted_pack_offset pack_checksum 9 8)) as Hfails by vm_refl.
      rewrite Hfails in Hdone. discriminate Hdone.
    + rewrite Hn. destruct pre as [|p pre]; [reflexivity|].
      destruct pre; discriminate Hpacks.
    + destruct pre as [|p pre]; [done|]. destruct pre; discriminate Hpacks.
  - destruct (n_pack_files_counts_verified_packs (start torn_first_world) eq_refl eq_refl)
      as [(Hdone & _)|(pre & c & post & _ & _ & _ & [(e & He & Hfirst & Hn)|(_ & _ & Hu)])].
    + assert (outcome_of (fsck_pack_files (start torn_first_world))
              = Error (io_error "Input/output error")) as Hfails by vm_refl.
      rewrite Hfails in Hdone. discriminate Hdone.
    + assert (n_pack_files (data_of (fsck_pack_files (start torn_first_world))) = 0)
        as Hzero by vm_refl.
      exact Hzero.
    + assert (outcome_of (fsck_pack_files (start torn_first_world))
              = Error (io_error "Input/output error")) as Hfails by vm_refl.
      rewrite Hfails in Hu. discriminate Hu.
  - assert (forall o : outcome unit,
              outcome_of (fsck_pack_files (start torn_second_world)) = o ->
              o = Undefined double_free) as Hout.
    { intros o <-. vm_refl. }
    destruct (n_pack_files_counts_verified_packs (start torn_second_world) eq_refl eq_refl)
      as [(Hdone & _)|(pre & c & post & _ & _ & _ & [(e & He & _)|(_ & _ & Hu)])].
    + discriminate (Hout _ Hdone).
    + discriminate (Hout _ He).
    + exact Hu.
Defined.

Lemma success_checks_reachable_objects_witness :
  run_outcome (@ostree_builtin_fsck stray [] "repo") = Done tt
  /\ compare_checksum hello_name (fst hello_name)
     ∈ run_trace (@ostree_builtin_fsck stray [] "repo")
  /\ stray_name ∈ dom stray_objects
  /\ forall computed,
       compare_checksum stray_name computed ∉ run_trace (@ostree_builtin_fsck stray [] "repo").
Proof.
  assert (run_outcome (@ostree_builtin_fsck stray [] "repo") = Done tt) as Hdone by vm_refl.
  split; [exact Hdone|].
  destruct (@success_checks_reachable_objects stray [] "repo" Hdone)
    as (objects & reachable & Hlist & Htrav & Hall & _ & Hnot).
  change (Ok (dom stray_objects) = Ok objects) in Hlist. injection Hlist as <-.
  assert (@traverse_commits stray "repo" (elements (partition_commits (dom stray_objects))) ∅
          = Ok all_four) as Hc by vm_refl.
  change (@traverse_commits stray "repo" (elements (partition_commits (dom stray_objects))) ∅
          = Ok reachable) in Htrav.
  rewrite Hc in Htrav. injection Htrav as <-.
  split; [|split].
  - destruct (Hall hello_name) as (t & _ & _ & Hin); [vm_decide|discriminate|exact Hin].
  - vm_decide.
  - intros computed. apply Hnot; [vm_decide|]. left. vm_decide.
Defined.

Lemma orphan_object_is_not_checked :
  ~ @success_checks_every_enumerated_object orphan [] "repo".
Proof.
  intros Hclaim.
  destruct (Hclaim ltac:(vm_refl) (dom orphan_objects) hello_name eq_refl) as [computed Hin].
  - vm_decide.
  - assert (Forall (fun e => forall k c, e <> compare_checksum k c)
              (run_trace (@ostree_builtin_fsck orphan [] "repo"))) as Hno.
    { assert (run_trace (@ostree_builtin_fsck orphan [] "repo")
              = [call_repo_check; g_print status_enumerating; call_list_objects;
                 g_print (status_content ∅); g_print status_packs;
                 call_list_pack_indexes]) as -> by vm_refl.
      repeat constructor; discriminate. }
    rewrite Forall_forall in Hno. by destruct (Hno _ Hin hello_name computed).
Qed.

Lemma first_mismatch_halts_witness :
  run_outcome (@ostree_builtin_fsck corrupted [] "repo")
  = Error (@corrupted_object corrupted hello_name
             (checksum_of OSTREE_OBJECT_TYPE_RAW_FILE hellx))
  /\ compare_checksum root_tree_name (fst root_tree_name)
     ∉ run_trace (@ostree_builtin_fsck corrupted [] "repo").
Proof.
  destruct (@first_mismatch_halts corrupted [] "repo" (mkGlobals false false)
              (dom corrupted_objects) all_four
              [root_meta_name] [commit1_name; root_tree_name] hello_name
              (checksum_of OSTREE_OBJECT_TYPE_RAW_FILE hellx)
              [call_load_file (fst hello_name);
               call_validate_file_mode (fst hello_name) 33188;
               call_checksum_file_from_input OSTREE_OBJECT_TYPE_RAW_FILE (fst hello_name)])
    as (Hout & _ & Hpost & _).
  - reflexivity.
  - reflexivity.
  - reflexivity.
  - vm_refl.
  - vm_refl.
  - constructor; [vm_refl|]. constructor.
  - apply (@recomputes_file corrupted "repo" (fst hello_name) OSTREE_OBJECT_TYPE_RAW_FILE
             (readable (bytes_of_string "hellx")) (mkFileInfo 5 33188 1000 1000)
             (VXattrs mime_type));
      vm_refl.
  - vm_decide.
  - split; [exact Hout|]. apply Hpost. right. left.
Defined.


Lemma traverse_commit_twice_witness :
  Traverse.ostree_traverse_commit good_objects OSTREE_OBJECT_TYPE_RAW_FILE
    (fst commit1_name) 0 ∅ = Ok all_four
  /\ Traverse.ostree_traverse_commit good_objects OSTREE_OBJECT_TYPE_RAW_FILE
       (fst commit1_name) 0 all_four = Ok all_four.
Proof.
  assert (Traverse.ostree_traverse_commit good_objects OSTREE_OBJECT_TYPE_RAW_FILE
            (fst commit1_name) 0 ∅ = Ok all_four) as Hfirst by vm_refl.
  split; [exact Hfirst|].
  exact (TraverseProofs.traverse_commit_twice _ _ _ _ _ _ Hfirst).
Defined.

(** C3.  With [--delete] the run on the repository with the altered file
    reports the corruption and does nothing else: the flag is set, the
    trace and the outcome are those of the run without the flag, the
    failed comparison is the last event, and the repository still lists
    the object. *)
Theorem delete_flag_removes_nothing :
  delete (run_globals (@ostree_builtin_fsck corrupted ["--delete"] "repo")) = true
  /\ run_outcome (@ostree_builtin_fsck corrupted ["--delete"] "repo")
     = Error (@corrupted_object corrupted hello_name
                (checksum_of OSTREE_OBJECT_TYPE_RAW_FILE hellx))
  /\ run_trace (@ostree_builtin_fsck corrupted ["--delete"] "repo")
     = run_trace (@ostree_builtin_fsck corrupted [] "repo")
  /\ last (run_trace (@ostree_builtin_fsck corrupted ["--delete"] "repo"))
     = Some (compare_checksum hello_name (checksum_of OSTREE_OBJECT_TYPE_RAW_FILE hellx))
  /\ exists objects,
       @ostree_repo_list_objects corrupted "repo" OSTREE_REPO_LIST_OBJECTS_ALL = Ok objects
       /\ hello_name ∈ objects.
Proof.
  split; [vm_refl|]. split; [vm_refl|]. split; [vm_refl|]. split; [vm_refl|].
  exists (dom corrupted_objects). split; [reflexivity|vm_decide].
Qed.

(** C9.  With [--quiet] the three status lines are printed all the same. *)
Theorem quiet_flag_still_prints :
  quiet (run_globals (@ostree_builtin_fsck good ["--quiet"] "repo")) = true
  /\ run_outcome (@ostree_builtin_fsck good ["--quiet"] "repo") = Done tt
  /\ stdout (@ostree_builtin_fsck good ["--quiet"] "repo")
     = [ "Enumerating objects..." +:+ newline;
         "Verifying content integrity of 1 commit objects..." +:+ newline;
         "Verifying structure of pack files..." +:+ newline ].
Proof. split; [vm_refl|]. split; vm_refl. Qed.

End Runs.

(** ** Runs on the sample repositories, continued *)

Module EdgeRuns.
Import Mem Samples EdgeSamples.

Lemma good_traversal :
  @traverse_commits good "repo" (elements (partition_commits (dom good_objects))) ∅
  = Ok all_four.
Proof. vm_refl. Qed.

Lemma every_enumerated_commit_is_traversed_once_witness :
  traversed (run_trace (@ostree_builtin_fsck good [] "repo")) = [fst commit1_name].
Proof.
  destruct (@every_enumerated_commit_is_traversed_once good [] "repo"
              (mkGlobals false false) (dom good_objects) all_four
              eq_refl eq_refl eq_refl good_traversal) as [Hcalls _].
  rewrite Hcalls. vm_refl.
Defined.

Lemma repository_without_commits_checks_no_object_witness :
  run_trace (@ostree_builtin_fsck orphan [] "repo")
  = [call_repo_check; g_print status_enumerating; call_list_objects;
     g_print (status_content ∅); g_print status_packs; call_list_pack_indexes]
  /\ run_outcome (@ostree_builtin_fsck orphan [] "repo") = Done tt.
Proof.
  destruct (@repository_without_commits_checks_no_object orphan [] "repo"
              (mkGlobals false false) (dom orphan_objects) eq_refl eq_refl eq_refl)
    as [Htrace Hout].
  - intros key Hkey. unfold orphan_objects in Hkey.
    rewrite dom_singleton_L in Hkey. apply elem_of_singleton in Hkey. by subst key.
  - rewrite Htrace, Hout. split; vm_refl.
Defined.

Lemma failed_traversal_stops_before_any_object_witness :
  run_outcome (@ostree_builtin_fsck dangling [] "repo")
  = Error (Traverse.no_such_object root_meta_name)
  /\ stdout (@ostree_builtin_fsck dangling [] "repo")
     = [status_enumerating; status_content {[ commit1_name ]}].
Proof.
  destruct (@failed_traversal_stops_before_any_object dangling [] "repo"
              (mkGlobals false false) (dom dangling_objects)
              (Traverse.no_such_object root_meta_name) eq_refl eq_refl eq_refl)
    as (Hout & _ & Hprinted).
  - vm_refl.
  - split; [exact Hout|]. rewrite Hprinted. vm_refl.
Defined.

Lemma only_reachable_objects_are_touched_witness :
  exists t,
    (fst hello_name, t) ∈ all_four /\ t <> OSTREE_OBJECT_TYPE_ARCHIVED_FILE_CONTENT.
Proof.
  apply (@only_reachable_objects_are_touched good [] "repo" (dom good_objects) all_four
           (call_load_file (fst hello_name)) eq_refl good_traversal).
  vm_decide.
Defined.

Lemma success_compares_each_object_once_witness :
  compared (run_trace (@ostree_builtin_fsck good [] "repo"))
  = [root_meta_name; hello_name; commit1_name; root_tree_name].
Proof.
  assert (run_outcome (@ostree_builtin_fsck good [] "repo") = Done tt) as Hdone by vm_refl.
  destruct (@success_compares_each_object_once good [] "repo" (dom good_objects) all_four
              Hdone eq_refl good_traversal) as [Hcompared _].
  rewrite Hcompared. vm_refl.
Defined.

Lemma checksum_is_compared_only_after_validation_witness :
  exists t before after,
    @recomputes corrupted "repo" hello_name (checksum_of OSTREE_OBJECT_TYPE_RAW_FILE hellx) t
    /\ run_trace (@ostree_builtin_fsck corrupted [] "repo")
       = before ++ t
         ++ compare_checksum hello_name (checksum_of OSTREE_OBJECT_TYPE_RAW_FILE hellx)
         :: after.
Proof.
  apply (@checksum_is_compared_only_after_validation corrupted [] "repo").
  vm_decide.
Defined.

Lemma missing_file_traversal :
  @traverse_commits missing_file "repo"
    (elements (partition_commits (dom missing_file_objects))) ∅ = Ok all_four.
Proof. vm_refl. Qed.

Lemma first_failing_object_decides_witness :
  run_outcome (@ostree_builtin_fsck missing_file [] "repo")
  = Error (io_error ("No such file object " +:+ fst hello_name))
  /\ call_list_pack_indexes ∉ run_trace (@ostree_builtin_fsck missing_file [] "repo").
Proof.
  destruct (@first_failing_object_decides missing_file [] "repo" (mkGlobals false false)
              (dom missing_file_objects) all_four
              [root_meta_name] [commit1_name; root_tree_name] hello_name
              (io_error ("No such file object " +:+ fst hello_name))
              eq_refl eq_refl eq_refl missing_file_traversal)
    as (Hout & _ & Hpacks & _).
  - vm_refl.
  - constructor; [vm_refl|]. constructor.
  - vm_refl.
  - split; [exact Hout|]. intros Hin. rewrite Forall_forall in Hpacks.
    by apply (Hpacks _ Hin).
Defined.

Lemma commits_table_must_hold_commits_witness :
  outcome_of (@fsck_reachable_objects_from_commits good {[ hello_name ]}
                (start (bare_world good_objects)))
  = Aborted "objtype == OSTREE_OBJECT_TYPE_COMMIT".
Proof.
  destruct (@commits_table_must_hold_commits good {[ hello_name ]}
              (start (bare_world good_objects)) hello_name) as [_ [Hab|[e He]]].
  - by apply elem_of_singleton.
  - discriminate.
  - exact Hab.
  - assert (outcome_of (@fsck_reachable_objects_from_commits good {[ hello_name ]}
                          (start (bare_world good_objects)))
            = Aborted "objtype == OSTREE_OBJECT_TYPE_COMMIT") as Hrun by vm_refl.
    rewrite Hrun in He. discriminate He.
Defined.

Lemma pack_data_is_read_after_the_index_checks_witness :
  exists index entry,
    @pack_loads (collaborators good_pack_world) "repo" pack_checksum index 8 pack_checksum
    /\ entry ∈ pi_contents index
    /\ 4 = GUINT64_FROM_BE G_LITTLE_ENDIAN (pie_offset entry).
Proof.
  apply (@pack_data_is_read_after_the_index_checks (collaborators good_pack_world)
           (start good_pack_world) (compare_pack_offset pack_checksum 4 8)).
  vm_decide.
Defined.

Lemma first_pack_verifies :
  @pack_verifies (collaborators three_packs_world) "repo" pack_checksum.
Proof.
  exists good_index, 8, pack_checksum. split; [|split; [reflexivity|]].
  - exists (readable pack_bytes), (mkFileInfo 8 33188 0 0). repeat split; vm_refl.
  - repeat (constructor; [apply Runs.in_range_sample; [reflexivity|vm_decide]|]). constructor.
Qed.

Lemma second_pack_has_no_index :
  ~ @pack_verifies (collaborators three_packs_world) "repo" "absent".
Proof.
  intros (index & size & digest & (input & info & Hmap & _) & _).
  assert (@ot_util_variant_map (collaborators three_packs_world)
            (@ostree_repo_get_pack_index_path (collaborators three_packs_world)
               "repo" "absent")
          = Fail (io_error "Error opening file 'objects/pack/ostpack-absent.index'"))
    as Hfail by vm_refl.
  rewrite Hfail in Hmap. discriminate Hmap.
Qed.

Lemma second_pack_is_not_hashed :
  ~ @pack_hash_fails (collaborators three_packs_world) "repo" "absent".
Proof.
  intros (index & input & info & e & Hmap & _).
  assert (@ot_util_variant_map (collaborators three_packs_world)
            (@ostree_repo_get_pack_index_path (collaborators three_packs_world)
               "repo" "absent")
          = Fail (io_error "Error opening file 'objects/pack/ostpack-absent.index'"))
    as Hfail by vm_refl.
  rewrite Hfail in Hmap. discriminate Hmap.
Qed.

Lemma intact_pack_verifies (packs : list string) :
  @pack_verifies (collaborators (torn_pack_world packs)) "repo" pack_checksum.
Proof.
  exists good_index, 8, pack_checksum. split; [|split; [reflexivity|]].
  - exists (readable pack_bytes), (mkFileInfo 8 33188 0 0). repeat split; vm_refl.
  - repeat (constructor; [apply Runs.in_range_sample; [reflexivity|vm_decide]|]). constructor.
Qed.

Lemma torn_pack_hash_fails (packs : list string) :
  @pack_hash_fails (collaborators (torn_pack_world packs)) "repo" "torn".
Proof.
  exists good_index, torn_stream, (mkFileInfo 8 33188 0 0), (io_error "Input/output error").
  repeat split; vm_refl.
Qed.

Lemma torn_pack_does_not_verify (packs : list string) :
  ~ @pack_verifies (collaborators (torn_pack_world packs)) "repo" "torn".
Proof. apply pack_hash_fails_not_verifies, torn_pack_hash_fails. Qed.

Lemma first_failing_pack_halts_witness :
  (exists e, outcome_of (fsck_pack_files (start three_packs_world)) = Error e
             /\ outcome_of (fsck_pack_file None "absent" (start three_packs_world)) = Error e)
  /\ (call_variant_map "later" ∉ trace_of (fsck_pack_files (start three_packs_world)))
  /\ outcome_of (fsck_pack_files (start torn_second_world)) = Undefined double_free
  /\ exists e, outcome_of (fsck_pack_files (start torn_first_world)) = Error e.
Proof.
  destruct (@first_failing_pack_halts (collaborators three_packs_world)
              (start three_packs_world) [pack_checksum] ["later"] "absent" eq_refl)
    as (Hout & _ & _ & Honly).
  { constructor; [exact first_pack_verifies|constructor]. }
  { exact second_pack_has_no_index. }
  destruct (@first_failing_pack_halts (collaborators torn_second_world)
              (start torn_second_world) [pack_checksum] [] "torn" eq_refl)
    as (_ & Hfreed & _).
  { constructor; [exact (intact_pack_verifies _)|constructor]. }
  { exact (torn_pack_does_not_verify _). }
  destruct (@first_failing_pack_halts (collaborators torn_first_world)
              (start torn_first_world) [] [pack_checksum] "torn" eq_refl)
    as (Hfirst & _).
  { constructor. }
  { exact (torn_pack_does_not_verify _). }
  split; [|split; [|split]].
  - apply Hout. right. exact second_pack_is_not_hashed.
  - intros Hin.
    destruct (Honly _ "later" Hin eq_refl) as [Hpre|Heq]; [|discriminate Heq].
    apply list_elem_of_singleton in Hpre.
    assert ("later" <> pack_checksum) as Hne by vm_decide. by destruct Hne.
  - apply Hfreed; [discriminate|exact (torn_pack_hash_fails _)].
  - destruct Hfirst as (e & He & _); [by left|by exists e].
Defined.

Lemma pack_checksum_freed_twice_witness :
  outcome_of (fsck_pack_files (start torn_second_world)) = Undefined double_free
  /\ forall w, outcome_of (fsck_pack_files (start torn_first_world)) <> Undefined w.
Proof.
  split.
  - apply (@pack_checksum_freed_twice (collaborators torn_second_world)
             (start torn_second_world) [pack_checksum; "torn"] double_free eq_refl).
    split; [reflexivity|]. exists [pack_checksum], "torn", [].
    split; [reflexivity|]. split; [discriminate|]. split.
    + constructor; [exact (intact_pack_verifies _)|constructor].
    + exact (torn_pack_hash_fails _).
  - intros w Hw.
    apply (@pack_checksum_freed_twice (collaborators torn_first_world)
             (start torn_first_world) ["torn"; pack_checksum] w eq_refl) in Hw
      as (_ & pre & c & post & Hpacks & Hne & Hpre & _).
    destruct pre as [|p pre]; [done|]. injection Hpacks as <- Hrest.
    apply Forall_cons in Hpre as [Hpre _]. by apply torn_pack_does_not_verify in Hpre.
Defined.

Lemma pack_offset_check_is_host_independent_witness :
  @fsck_pack_offset (collaborators good_pack_world) pack_checksum 8 (entry_at 9)
    (start good_pack_world)
  = ([compare_pack_offset pack_checksum 9 8], start good_pack_world,
     Error (corrupted_pack_offset pack_checksum 9 8))
  /\ @fsck_pack_offset (collaborators big_endian_world) pack_checksum 8
       (mkPackIndexEntry 1 [] 9) (start big_endian_world)
     = ([compare_pack_offset pack_checksum 9 8], start big_endian_world,
        Error (corrupted_pack_offset pack_checksum 9 8)).
Proof.
  assert (Forall is_byte offset_9_bytes) as Hbytes.
  { repeat constructor; unfold is_byte; lia. }
  split.
  - exact (@pack_offset_check_is_host_independent (collaborators good_pack_world)
             pack_checksum 8 (entry_at 9) offset_9_bytes (start good_pack_world)
             eq_refl Hbytes eq_refl).
  - exact (@pack_offset_check_is_host_independent (collaborators big_endian_world)
             pack_checksum 8 (mkPackIndexEntry 1 [] 9) offset_9_bytes
             (start big_endian_world) eq_refl Hbytes eq_refl).
Defined.

Lemma pack_counter_is_write_only_witness :
  trace_of (fsck_pack_files (start good_pack_world))
  = trace_of (fsck_pack_files (@mkOtFsckData (collaborators good_pack_world) "repo" 41))
  /\ outcome_of (fsck_pack_files (start good_pack_world))
     = outcome_of (fsck_pack_files (@mkOtFsckData (collaborators good_pack_world) "repo" 41)).
Proof.
  exact (@pack_counter_is_write_only (collaborators good_pack_world)
           (start good_pack_world) (@mkOtFsckData (collaborators good_pack_world) "repo" 41)
           eq_refl).
Defined.

Lemma run_ends_with_the_pack_verification_witness :
  run_outcome (@ostree_builtin_fsck (collaborators good_pack_world) [] "repo") = Done tt
  /\ n_pack_files <$> run_data (@ostree_builtin_fsck (collaborators good_pack_world) [] "repo")
     = Some 1.
Proof.
  destruct (@run_ends_with_the_pack_verification (collaborators good_pack_world) [] "repo"
              (mkGlobals false false) (dom (w_objects good_pack_world))
              eq_refl eq_refl eq_refl) as (Hout & Hdata & _).
  - vm_refl.
  - assert (n_pack_files (data_of (fsck_pack_files (start good_pack_world))) = 1) as Hcount
      by vm_refl.
    rewrite Hout, Hdata. split; [vm_refl|]. exact (f_equal Some Hcount).
Defined.

End EdgeRuns.
